(** * go-getopts: a shallow embedding of [getopts/option.go]

    The package keeps its registry in package-level variables and hands out
    pointers to the declared flags and options.  The embedding threads one
    [State] record through every operation: it holds the package-level
    variables, the objects the [*Flag] and [*Option] pointers point to, and
    the state of the program's callbacks.

    Go strings are byte sequences: they are [string] here (a list of 8-bit
    [ascii]), and Go's [byte] is [ascii].  Go's [int] is a 64-bit two's
    complement integer, written as [Z] with the wrap-around explicit. *)

From Stdlib Require Import ZArith Lia Ascii String.
From stdpp Require Import base option list gmap strings.

#[local] Open Scope Z_scope.

(** ** Bytes and strings, as Go indexes and slices them *)

Definition byteZ (c : ascii) : Z := Z.of_N (N_of_ascii c).

(** [len(s)] *)
Definition len (s : string) : nat := String.length s.

(** [s[i]].  Go panics when [i] is out of range; every use in the package
    is guarded by the length of the string, and the embedding returns the
    zero byte there. *)
Fixpoint byteAt (s : string) (i : nat) : ascii :=
  match s, i with
  | EmptyString, _ => Ascii.zero
  | String c _, O => c
  | String _ s', S i' => byteAt s' i'
  end.

(** [s[lo:]] *)
Fixpoint sliceFrom (s : string) (lo : nat) {struct lo} : string :=
  match lo, s with
  | O, _ => s
  | S _, EmptyString => EmptyString
  | S lo', String _ s' => sliceFrom s' lo'
  end.

(** [s[:hi]] *)
Fixpoint sliceTo (s : string) (hi : nat) {struct hi} : string :=
  match hi, s with
  | O, _ => EmptyString
  | S _, EmptyString => EmptyString
  | S hi', String c s' => String c (sliceTo s' hi')
  end.

(** [s[lo:hi]] *)
Definition slice (s : string) (lo hi : nat) : string :=
  sliceTo (sliceFrom s lo) (hi - lo).

(** [strings.IndexByte]: the index of the first [c] in [s], or [-1]. *)
Fixpoint IndexByte (s : string) (c : ascii) : Z :=
  match s with
  | EmptyString => -1
  | String b s' =>
      if Ascii.eqb b c then 0
      else let r := IndexByte s' c in if r <? 0 then -1 else r + 1
  end.

(** ** Go's [int] *)

Definition intSize : Z := 64.

(** The value an [int] holds after an arithmetic result [z]. *)
Definition wrapInt (z : Z) : Z :=
  (z + 2 ^ (intSize - 1)) mod 2 ^ intSize - 2 ^ (intSize - 1).

(** ** [unicode/utf8] and [strings.EqualFold]

    [parseFlagOpt] compares with [strings.EqualFold], which folds case by
    Unicode runes.  The decoder below follows the table of well-formed UTF-8
    byte ranges that [utf8.DecodeRuneInString] implements. *)

Definition RuneSelf : Z := 0x80.
Definition RuneError : Z := 0xFFFD.

Definition inRange (b lo hi : Z) : bool := (lo <=? b) && (b <=? hi).

Definition DecodeRuneInString (s : string) : Z * nat :=
  match s with
  | EmptyString => (RuneError, 0%nat)
  | String c0 s1 =>
      let b0 := byteZ c0 in
      if b0 <? RuneSelf then (b0, 1%nat)
      else if inRange b0 0xC2 0xDF then
        match s1 with
        | String c1 _ =>
            let b1 := byteZ c1 in
            if inRange b1 0x80 0xBF
            then (Z.lor (Z.shiftl (Z.land b0 0x1F) 6) (Z.land b1 0x3F), 2%nat)
            else (RuneError, 1%nat)
        | _ => (RuneError, 1%nat)
        end
      else if inRange b0 0xE0 0xEF then
        let lo := if b0 =? 0xE0 then 0xA0 else 0x80 in
        let hi := if b0 =? 0xED then 0x9F else 0xBF in
        match s1 with
        | String c1 (String c2 _) =>
            let b1 := byteZ c1 in
            let b2 := byteZ c2 in
            if inRange b1 lo hi && inRange b2 0x80 0xBF
            then (Z.lor (Z.shiftl (Z.land b0 0x0F) 12)
                    (Z.lor (Z.shiftl (Z.land b1 0x3F) 6) (Z.land b2 0x3F)),
                  3%nat)
            else (RuneError, 1%nat)
        | _ => (RuneError, 1%nat)
        end
      else if inRange b0 0xF0 0xF4 then
        let lo := if b0 =? 0xF0 then 0x90 else 0x80 in
        let hi := if b0 =? 0xF4 then 0x8F else 0xBF in
        match s1 with
        | String c1 (String c2 (String c3 _)) =>
            let b1 := byteZ c1 in
            let b2 := byteZ c2 in
            let b3 := byteZ c3 in
            if inRange b1 lo hi && inRange b2 0x80 0xBF && inRange b3 0x80 0xBF
            then (Z.lor (Z.shiftl (Z.land b0 0x07) 18)
                    (Z.lor (Z.shiftl (Z.land b1 0x3F) 12)
                       (Z.lor (Z.shiftl (Z.land b2 0x3F) 6) (Z.land b3 0x3F))),
                  4%nat)
            else (RuneError, 1%nat)
        | _ => (RuneError, 1%nat)
        end
      else (RuneError, 1%nat)
  end.

(** The runes [for _, r := range s] yields.  Every rune takes at least one
    byte, so [len s] rounds are enough. *)
Fixpoint runesFrom (fuel : nat) (s : string) : list Z :=
  match fuel with
  | O => []
  | S fuel' =>
      match s with
      | EmptyString => []
      | _ =>
          let '(r, size) := DecodeRuneInString s in
          r :: runesFrom fuel' (sliceFrom s size)
      end
  end.

Definition runes (s : string) : list Z := runesFrom (len s) s.

(** [unicode.SimpleFold] on the case orbits that contain an ASCII rune:
    [K k U+212A] and [S s U+017F] have three members, the other letters two,
    and every other ASCII rune is alone in its orbit.  The orbits of the
    remaining runes are not reproduced (they are left alone in theirs): when
    one side of [EqualFold] is an ASCII literal, as at every call in the
    package, [SimpleFold] is only applied to the runes listed here. *)
Definition SimpleFold (r : Z) : Z :=
  if r =? 0x4B then 0x6B
  else if r =? 0x6B then 0x212A
  else if r =? 0x212A then 0x4B
  else if r =? 0x53 then 0x73
  else if r =? 0x73 then 0x17F
  else if r =? 0x17F then 0x53
  else if inRange r 0x41 0x5A then r + 0x20
  else if inRange r 0x61 0x7A then r - 0x20
  else r.

(** [for r != sr && r < tr { r = unicode.SimpleFold(r) }] *)
Fixpoint foldOrbit (fuel : nat) (sr tr r : Z) : Z :=
  match fuel with
  | O => r
  | S fuel' =>
      if negb (r =? sr) && (r <? tr)
      then foldOrbit fuel' sr tr (SimpleFold r)
      else r
  end.

(** No orbit above has more than three members. *)
Definition orbitFuel : nat := 3.

(** ['A' <= sr && sr <= 'Z' && tr == sr+'a'-'A'] *)
Definition asciiCasePair (sr tr : Z) : bool :=
  (0x41 <=? sr) && (sr <=? 0x5A) && (tr =? sr + 0x61 - 0x41).

(** The [hasUnicode] loop of [EqualFold]: [srs] are the runes of what is left
    of [s], and [t] is consumed one rune at a time. *)
Fixpoint EqualFoldUnicode (srs : list Z) (t : string) : bool :=
  match srs with
  | [] => (len t =? 0)%nat
  | sr :: srs' =>
      match t with
      | EmptyString => false
      | String t0 t1 =>
          let '(tr, t') :=
            if byteZ t0 <? RuneSelf then (byteZ t0, t1)
            else let '(r, size) := DecodeRuneInString t in (r, sliceFrom t size) in
          if tr =? sr then EqualFoldUnicode srs' t'
          else
            let '(sr, tr) := if tr <? sr then (tr, sr) else (sr, tr) in
            if tr <? RuneSelf then
              if asciiCasePair sr tr then EqualFoldUnicode srs' t' else false
            else
              let r := foldOrbit orbitFuel sr tr (SimpleFold sr) in
              if r =? tr then EqualFoldUnicode srs' t' else false
      end
  end.

(** [strings.EqualFold]: the ASCII fast path, leaving for the rune loop at the
    first byte outside ASCII. *)
Fixpoint EqualFold (s t : string) : bool :=
  match s, t with
  | String sc s', String tc t' =>
      let sr := byteZ sc in
      let tr := byteZ tc in
      if RuneSelf <=? Z.lor sr tr then EqualFoldUnicode (runes s) t
      else if tr =? sr then EqualFold s' t'
      else
        let '(sr, tr) := if tr <? sr then (tr, sr) else (sr, tr) in
        if asciiCasePair sr tr then EqualFold s' t' else false
  | _, _ => (len s =? len t)%nat
  end.

(** ** Errors

    An error made by [fmt.Errorf] is kept as its format and its argument;
    the formats take one [%c] or one [%s]. *)

Inductive error : Type :=
  | Errorf_c (format : string) (c : ascii)
  | Errorf_s (format : string) (s : string).

Definition errUnrecognizedShort : string := "Unrecognized short option:  %c".
Definition errUnrecognizedLong : string := "Unrecognized long option:  %s".
Definition errTriedToNegateOptArg : string :=
  "Passed negation for option expecting argument: %c".
Definition errPassedOptargToFlag : string :=
  "Passed non-boolean option to flag:  %s".

Definition parseFlagOpt (flag value : string) : bool * option error :=
  if EqualFold value "f" then (false, None)
  else if EqualFold value "t" then (true, None)
  else if EqualFold value "y" then (true, None)
  else if EqualFold value "n" then (false, None)
  else if EqualFold value "no" then (false, None)
  else if EqualFold value "yes" then (true, None)
  else if EqualFold value "true" then (true, None)
  else if EqualFold value "false" then (false, None)
  else (false, Some (Errorf_s errPassedOptargToFlag flag)).

(** The spellings of the two boolean values, compared as [parseFlagOpt]
    compares, without regard to case. *)
Definition spellsTrue (value : string) : bool :=
  EqualFold value "t" || EqualFold value "y"
  || EqualFold value "yes" || EqualFold value "true".

Definition spellsFalse (value : string) : bool :=
  EqualFold value "f" || EqualFold value "n"
  || EqualFold value "no" || EqualFold value "false".

(** The letters [f n t y], which start the eight spellings. *)
Definition plainLetter (x : Z) : Prop := x = 0x66 ∨ x = 0x6E ∨ x = 0x74 ∨ x = 0x79.

(** ** The data model *)

(** [type Rest struct] *)
Record Rest : Type := mkRest {
  Argument : string;
  AfterDashes : bool
}.

(** [type option struct], the part that flags and options have in common.
    ([option] is taken in Rocq, hence the underscore.) *)
Record option_ : Type := mkOption_ {
  ShortOpt : ascii;
  LongOpt : string;
  Help : string;
  Passed : bool;
  takesArg : bool
}.

Definition setPassed (o : option_) (b : bool) : option_ :=
  {| ShortOpt := ShortOpt o; LongOpt := LongOpt o; Help := Help o;
     Passed := b; takesArg := takesArg o |}.

(** [func (o option) takesArgument() bool] *)
Definition option_takesArgument (o : option_) : bool := takesArg o.

(** [type parameter interface]: the values stored in the two maps are
    pointers, a [*Flag] or an [*Option]; the number is the address of the
    object in the corresponding memory of the [State]. *)
Inductive parameter : Type :=
  | FlagPtr (a : nat)
  | OptionPtr (a : nat).

(** The type assertions of [p] to [*Flag] and to [*Option]; [None] is the run-time
    panic of a failed assertion. *)
Definition assertFlag (p : parameter) : option nat :=
  match p with FlagPtr a => Some a | OptionPtr _ => None end.

Definition assertOption (p : parameter) : option nat :=
  match p with OptionPtr a => Some a | FlagPtr _ => None end.

Section Getopts.

(** The callbacks ([OnTrue], [OnFalse], [Action], [OnRestArg]) are closures of
    the calling program.  They act on a state of their own, [World], which is
    threaded through the parse in the order of the calls; they do not reach
    into the registry. *)
Context {World : Type}.

(** [type Option struct] *)
Record Option : Type := mkOption {
  O_option : option_;
  OptArg : string;
  OptArgs : list string;
  Action : option (string -> World -> World)
}.

(** [type Flag struct] *)
Record Flag : Type := mkFlag {
  F_option : option_;
  Count : Z;
  OnTrue : option (World -> World);
  OnFalse : option (World -> World)
}.

(** The package-level variables, the memory behind the pointers held by the
    maps, and the callbacks' state.  [Options] and [Flags] hold the copies
    that [append] made at declaration; the maps point at the objects in
    [option_mem] and [flag_mem], which the parse mutates. *)
Record State : Type := mkState {
  Options : list Option;
  Flags : list Flag;
  paramsByShort : gmap ascii parameter;
  paramsByLong : gmap string parameter;
  OnRestArg : option (string -> bool -> World -> bool * World);
  flag_mem : list Flag;
  option_mem : list Option;
  world : World
}.

Definition setFlagMem (st : State) (m : list Flag) (w : World) : State :=
  {| Options := Options st; Flags := Flags st;
     paramsByShort := paramsByShort st; paramsByLong := paramsByLong st;
     OnRestArg := OnRestArg st;
     flag_mem := m; option_mem := option_mem st; world := w |}.

Definition setOptionMem (st : State) (m : list Option) (w : World) : State :=
  {| Options := Options st; Flags := Flags st;
     paramsByShort := paramsByShort st; paramsByLong := paramsByLong st;
     OnRestArg := OnRestArg st;
     flag_mem := flag_mem st; option_mem := m; world := w |}.

Definition setWorld (st : State) (w : World) : State :=
  {| Options := Options st; Flags := Flags st;
     paramsByShort := paramsByShort st; paramsByLong := paramsByLong st;
     OnRestArg := OnRestArg st;
     flag_mem := flag_mem st; option_mem := option_mem st; world := w |}.

(** ** Delivery *)

(** [func (f *Flag) takeValue(value bool)] on the object and the callbacks'
    state. *)
Definition Flag_takeValue (value : bool) (f : Flag) (w : World) : Flag * World :=
  let count := if value then wrapInt (Count f + 1) else wrapInt (Count f - 1) in
  let f' := {| F_option := setPassed (F_option f) value; Count := count;
               OnTrue := OnTrue f; OnFalse := OnFalse f |} in
  match value, OnTrue f, OnFalse f with
  | true, Some onTrue, _ => (f', onTrue w)
  | false, _, Some onFalse => (f', onFalse w)
  | _, _, _ => (f', w)
  end.

(** [takeValue] through the pointer [a]; [None] when [a] points nowhere. *)
Definition takeValue (a : nat) (value : bool) (st : State) : option State :=
  match flag_mem st !! a with
  | Some f =>
      let '(f', w) := Flag_takeValue value f (world st) in
      Some (setFlagMem st (<[a := f']> (flag_mem st)) w)
  | None => None
  end.

(** [func (o *Option) addOptArg(arg string)] on the object and the callbacks'
    state. *)
Definition Option_addOptArg (arg : string) (o : Option) (w : World) : Option * World :=
  let o' := {| O_option := setPassed (O_option o) true; OptArg := arg;
               OptArgs := OptArgs o ++ [arg]; Action := Action o |} in
  match Action o with
  | Some action => (o', action arg w)
  | None => (o', w)
  end.

Definition addOptArg (a : nat) (arg : string) (st : State) : option State :=
  match option_mem st !! a with
  | Some o =>
      let '(o', w) := Option_addOptArg arg o (world st) in
      Some (setOptionMem st (<[a := o']> (option_mem st)) w)
  | None => None
  end.

(** [p.takesArgument()] through the interface value [p]. *)
Definition takesArgument (st : State) (p : parameter) : option bool :=
  match p with
  | FlagPtr a => (fun f => option_takesArgument (F_option f)) <$> flag_mem st !! a
  | OptionPtr a => (fun o => option_takesArgument (O_option o)) <$> option_mem st !! a
  end.

(** [func addRest(rest []Rest, arg string, dash bool) []Rest] *)
Definition addRest (rest : list Rest) (arg : string) (dash : bool) (st : State)
  : list Rest * State :=
  match OnRestArg st with
  | Some onRestArg =>
      let '(keep, w) := onRestArg arg dash (world st) in
      if keep
      then (rest ++ [{| Argument := arg; AfterDashes := dash |}], setWorld st w)
      else (rest, setWorld st w)
  | None => (rest ++ [{| Argument := arg; AfterDashes := dash |}], st)
  end.

(** ** Declaration *)

(** The package-level variables as their initialisers leave them, with
    nothing allocated yet. *)
Definition initState (w : World) : State :=
  {| Options := []; Flags := []; paramsByShort := ∅; paramsByLong := ∅;
     OnRestArg := None; flag_mem := []; option_mem := []; world := w |}.

(** [func resetParams()] *)
Definition resetParams (st : State) : State :=
  {| Options := []; Flags := []; paramsByShort := ∅; paramsByLong := ∅;
     OnRestArg := None; flag_mem := flag_mem st; option_mem := option_mem st;
     world := world st |}.

(** [checkShort] and [checkLong]: [false] is the panic. *)
Definition checkShort (s : ascii) (st : State) : bool :=
  match paramsByShort st !! s with Some _ => false | None => true end.

Definition checkLong (l : string) (st : State) : bool :=
  match paramsByLong st !! l with Some _ => false | None => true end.

Definition newFlagObject (s : ascii) (l h : string) : Flag :=
  {| F_option := {| ShortOpt := s; LongOpt := l; Help := h;
                    Passed := false; takesArg := false |};
     Count := 0; OnTrue := None; OnFalse := None |}.

Definition newOptionObject (s : ascii) (l h : string) : Option :=
  {| O_option := {| ShortOpt := s; LongOpt := l; Help := h;
                    Passed := false; takesArg := true |};
     OptArg := ""; OptArgs := []; Action := None |}.

(** Allocation of the escaping local [flag], the [append] of its copy to
    [Flags], and the two optional map entries. *)
Definition declareFlag (flag : Flag) (short : option ascii) (long : option string)
    (st : State) : nat * State :=
  let a := length (flag_mem st) in
  (a, {| Options := Options st; Flags := Flags st ++ [flag];
         paramsByShort :=
           match short with
           | Some s => <[s := FlagPtr a]> (paramsByShort st)
           | None => paramsByShort st
           end;
         paramsByLong :=
           match long with
           | Some l => <[l := FlagPtr a]> (paramsByLong st)
           | None => paramsByLong st
           end;
         OnRestArg := OnRestArg st;
         flag_mem := flag_mem st ++ [flag]; option_mem := option_mem st;
         world := world st |}).

Definition declareOption (opt : Option) (short : option ascii) (long : option string)
    (st : State) : nat * State :=
  let a := length (option_mem st) in
  (a, {| Options := Options st ++ [opt]; Flags := Flags st;
         paramsByShort :=
           match short with
           | Some s => <[s := OptionPtr a]> (paramsByShort st)
           | None => paramsByShort st
           end;
         paramsByLong :=
           match long with
           | Some l => <[l := OptionPtr a]> (paramsByLong st)
           | None => paramsByLong st
           end;
         OnRestArg := OnRestArg st;
         flag_mem := flag_mem st; option_mem := option_mem st ++ [opt];
         world := world st |}).

(** The six constructors; [None] is the panic on a duplicate name, otherwise
    the returned pointer and the new state. *)
Definition NewFlag (s : ascii) (l h : string) (st : State) : option (nat * State) :=
  if checkShort s st && checkLong l st
  then Some (declareFlag (newFlagObject s l h) (Some s) (Some l) st)
  else None.

Definition NewFlagShort (s : ascii) (h : string) (st : State) : option (nat * State) :=
  if checkShort s st
  then Some (declareFlag (newFlagObject s "" h) (Some s) None st)
  else None.

Definition NewFlagLong (l h : string) (st : State) : option (nat * State) :=
  if checkLong l st
  then Some (declareFlag (newFlagObject Ascii.zero l h) None (Some l) st)
  else None.

Definition NewOption (s : ascii) (l h : string) (st : State) : option (nat * State) :=
  if checkShort s st && checkLong l st
  then Some (declareOption (newOptionObject s l h) (Some s) (Some l) st)
  else None.

Definition NewOptionShort (s : ascii) (h : string) (st : State) : option (nat * State) :=
  if checkShort s st
  then Some (declareOption (newOptionObject s "" h) (Some s) None st)
  else None.

Definition NewOptionLong (l h : string) (st : State) : option (nat * State) :=
  if checkLong l st
  then Some (declareOption (newOptionObject Ascii.zero l h) None (Some l) st)
  else None.

(** ** [ArgParse] *)

(** The variables of the loop of [ArgParse]; [waiting_opt] is a [*Option],
    [None] while it is nil. *)
Record loopVars : Type := mkLoopVars {
  rest : list Rest;
  expect_optarg : bool;
  waiting_opt : option nat
}.

Definition setRest (v : loopVars) (r : list Rest) : loopVars :=
  {| rest := r; expect_optarg := expect_optarg v; waiting_opt := waiting_opt v |}.

(** What a piece of the loop body does next: go on with the loop, return
    [(rest, err)] from [ArgParse], or panic. *)
Inductive control : Type :=
  | Continue (v : loopVars) (st : State)
  | Return (r : list Rest) (err : option error) (st : State)
  | Panic.

(** The inner loop after the terminator:
    [for i++; i < argc; i++ { rest = addRest(rest, argv[i], true) }]. *)
Fixpoint addRestAfterDashes (r : list Rest) (args : list string) (st : State)
  : list Rest * State :=
  match args with
  | [] => (r, st)
  | arg :: args' =>
      let '(r', st') := addRest r arg true st in
      addRestAfterDashes r' args' st'
  end.

(** A flag or an option named alone, by [-x] or by [--name]: the body of
    [if p, ok := ...; ok] without its [else]. *)
Definition passParameter (p : parameter) (v : loopVars) (st : State) : control :=
  match takesArgument st p with
  | None => Panic
  | Some true =>
      match assertOption p with
      | Some a =>
          Continue {| rest := rest v; expect_optarg := true; waiting_opt := Some a |} st
      | None => Panic
      end
  | Some false =>
      match assertFlag p with
      | Some a =>
          match takeValue a true st with
          | Some st' => Continue v st'
          | None => Panic
          end
      | None => Panic
      end
  end.

(** A parameter named by [+x]: an option is an error, a flag is set false. *)
Definition negateParameter (c : ascii) (p : parameter) (v : loopVars) (st : State)
  : control :=
  match takesArgument st p with
  | None => Panic
  | Some true => Return (rest v) (Some (Errorf_c errTriedToNegateOptArg c)) st
  | Some false =>
      match assertFlag p with
      | Some a =>
          match takeValue a false st with
          | Some st' => Continue v st'
          | None => Panic
          end
      | None => Panic
      end
  end.

(** The clump loop [for j := 1; j < len(arg); j++], with [n] rounds left. *)
Fixpoint clump (arg : string) (n j : nat) (v : loopVars) (st : State) : control :=
  match n with
  | O => Continue v st
  | S n' =>
      match paramsByShort st !! byteAt arg j with
      | Some p =>
          match takesArgument st p with
          | None => Panic
          | Some true =>
              if (j <? len arg - 1)%nat then
                match assertOption p with
                | Some a =>
                    match addOptArg a (sliceFrom arg j) st with
                    | Some st' => Continue v st'
                    | None => Panic
                    end
                | None => Panic
                end
              else
                match assertOption p with
                | Some a =>
                    clump arg n' (S j)
                      {| rest := rest v; expect_optarg := true; waiting_opt := Some a |}
                      st
                | None => Panic
                end
          | Some false =>
              match assertFlag p with
              | Some a =>
                  match takeValue a true st with
                  | Some st' => clump arg n' (S j) v st'
                  | None => Panic
                  end
              | None => Panic
              end
          end
      | None => Return (rest v) (Some (Errorf_c errUnrecognizedShort (byteAt arg j))) st
      end
  end.

(** The negated clump loop, with [n] rounds left. *)
Fixpoint negateClump (arg : string) (n j : nat) (v : loopVars) (st : State) : control :=
  match n with
  | O => Continue v st
  | S n' =>
      match paramsByShort st !! byteAt arg j with
      | Some p =>
          match negateParameter (byteAt arg j) p v st with
          | Continue v' st' => negateClump arg n' (S j) v' st'
          | c => c
          end
      | None => Return (rest v) (Some (Errorf_c errUnrecognizedShort (byteAt arg j))) st
      end
  end.

(** [--name] and [--name=value]. *)
Definition longOption (arg : string) (v : loopVars) (st : State) : control :=
  let indexOfEquals := IndexByte arg "=" in
  if indexOfEquals <? 0 then
    let long := sliceFrom arg 2 in
    match paramsByLong st !! long with
    | Some p => passParameter p v st
    | None => Return (rest v) (Some (Errorf_s errUnrecognizedLong long)) st
    end
  else
    let long := slice arg 2 (Z.to_nat indexOfEquals) in
    let optarg := sliceFrom arg (Z.to_nat (indexOfEquals + 1)) in
    match paramsByLong st !! long with
    | Some p =>
        match takesArgument st p with
        | None => Panic
        | Some true =>
            match assertOption p with
            | Some a =>
                match addOptArg a optarg st with
                | Some st' => Continue v st'
                | None => Panic
                end
            | None => Panic
            end
        | Some false =>
            match parseFlagOpt long optarg with
            | (_, Some err) => Return (rest v) (Some err) st
            | (b, None) =>
                match assertFlag p with
                | Some a =>
                    match takeValue a b st with
                    | Some st' => Continue v st'
                    | None => Panic
                    end
                | None => Panic
                end
            end
        end
    | None => Return (rest v) (Some (Errorf_s errUnrecognizedLong long)) st
    end.

(** One round of the loop of [ArgParse] on [arg = argv[i]]; [tl] is
    [argv[i+1:]], which only the terminator reads. *)
Definition step (arg : string) (tl : list string) (v : loopVars) (st : State) : control :=
  if expect_optarg v then
    match waiting_opt v with
    | Some a =>
        match addOptArg a arg st with
        | Some st' =>
            Continue {| rest := rest v; expect_optarg := false;
                        waiting_opt := waiting_opt v |} st'
        | None => Panic
        end
    | None => Panic
    end
  else
    match len arg with
    | 0%nat => Continue v st
    | 1%nat =>
        let '(r, st') := addRest (rest v) arg false st in
        Continue (setRest v r) st'
    | 2%nat =>
        if bool_decide (arg = "--") then
          let '(r, st') := addRestAfterDashes (rest v) tl st in
          Return r None st'
        else if bool_decide (byteAt arg 0 = "-"%char) then
          match paramsByShort st !! byteAt arg 1 with
          | Some p => passParameter p v st
          | None => Return (rest v) (Some (Errorf_c errUnrecognizedShort (byteAt arg 1))) st
          end
        else if bool_decide (byteAt arg 0 = "+"%char) then
          match paramsByShort st !! byteAt arg 1 with
          | Some p => negateParameter (byteAt arg 1) p v st
          | None => Return (rest v) (Some (Errorf_c errUnrecognizedShort (byteAt arg 1))) st
          end
        else
          let '(r, st') := addRest (rest v) arg false st in
          Continue (setRest v r) st'
    | _ =>
        if bool_decide (byteAt arg 0 = "-"%char) then
          if bool_decide (byteAt arg 1 = "-"%char) then longOption arg v st
          else clump arg (len arg - 1) 1 v st
        else if bool_decide (byteAt arg 0 = "+"%char) then
          negateClump arg (len arg - 1) 1 v st
        else
          let '(r, st') := addRest (rest v) arg false st in
          Continue (setRest v r) st'
    end.

(** [for ; i < argc; i++] over [args = argv[i:]], and the [return rest, nil]
    after it. *)
Fixpoint loop (args : list string) (v : loopVars) (st : State) : control :=
  match args with
  | [] => Return (rest v) None st
  | arg :: tl =>
      match step arg tl v st with
      | Continue v' st' => loop tl v' st'
      | c => c
      end
  end.

Definition initVars : loopVars :=
  {| rest := []; expect_optarg := false; waiting_opt := None |}.

(** [func ArgParse(argv []string) ([]Rest, error)]: the loop starts at
    [i := 1]. *)
Definition ArgParse (argv : list string) (st : State) : control :=
  loop (drop 1 argv) initVars st.

End Getopts.

(** ** Sequences of deliveries and of positional arguments

    The claims speak of what a flag or an option holds after several
    deliveries, and of the positional arguments offered to [OnRestArg];
    these are the iterations of the operations above. *)

Section Sequences.

Context {World : Type}.

(** [takeValue] once for each value of [values], in order. *)
Fixpoint deliverValues (values : list bool) (f : @Flag World) (w : World)
  : Flag * World :=
  match values with
  | [] => (f, w)
  | value :: values' =>
      let '(f', w') := Flag_takeValue value f w in
      deliverValues values' f' w'
  end.

(** The number of deliveries of [b] among [values]. *)
Fixpoint deliveries (b : bool) (values : list bool) : Z :=
  match values with
  | [] => 0
  | value :: values' =>
      (if Bool.eqb value b then 1 else 0) + deliveries b values'
  end.

(** [addOptArg] once for each argument of [args], in order. *)
Fixpoint deliverOptArgs (args : list string) (o : @Option World) (w : World)
  : Option * World :=
  match args with
  | [] => (o, w)
  | arg :: args' =>
      let '(o', w') := Option_addOptArg arg o w in
      deliverOptArgs args' o' w'
  end.

(** [takeValue(value)] through the short names of [cs], from left to right,
    as long as they are names of flags. *)
Fixpoint deliverShorts (value : bool) (cs : string) (st : @State World) : State :=
  match cs with
  | EmptyString => st
  | String c cs' =>
      match paramsByShort st !! c with
      | Some (FlagPtr a) =>
          match takeValue a value st with
          | Some st' => deliverShorts value cs' st'
          | None => st
          end
      | _ => st
      end
  end.

(** The loop variables and the state when the loop of [ArgParse] has gone
    through all of [args] without returning. *)
Fixpoint loopVarsAfter (args : list string) (v : loopVars) (st : @State World)
  : option (loopVars * State) :=
  match args with
  | [] => Some (v, st)
  | arg :: tl =>
      match step arg tl v st with
      | Continue v' st' => loopVarsAfter tl v' st'
      | _ => None
      end
  end.

(** [c] is the short name of a declared flag. *)
Definition shortIsFlag (st : @State World) (c : ascii) : Prop :=
  ∃ a f, paramsByShort st !! c = Some (FlagPtr a)
         ∧ flag_mem st !! a = Some f
         ∧ takesArg (F_option f) = false.

(** [c] is the short name of a declared option. *)
Definition shortIsOption (st : @State World) (c : ascii) : Prop :=
  ∃ a o, paramsByShort st !! c = Some (OptionPtr a)
         ∧ option_mem st !! a = Some o
         ∧ takesArg (O_option o) = true.

Fixpoint allShortFlags (st : @State World) (cs : string) : Prop :=
  match cs with
  | EmptyString => True
  | String c cs' => shortIsFlag st c ∧ allShortFlags st cs'
  end.

(** The positional arguments [args], each offered once to [onRestArg] with
    its tag [dash], in order: the entries that are kept, and the callbacks'
    state afterwards.  With no callback every entry is kept. *)
Fixpoint offerRest (onRestArg : option (string -> bool -> World -> bool * World))
    (dash : bool) (args : list string) (w : World) : list Rest * World :=
  match args with
  | [] => ([], w)
  | arg :: args' =>
      match onRestArg with
      | Some callback =>
          let '(keep, w1) := callback arg dash w in
          let '(kept, w2) := offerRest onRestArg dash args' w1 in
          (if keep then {| Argument := arg; AfterDashes := dash |} :: kept else kept, w2)
      | None =>
          let '(kept, w2) := offerRest onRestArg dash args' w in
          ({| Argument := arg; AfterDashes := dash |} :: kept, w2)
      end
  end.

(** A token that the parser takes for a positional argument whatever the
    registry holds: one byte, or longer and starting with neither [-] nor
    [+]. *)
Definition positional (arg : string) : bool :=
  match arg with
  | EmptyString => false
  | String _ EmptyString => true
  | String c _ => negb (bool_decide (c = "-"%char)) && negb (bool_decide (c = "+"%char))
  end.

End Sequences.

(** ** The registries of the examples *)

Module Examples.

(** [NewFlag('v', "verbose", ...)] then [NewOption('f', "file", ...)], as the
    tests of the package declare them; the callbacks have no state. *)
Definition registry : @State unit :=
  match NewFlag "v" "verbose" "Increase verbosity" (initState tt) with
  | Some (_, st) =>
      match NewOption "f" "file" "Input file" st with
      | Some (_, st') => st'
      | None => st
      end
  | None => initState tt
  end.

(** The two objects that [registry] points at, as they are declared. *)
Definition flagV : @Flag unit := newFlagObject "v" "verbose" "Increase verbosity".
Definition optionF : @Option unit := newOptionObject "f" "file" "Input file".

(** The same registry with an [OnRestArg] that keeps nothing. *)
Definition registryDroppingRest : @State unit :=
  {| Options := Options registry; Flags := Flags registry;
     paramsByShort := paramsByShort registry;
     paramsByLong := paramsByLong registry;
     OnRestArg := Some (fun _ _ w => (false, w));
     flag_mem := flag_mem registry; option_mem := option_mem registry;
     world := tt |}.

(** A registry whose callbacks record the positional arguments they were
    offered, and keep those that came before the terminator. *)
Definition registryLoggingRest : @State (list (string * bool)) :=
  {| Options := []; Flags := []; paramsByShort := ∅; paramsByLong := ∅;
     OnRestArg := Some (fun arg dash w => (negb dash, w ++ [(arg, dash)]));
     flag_mem := []; option_mem := []; world := [] |}.

(** A flag declared with [-] for its short name. *)
Definition registryDashFlag : @State unit :=
  match NewFlag "-" "dash" "" (initState tt) with
  | Some (_, st) => st
  | None => initState tt
  end.

End Examples.

(** ** The rest of the package, and what a registry keeps

    [GetOpts] and [ShowHelp], and the notions in which the properties of the
    declarations and of a whole parse are stated. *)

Section Registry.

Context {World : Type}.

(** [func GetOpts() ([]Rest, error)], with [os.Args] for its argument. *)
Definition GetOpts (osArgs : list string) (st : @State World) : control :=
  ArgParse osArgs st.

(** [func ShowHelp()]: [panic("TODO")]. *)
Definition ShowHelp (st : @State World) : @control World := Panic.

(** The dynamic type of the interface value [p]: [true] for an [*Option]. *)
Definition isOptionPtr (p : parameter) : bool :=
  match p with OptionPtr _ => true | FlagPtr _ => false end.

(** [p] points at an object, and the unexported [takesArg] of that object
    says what the type of [p] is.  The constructors set [takesArg], and no
    code outside the package can change it. *)
Definition wellTyped (st : @State World) (p : parameter) : Prop :=
  takesArgument st p = Some (isOptionPtr p).

(** Every pointer held by the two maps is well typed. *)
Definition wellFormed (st : @State World) : Prop :=
  (∀ c p, paramsByShort st !! c = Some p → wellTyped st p)
  ∧ (∀ l p, paramsByLong st !! l = Some p → wellTyped st p).

(** What a parse leaves alone in going from [st] to [st']: the maps, the
    slices [Flags] and [Options], [OnRestArg], the number of objects, and what
    [takesArgument] answers for every pointer. *)
Definition sameRegistry (st st' : @State World) : Prop :=
  paramsByShort st' = paramsByShort st
  ∧ paramsByLong st' = paramsByLong st
  ∧ OnRestArg st' = OnRestArg st
  ∧ Flags st' = Flags st
  ∧ Options st' = Options st
  ∧ length (flag_mem st') = length (flag_mem st)
  ∧ length (option_mem st') = length (option_mem st)
  ∧ ∀ p, takesArgument st' p = takesArgument st p.

(** The loop variables expect a value only for an option that exists. *)
Definition awaitsAnOption (v : loopVars) (st : @State World) : Prop :=
  expect_optarg v = true →
  ∃ a, waiting_opt v = Some a ∧ is_Some (option_mem st !! a).

(** What the registry [st] must hold for the error [e] to be the right one:
    an unrecognized name is in no map, a negated byte names an option, and a
    refused boolean was given to a flag. *)
Definition justified (st : @State World) (e : error) : Prop :=
  match e with
  | Errorf_c format c =>
      (format = errUnrecognizedShort ∧ paramsByShort st !! c = None)
      ∨ (format = errTriedToNegateOptArg
         ∧ ∃ p, paramsByShort st !! c = Some p ∧ takesArgument st p = Some true)
  | Errorf_s format name =>
      (format = errUnrecognizedLong ∧ paramsByLong st !! name = None)
      ∨ (format = errPassedOptargToFlag
         ∧ ∃ p, paramsByLong st !! name = Some p
                ∧ takesArgument st p = Some false)
  end.

(** [P] holds of the state a piece of the loop hands on, when it does not
    panic. *)
Definition handsOn (c : @control World) (P : @State World → Prop) : Prop :=
  match c with
  | Continue _ st' => P st'
  | Return _ _ st' => P st'
  | Panic => True
  end.

(** What a delivery leaves of a flag: its names, its help and its
    callbacks. *)
Definition sameFlag (f f' : @Flag World) : Prop :=
  ShortOpt (F_option f') = ShortOpt (F_option f)
  ∧ LongOpt (F_option f') = LongOpt (F_option f)
  ∧ Help (F_option f') = Help (F_option f)
  ∧ OnTrue f' = OnTrue f
  ∧ OnFalse f' = OnFalse f.

(** What a delivery leaves of an option: its names, its help and its
    callback; and the history it had is the beginning of the one it has. *)
Definition sameOption (o o' : @Option World) : Prop :=
  ShortOpt (O_option o') = ShortOpt (O_option o)
  ∧ LongOpt (O_option o') = LongOpt (O_option o)
  ∧ Help (O_option o') = Help (O_option o)
  ∧ Action o' = Action o
  ∧ OptArgs o `prefix_of` OptArgs o'
  ∧ (Passed (O_option o) = true → Passed (O_option o') = true).

(** Every object is where it was, and the same but for what a delivery
    writes. *)
Definition sameObjects (st st' : @State World) : Prop :=
  (∀ a f, flag_mem st !! a = Some f →
          ∃ f', flag_mem st' !! a = Some f' ∧ sameFlag f f')
  ∧ (∀ a o, option_mem st !! a = Some o →
            ∃ o', option_mem st' !! a = Some o' ∧ sameOption o o').

(** The entries of [r] are tagged [dash]. *)
Definition allTagged (dash : bool) (r : list Rest) : Prop :=
  Forall (fun entry => AfterDashes entry = dash) r.

End Registry.

(** The registry of the tests of the package: [resetParams] followed by
    [NewFlag('v', "verbose", ...)]; the seventh test also declares
    [NewFlag('a', "all", ...)]. *)
Definition testRegistry : @State unit :=
  match NewFlag "v" "verbose" "Increase verbosity" (resetParams (initState tt)) with
  | Some (_, st) => st
  | None => initState tt
  end.

Definition testRegistryAll : @State unit :=
  match NewFlag "a" "all" "All things" testRegistry with
  | Some (_, st) => st
  | None => testRegistry
  end.

(** [Passed] of the flag at address [a] after [ArgParse argv], when it
    returns without error. *)
Definition passedAfter (argv : list string) (st : @State unit) (a : nat)
  : option bool :=
  match ArgParse argv st with
  | Return _ None st' => (fun f => Passed (F_option f)) <$> flag_mem st' !! a
  | _ => None
  end.

(** ASCII strings and their lower case, to say what [parseFlagOpt] accepts
    among them. *)
Definition isASCII (s : string) : Prop :=
  Forall (fun c => byteZ c < RuneSelf) (list_ascii_of_string s).

Definition lowerByte (c : ascii) : ascii :=
  if inRange (byteZ c) 0x41 0x5A
  then ascii_of_N (Z.to_N (byteZ c + 0x20))
  else c.

Fixpoint asciiLower (s : string) : string :=
  match s with
  | EmptyString => EmptyString
  | String c s' => String (lowerByte c) (asciiLower s')
  end.

(** Only the letters [a] to [z]. *)
Definition lowerLetters (s : string) : Prop :=
  Forall (fun c => inRange (byteZ c) 0x61 0x7A = true) (list_ascii_of_string s).

(** * Properties *)

(** ** Strings *)

Lemma append_cons (c : ascii) (s t : string) :
  String c s +:+ t = String c (s +:+ t).
Proof. reflexivity. Qed.

Lemma append_empty (t : string) : "" +:+ t = t.
Proof. reflexivity. Qed.

Lemma len_append (s t : string) : len (s +:+ t) = (len s + len t)%nat.
Proof.
  induction s as [|c s IH]; [reflexivity|].
  rewrite append_cons. unfold len in *. simpl. now rewrite IH.
Qed.

Lemma sliceFrom_append (s t : string) : sliceFrom (s +:+ t) (len s) = t.
Proof.
  induction s as [|c s IH]; [now destruct t|].
  rewrite append_cons. exact IH.
Qed.

Lemma sliceTo_append (s t : string) : sliceTo (s +:+ t) (len s) = s.
Proof.
  induction s as [|c s IH]; [now destruct t|].
  rewrite append_cons. unfold len in *. simpl. now rewrite IH.
Qed.

(** Where [s[j:]] starts with [c], [s[j]] is [c] and [s[j+1:]] is the rest. *)
Lemma sliceFrom_cons (s : string) (j : nat) (c : ascii) (s' : string) :
  sliceFrom s j = String c s' → byteAt s j = c ∧ sliceFrom s (S j) = s'.
Proof.
  revert s. induction j as [|j IH]; intros s H.
  - simpl in H. subst s. split; reflexivity.
  - destruct s as [|b s]; [discriminate|]. simpl in H. apply IH in H.
    exact H.
Qed.

(** The first [c] of [name ++ c ++ value] is the one in the middle when
    [name] holds none. *)
Lemma IndexByte_append (name value : string) (c : ascii) :
  IndexByte name c < 0 →
  IndexByte (name +:+ String c value) c = Z.of_nat (len name).
Proof.
  induction name as [|b name IH]; intros H.
  - rewrite append_empty. simpl. now rewrite Ascii.eqb_refl.
  - rewrite append_cons. simpl in *.
    destruct (Ascii.eqb b c); [lia|].
    destruct (Z.ltb_spec (IndexByte name c) 0) as [Hlt|Hge].
    + rewrite (IH Hlt).
      destruct (Z.ltb_spec (Z.of_nat (len name)) 0); unfold len in *; lia.
    + lia.
Qed.

(** ** Go's [int] *)

Lemma wrapInt_small (z : Z) :
  - 2 ^ (intSize - 1) ≤ z < 2 ^ (intSize - 1) → wrapInt z = z.
Proof.
  unfold wrapInt, intSize. intros H.
  rewrite Z.mod_small; lia.
Qed.

Lemma wrapInt_add (z d : Z) : wrapInt (wrapInt z + d) = wrapInt (z + d).
Proof.
  unfold wrapInt.
  replace ((z + 2 ^ (intSize - 1)) mod 2 ^ intSize - 2 ^ (intSize - 1) + d
           + 2 ^ (intSize - 1))
    with ((z + 2 ^ (intSize - 1)) mod 2 ^ intSize + d) by lia.
  rewrite Z.add_mod_idemp_l by (unfold intSize; lia).
  f_equal. f_equal. lia.
Qed.

Section Properties.

Context {World : Type}.

Implicit Types (st : @State World) (v : loopVars) (f : @Flag World)
  (o : @Option World) (w : World).

(** ** Delivery through a pointer *)

Lemma takeValue_Some a value st f :
  flag_mem st !! a = Some f →
  takeValue a value st
  = Some (setFlagMem st (<[a := (Flag_takeValue value f (world st)).1]> (flag_mem st))
            (Flag_takeValue value f (world st)).2).
Proof.
  intros H. unfold takeValue. rewrite H.
  now destruct (Flag_takeValue value f (world st)).
Qed.

Lemma addOptArg_Some a arg st o :
  option_mem st !! a = Some o →
  addOptArg a arg st
  = Some (setOptionMem st (<[a := (Option_addOptArg arg o (world st)).1]> (option_mem st))
            (Option_addOptArg arg o (world st)).2).
Proof.
  intros H. unfold addOptArg. rewrite H.
  now destruct (Option_addOptArg arg o (world st)).
Qed.

(** A delivery to a flag leaves the maps, the options and [OnRestArg] as they
    are. *)
Lemma takeValue_frame a value st st' :
  takeValue a value st = Some st' →
  paramsByShort st' = paramsByShort st
  ∧ paramsByLong st' = paramsByLong st
  ∧ option_mem st' = option_mem st
  ∧ OnRestArg st' = OnRestArg st.
Proof.
  unfold takeValue. destruct (flag_mem st !! a) as [f|]; [|discriminate].
  destruct (Flag_takeValue value f (world st)) as [f' w].
  intros [= <-]. now repeat split.
Qed.

Lemma Flag_takeValue_takesArg value f w :
  takesArg (F_option (Flag_takeValue value f w).1) = takesArg (F_option f).
Proof.
  unfold Flag_takeValue.
  destruct value, (OnTrue f), (OnFalse f); reflexivity.
Qed.

(** A delivery to a flag keeps every short name of a flag the short name of a
    flag. *)
Lemma takeValue_shortIsFlag a value st st' c :
  takeValue a value st = Some st' → shortIsFlag st c → shortIsFlag st' c.
Proof.
  intros H (a' & f' & Hp & Hm & Ht).
  destruct (takeValue_frame _ _ _ _ H) as (Hs & _).
  unfold takeValue in H.
  destruct (flag_mem st !! a) as [f|] eqn:Hf; [|discriminate].
  pose proof (Flag_takeValue_takesArg value f (world st)) as Htk.
  destruct (Flag_takeValue value f (world st)) as [f1 w1]. simpl in Htk.
  injection H as <-. simpl.
  destruct (decide (a = a')) as [->|Hne].
  - exists a', f1. repeat split; [exact Hp| |congruence].
    apply list_lookup_insert_eq. now apply lookup_lt_Some in Hm.
  - exists a', f'. repeat split; [exact Hp| |exact Ht].
    simpl. now rewrite list_lookup_insert_ne.
Qed.

Lemma takeValue_allShortFlags a value st st' cs :
  takeValue a value st = Some st' → allShortFlags st cs → allShortFlags st' cs.
Proof.
  intros H. induction cs as [|c cs IH]; simpl; [easy|].
  intros [Hc Hcs]. split; [|auto]. eapply takeValue_shortIsFlag; eauto.
Qed.

Lemma takeValue_shortIsOption a value st st' c :
  takeValue a value st = Some st' → shortIsOption st c → shortIsOption st' c.
Proof.
  intros H (a' & o & Hp & Hm & Ht).
  destruct (takeValue_frame _ _ _ _ H) as (Hs & _ & Ho & _).
  exists a', o. rewrite Hs, Ho. now repeat split.
Qed.

Lemma takeValue_short_None a value st st' c :
  takeValue a value st = Some st' →
  paramsByShort st !! c = None → paramsByShort st' !! c = None.
Proof.
  intros H. destruct (takeValue_frame _ _ _ _ H) as (Hs & _). now rewrite Hs.
Qed.

(** What [takesArgument] and the type assertions find at the short name of a
    flag or of an option. *)
Lemma takesArgument_flag st a f :
  flag_mem st !! a = Some f →
  takesArgument st (FlagPtr a) = Some (takesArg (F_option f)).
Proof. intros H. simpl. now rewrite H. Qed.

Lemma takesArgument_option st a o :
  option_mem st !! a = Some o →
  takesArgument st (OptionPtr a) = Some (takesArg (O_option o)).
Proof. intros H. simpl. now rewrite H. Qed.

(** ** Flags: count and state *)

Lemma wrapInt_range (z : Z) :
  - 2 ^ (intSize - 1) ≤ wrapInt z < 2 ^ (intSize - 1).
Proof.
  unfold wrapInt, intSize.
  pose proof (Z.mod_pos_bound (z + 2 ^ (64 - 1)) (2 ^ 64) ltac:(lia)). lia.
Qed.

Lemma Flag_takeValue_Count value f w :
  Count (Flag_takeValue value f w).1
  = wrapInt (Count f + (if value then 1 else -1)).
Proof.
  unfold Flag_takeValue.
  destruct value, (OnTrue f), (OnFalse f); reflexivity.
Qed.

Lemma Flag_takeValue_Passed value f w :
  Passed (F_option (Flag_takeValue value f w).1) = value.
Proof.
  unfold Flag_takeValue.
  destruct value, (OnTrue f), (OnFalse f); reflexivity.
Qed.

Lemma deliveries_cons (value : bool) (values : list bool) :
  deliveries true (value :: values) - deliveries false (value :: values)
  = (if value then 1 else -1)
    + (deliveries true values - deliveries false values).
Proof. destruct value; simpl; lia. Qed.

Lemma deliveries_repeat (n : nat) :
  deliveries true (repeat true n) = Z.of_nat n
  ∧ deliveries false (repeat true n) = 0.
Proof.
  induction n as [|n [IH1 IH2]]; [now split|].
  cbn [repeat deliveries]. rewrite IH1, IH2. cbn [Bool.eqb]. lia.
Qed.

Lemma deliverValues_Count values f w :
  - 2 ^ (intSize - 1) ≤ Count f < 2 ^ (intSize - 1) →
  Count (deliverValues values f w).1
  = wrapInt (Count f + (deliveries true values - deliveries false values)).
Proof.
  revert f w. induction values as [|value values IH]; intros f w Hf.
  - simpl. rewrite Z.add_0_r. symmetry. now apply wrapInt_small.
  - rewrite deliveries_cons.
    change (deliverValues (value :: values) f w)
      with (let '(f', w') := Flag_takeValue value f w in deliverValues values f' w').
    pose proof (Flag_takeValue_Count value f w) as Hc.
    destruct (Flag_takeValue value f w) as [f1 w1]. simpl in Hc.
    rewrite IH by (rewrite Hc; apply wrapInt_range).
    rewrite Hc, wrapInt_add. f_equal. lia.
Qed.

Lemma last_nonempty {A : Type} (x : A) (l : list A) (d d' : A) :
  List.last (x :: l) d = List.last (x :: l) d'.
Proof.
  revert x. induction l as [|y l IH]; intros x; [reflexivity|].
  change (List.last (y :: l) d = List.last (y :: l) d'). apply IH.
Qed.

Lemma deliverValues_Passed values f w :
  Passed (F_option (deliverValues values f w).1)
  = List.last values (Passed (F_option f)).
Proof.
  revert f w. induction values as [|value values IH]; intros f w; [reflexivity|].
  change (deliverValues (value :: values) f w)
    with (let '(f', w') := Flag_takeValue value f w in deliverValues values f' w').
  pose proof (Flag_takeValue_Passed value f w) as Hp.
  destruct (Flag_takeValue value f w) as [f1 w1]. simpl in Hp.
  rewrite IH, Hp. destruct values as [|value' values]; [reflexivity|].
  change (List.last (value :: value' :: values) (Passed (F_option f)))
    with (List.last (value' :: values) (Passed (F_option f))).
  apply last_nonempty.
Qed.

(** The token [-c], [c] the short name of a flag: [takeValue(true)]. *)
Lemma step_short_flag c a f tl v st :
  c ≠ "-"%char →
  paramsByShort st !! c = Some (FlagPtr a) →
  flag_mem st !! a = Some f →
  takesArg (F_option f) = false →
  expect_optarg v = false →
  step (String "-" (String c "")) tl v st
  = Continue v
      (setFlagMem st (<[a := (Flag_takeValue true f (world st)).1]> (flag_mem st))
         (Flag_takeValue true f (world st)).2).
Proof.
  intros Hc Hp Hm Ht Hv. unfold step. rewrite Hv. simpl.
  rewrite bool_decide_eq_false_2 by congruence.
  rewrite Hp. unfold passParameter.
  rewrite (takesArgument_flag _ _ _ Hm), Ht. simpl.
  now rewrite (takeValue_Some _ _ _ _ Hm).
Qed.

(** The token [+c], [c] the short name of a flag: [takeValue(false)]. *)
Lemma step_negated_flag c a f tl v st :
  paramsByShort st !! c = Some (FlagPtr a) →
  flag_mem st !! a = Some f →
  takesArg (F_option f) = false →
  expect_optarg v = false →
  step (String "+" (String c "")) tl v st
  = Continue v
      (setFlagMem st (<[a := (Flag_takeValue false f (world st)).1]> (flag_mem st))
         (Flag_takeValue false f (world st)).2).
Proof.
  intros Hp Hm Ht Hv. unfold step. rewrite Hv. simpl.
  rewrite Hp. unfold negateParameter.
  rewrite (takesArgument_flag _ _ _ Hm), Ht. simpl.
  now rewrite (takeValue_Some _ _ _ _ Hm).
Qed.

(** C5, as the code has it.  The count of a flag is a Go [int]: after any
    sequence of deliveries it is the number of true deliveries minus the number
    of false ones, added to the count before them and wrapped to 64 bits, and
    so that very number as long as it fits; the boolean state is the last
    value delivered.  Parsing [-c], for a short name [c] other than [-],
    delivers true (the count goes up by one), and parsing [+c] delivers false
    (the count goes down by one). *)
Theorem C5_flag_count_and_state c a f tl v st values :
  c ≠ "-"%char →
  paramsByShort st !! c = Some (FlagPtr a) →
  flag_mem st !! a = Some f →
  takesArg (F_option f) = false →
  expect_optarg v = false →
  - 2 ^ (intSize - 1) ≤ Count f < 2 ^ (intSize - 1) →
  let net := deliveries true values - deliveries false values in
  let f' := (deliverValues values f (world st)).1 in
  Count f' = wrapInt (Count f + net)
  ∧ (- 2 ^ (intSize - 1) ≤ Count f + net < 2 ^ (intSize - 1) →
     Count f' = Count f + net)
  ∧ Passed (F_option f') = List.last values (Passed (F_option f))
  ∧ step (String "-" (String c "")) tl v st
    = Continue v
        (setFlagMem st (<[a := (Flag_takeValue true f (world st)).1]> (flag_mem st))
           (Flag_takeValue true f (world st)).2)
  ∧ Count (Flag_takeValue true f (world st)).1 = wrapInt (Count f + 1)
  ∧ Passed (F_option (Flag_takeValue true f (world st)).1) = true
  ∧ step (String "+" (String c "")) tl v st
    = Continue v
        (setFlagMem st (<[a := (Flag_takeValue false f (world st)).1]> (flag_mem st))
           (Flag_takeValue false f (world st)).2)
  ∧ Count (Flag_takeValue false f (world st)).1 = wrapInt (Count f - 1)
  ∧ Passed (F_option (Flag_takeValue false f (world st)).1) = false.
Proof.
  intros Hc Hp Hm Ht Hv Hf net f'.
  assert (Hcount : Count f' = wrapInt (Count f + net))
    by (apply deliverValues_Count; exact Hf).
  split; [exact Hcount|].
  split; [intros Hnet; rewrite Hcount; now apply wrapInt_small|].
  split; [apply deliverValues_Passed|].
  split; [now apply step_short_flag|].
  split; [apply Flag_takeValue_Count|].
  split; [apply Flag_takeValue_Passed|].
  split; [now apply step_negated_flag|].
  split; [apply Flag_takeValue_Count|apply Flag_takeValue_Passed].
Qed.

(** ** Options: history and most recent value *)

Lemma Option_addOptArg_fields arg o w :
  OptArgs (Option_addOptArg arg o w).1 = OptArgs o ++ [arg]
  ∧ OptArg (Option_addOptArg arg o w).1 = arg
  ∧ Passed (O_option (Option_addOptArg arg o w).1) = true
  ∧ takesArg (O_option (Option_addOptArg arg o w).1) = takesArg (O_option o).
Proof. unfold Option_addOptArg. destruct (Action o); now repeat split. Qed.

Lemma deliverOptArgs_cons arg args o w :
  deliverOptArgs (arg :: args) o w
  = deliverOptArgs args (Option_addOptArg arg o w).1 (Option_addOptArg arg o w).2.
Proof. simpl. now destruct (Option_addOptArg arg o w). Qed.

Lemma deliverOptArgs_OptArgs args o w :
  OptArgs (deliverOptArgs args o w).1 = OptArgs o ++ args.
Proof.
  revert o w. induction args as [|arg args IH]; intros o w.
  - simpl. now rewrite app_nil_r.
  - rewrite deliverOptArgs_cons, IH.
    destruct (Option_addOptArg_fields arg o w) as (-> & _).
    now rewrite <- app_assoc.
Qed.

Lemma deliverOptArgs_last arg args o w :
  OptArg (deliverOptArgs (arg :: args) o w).1 = List.last (arg :: args) (OptArg o)
  ∧ Passed (O_option (deliverOptArgs (arg :: args) o w).1) = true.
Proof.
  revert arg o w. induction args as [|arg' args IH]; intros arg o w.
  - rewrite deliverOptArgs_cons. simpl.
    destruct (Option_addOptArg_fields arg o w) as (_ & -> & -> & _). now split.
  - rewrite deliverOptArgs_cons.
    destruct (IH arg' (Option_addOptArg arg o w).1 (Option_addOptArg arg o w).2)
      as [-> ->].
    split; [|reflexivity].
    change (List.last (arg :: arg' :: args) (OptArg o))
      with (List.last (arg' :: args) (OptArg o)).
    apply last_nonempty.
Qed.

(** C6.  Every value delivered to an option is appended to [OptArgs], in
    order and with its duplicates, and is then the value of [OptArg], and
    [Passed] is set: after the deliveries [arg :: args] the history is the old
    one followed by them, the most recent value is the last of them, the option
    was passed and its history is not empty.  For a new option, the
    deliveries [a] then [b] leave [OptArg = b] and [OptArgs = [a; b]]. *)
Theorem C6_option_history o w arg args s l h x y :
  let o' := (deliverOptArgs (arg :: args) o w).1 in
  let o2 := (deliverOptArgs [x; y] (newOptionObject s l h) w).1 in
  OptArgs o' = OptArgs o ++ arg :: args
  ∧ OptArg o' = List.last (arg :: args) arg
  ∧ Passed (O_option o') = true
  ∧ OptArgs o' ≠ []
  ∧ OptArgs (Option_addOptArg arg o w).1 = OptArgs o ++ [arg]
  ∧ OptArg (Option_addOptArg arg o w).1 = arg
  ∧ Passed (O_option (Option_addOptArg arg o w).1) = true
  ∧ OptArg o2 = y ∧ OptArgs o2 = [x; y] ∧ Passed (O_option o2) = true.
Proof.
  intros o' o2.
  destruct (deliverOptArgs_last arg args o w) as [Hlast Hpassed].
  destruct (Option_addOptArg_fields arg o w) as (H1 & H2 & H3 & _).
  split; [apply deliverOptArgs_OptArgs|].
  split; [subst o'; rewrite Hlast; apply last_nonempty|].
  split; [exact Hpassed|].
  split.
  { subst o'. rewrite deliverOptArgs_OptArgs. now destruct (OptArgs o). }
  now repeat split.
Qed.

(** ** The option awaiting its value *)

Lemma addOptArg_frame a arg st st' :
  addOptArg a arg st = Some st' →
  paramsByShort st' = paramsByShort st
  ∧ paramsByLong st' = paramsByLong st
  ∧ flag_mem st' = flag_mem st
  ∧ OnRestArg st' = OnRestArg st
  ∧ ∀ a', is_Some (option_mem st' !! a') ↔ is_Some (option_mem st !! a').
Proof.
  unfold addOptArg. destruct (option_mem st !! a) as [o|]; [|discriminate].
  destruct (Option_addOptArg arg o (world st)) as [o' w].
  intros [= <-]. repeat split; simpl; apply list_lookup_insert_is_Some.
Qed.

(** The loop variables never expect a value without an option to give it
    to: [waiting_opt] then points at an object of [option_mem]. *)
Lemma passParameter_awaits p v st v1 st1 :
  expect_optarg v = false →
  passParameter p v st = Continue v1 st1 →
  expect_optarg v1 = true →
  ∃ a, waiting_opt v1 = Some a ∧ is_Some (option_mem st1 !! a).
Proof.
  intros Hv. unfold passParameter.
  destruct (takesArgument st p) as [[|]|] eqn:Ht; [| |discriminate].
  - destruct p as [a|a]; simpl; [discriminate|].
    intros [= <- <-] _. exists a. split; [reflexivity|].
    simpl in Ht. destruct (option_mem st !! a); [eauto|discriminate].
  - destruct (assertFlag p) as [a|]; [|discriminate].
    destruct (takeValue a true st); [|discriminate].
    intros [= <- <-]. congruence.
Qed.

Lemma clump_awaits arg n j v st v1 st1 :
  (expect_optarg v = true →
   ∃ a, waiting_opt v = Some a ∧ is_Some (option_mem st !! a)) →
  clump arg n j v st = Continue v1 st1 →
  expect_optarg v1 = true →
  ∃ a, waiting_opt v1 = Some a ∧ is_Some (option_mem st1 !! a).
Proof.
  revert j v st. induction n as [|n IH]; intros j v st Hinv; simpl.
  - intros [= <- <-]. exact Hinv.
  - destruct (paramsByShort st !! byteAt arg j) as [p|]; [|discriminate].
    destruct (takesArgument st p) as [[|]|] eqn:Ht; [| |discriminate].
    + destruct p as [a|a]; simpl.
      { destruct (j <? len arg - 1)%nat; discriminate. }
      destruct (j <? len arg - 1)%nat.
      * destruct (addOptArg a (sliceFrom arg j) st) as [st'|] eqn:Ha; [|discriminate].
        intros [= <- <-] Hv. destruct (Hinv Hv) as (a' & Hw & Hs).
        exists a'. split; [exact Hw|].
        now apply (addOptArg_frame _ _ _ _ Ha).
      * apply IH. intros _. exists a. split; [reflexivity|].
        simpl in Ht. destruct (option_mem st !! a); [eauto|discriminate].
    + destruct (assertFlag p) as [a|]; [|discriminate].
      destruct (takeValue a true st) as [st'|] eqn:Ha; [|discriminate].
      apply IH. intros Hv. destruct (Hinv Hv) as (a' & Hw & Hs).
      exists a'. split; [exact Hw|].
      destruct (takeValue_frame _ _ _ _ Ha) as (_ & _ & -> & _). exact Hs.
Qed.

Lemma negateParameter_vars c p v st v1 st1 :
  negateParameter c p v st = Continue v1 st1 → v1 = v.
Proof.
  unfold negateParameter.
  destruct (takesArgument st p) as [[|]|]; [discriminate| |discriminate].
  destruct (assertFlag p) as [a|]; [|discriminate].
  destruct (takeValue a false st); [|discriminate].
  now intros [= <- <-].
Qed.

Lemma negateClump_vars arg n j v st v1 st1 :
  negateClump arg n j v st = Continue v1 st1 → v1 = v.
Proof.
  revert j v st. induction n as [|n IH]; intros j v st; simpl.
  - now intros [= <- <-].
  - destruct (paramsByShort st !! byteAt arg j) as [p|]; [|discriminate].
    destruct (negateParameter (byteAt arg j) p v st) as [v' st'| |] eqn:Hn;
      [|discriminate..].
    intros H. apply IH in H. apply negateParameter_vars in Hn. congruence.
Qed.

Lemma longOption_awaits arg v st v1 st1 :
  expect_optarg v = false →
  longOption arg v st = Continue v1 st1 →
  expect_optarg v1 = true →
  ∃ a, waiting_opt v1 = Some a ∧ is_Some (option_mem st1 !! a).
Proof.
  intros Hv. unfold longOption.
  destruct (IndexByte arg "=" <? 0).
  - destruct (paramsByLong st !! sliceFrom arg 2) as [p|]; [|discriminate].
    now apply passParameter_awaits.
  - destruct (paramsByLong st !! _) as [p|]; [|discriminate].
    destruct (takesArgument st p) as [[|]|]; [| |discriminate].
    + destruct (assertOption p) as [a|]; [|discriminate].
      destruct (addOptArg a _ st); [|discriminate].
      intros [= <- <-]. congruence.
    + destruct (parseFlagOpt _ _) as [b [err|]]; [discriminate|].
      destruct (assertFlag p) as [a|]; [|discriminate].
      destruct (takeValue a b st); [|discriminate].
      intros [= <- <-]. congruence.
Qed.

Lemma step_awaits arg tl v st v1 st1 :
  step arg tl v st = Continue v1 st1 →
  expect_optarg v1 = true →
  ∃ a, waiting_opt v1 = Some a ∧ is_Some (option_mem st1 !! a).
Proof.
  unfold step. destruct (expect_optarg v) eqn:Hv.
  { destruct (waiting_opt v) as [a|]; [|discriminate].
    destruct (addOptArg a arg st); [|discriminate].
    intros [= <- <-]. discriminate. }
  assert (Hrest : ∀ dash,
    (let '(r, st') := addRest (rest v) arg dash st in Continue (setRest v r) st')
    = Continue v1 st1 → expect_optarg v1 = true →
    ∃ a, waiting_opt v1 = Some a ∧ is_Some (option_mem st1 !! a)).
  { intros dash. destruct (addRest (rest v) arg dash st) as [r st'].
    intros [= <- <-]. simpl. congruence. }
  destruct (len arg) as [|[|[|n]]].
  - intros [= <- <-]. congruence.
  - apply Hrest.
  - destruct (bool_decide (arg = "--")).
    { destruct (addRestAfterDashes (rest v) tl st). discriminate. }
    destruct (bool_decide (byteAt arg 0 = "-"%char)).
    { destruct (paramsByShort st !! byteAt arg 1) as [p|]; [|discriminate].
      now apply passParameter_awaits. }
    destruct (bool_decide (byteAt arg 0 = "+"%char)); [|apply Hrest].
    destruct (paramsByShort st !! byteAt arg 1) as [p|]; [|discriminate].
    intros H. apply negateParameter_vars in H. congruence.
  - destruct (bool_decide (byteAt arg 0 = "-"%char)).
    { destruct (bool_decide (byteAt arg 1 = "-"%char)).
      - now apply longOption_awaits.
      - apply clump_awaits. congruence. }
    destruct (bool_decide (byteAt arg 0 = "+"%char)); [|apply Hrest].
    intros H. apply negateClump_vars in H. congruence.
Qed.

(** C3.  When the token before left an option awaiting its value (the loop
    goes on with [expect_optarg] set), [waiting_opt] is one option of the
    registry, and the round for the current token, whatever it is (empty, [--],
    or shaped like an option), does nothing but deliver the whole token to
    that option and stop expecting a value: [rest] is as it was and no other
    rule looks at the token. *)
Theorem C3_awaited_value_is_the_next_token prev tl0 v st v1 st1 :
  step prev tl0 v st = Continue v1 st1 →
  expect_optarg v1 = true →
  ∃ a o,
    waiting_opt v1 = Some a
    ∧ option_mem st1 !! a = Some o
    ∧ ∀ arg tl,
        step arg tl v1 st1
        = Continue {| rest := rest v1; expect_optarg := false;
                      waiting_opt := Some a |}
            (setOptionMem st1
               (<[a := (Option_addOptArg arg o (world st1)).1]> (option_mem st1))
               (Option_addOptArg arg o (world st1)).2).
Proof.
  intros Hstep Hv1.
  destruct (step_awaits _ _ _ _ _ _ Hstep Hv1) as (a & Hw & [o Ho]).
  exists a, o. split; [exact Hw|]. split; [exact Ho|].
  intros arg tl. unfold step. rewrite Hv1, Hw.
  now rewrite (addOptArg_Some _ _ _ _ Ho).
Qed.

(** ** The end of the input *)

(** The token [-c], [c] the short name of an option: the option awaits its
    value, and nothing else changes. *)
Lemma step_short_option c tl v st :
  c ≠ "-"%char →
  shortIsOption st c →
  expect_optarg v = false →
  ∃ a, paramsByShort st !! c = Some (OptionPtr a)
       ∧ step (String "-" (String c "")) tl v st
         = Continue {| rest := rest v; expect_optarg := true;
                       waiting_opt := Some a |} st.
Proof.
  intros Hc (a & o & Hp & Hm & Ht) Hv. exists a. split; [exact Hp|].
  unfold step. rewrite Hv. simpl.
  rewrite bool_decide_eq_false_2 by congruence.
  rewrite Hp. unfold passParameter.
  now rewrite (takesArgument_option _ _ _ Hm), Ht.
Qed.

(** A round that goes on with the loop has not looked at the later tokens. *)
Lemma step_continue_tl arg tl v st v1 st1 :
  step arg tl v st = Continue v1 st1 →
  ∀ tl', step arg tl' v st = Continue v1 st1.
Proof.
  unfold step. intros H tl'.
  destruct (expect_optarg v); [exact H|].
  destruct (len arg) as [|[|[|n]]]; try exact H.
  destruct (bool_decide (arg = "--")); [|exact H].
  destruct (addRestAfterDashes (rest v) tl st). discriminate.
Qed.

(** A token that leaves an option awaiting its value has not touched the
    options, nor [rest]. *)
Lemma clump_tail_frame arg n j v st v1 st1 :
  (len arg - 1 ≤ j)%nat →
  clump arg n j v st = Continue v1 st1 →
  option_mem st1 = option_mem st ∧ rest v1 = rest v.
Proof.
  revert j v st. induction n as [|n IH]; intros j v st Hj; simpl.
  - now intros [= <- <-].
  - destruct (paramsByShort st !! byteAt arg j) as [p|]; [|discriminate].
    destruct (takesArgument st p) as [[|]|]; [| |discriminate].
    + replace (j <? len arg - 1)%nat with false by (symmetry; apply Nat.ltb_ge; lia).
      destruct (assertOption p) as [a|]; [|discriminate].
      intros H. apply IH in H; [exact H|lia].
    + destruct (assertFlag p) as [a|]; [|discriminate].
      destruct (takeValue a true st) as [st'|] eqn:Ha; [|discriminate].
      intros H. apply IH in H as [-> ->]; [|lia].
      now destruct (takeValue_frame _ _ _ _ Ha) as (_ & _ & -> & _).
Qed.

Lemma clump_awaits_frame arg n j v st v1 st1 :
  expect_optarg v = false →
  clump arg n j v st = Continue v1 st1 →
  expect_optarg v1 = true →
  option_mem st1 = option_mem st ∧ rest v1 = rest v.
Proof.
  revert j v st. induction n as [|n IH]; intros j v st Hv; simpl.
  - intros [= <- <-]. congruence.
  - destruct (paramsByShort st !! byteAt arg j) as [p|]; [|discriminate].
    destruct (takesArgument st p) as [[|]|]; [| |discriminate].
    + destruct (Nat.ltb_spec j (len arg - 1)) as [Hj|Hj].
      * destruct (assertOption p) as [a|]; [|discriminate].
        destruct (addOptArg a (sliceFrom arg j) st); [|discriminate].
        intros [= <- <-]. congruence.
      * destruct (assertOption p) as [a|]; [|discriminate].
        intros H _. apply clump_tail_frame in H; [exact H|lia].
    + destruct (assertFlag p) as [a|]; [|discriminate].
      destruct (takeValue a true st) as [st'|] eqn:Ha; [|discriminate].
      intros H H1. destruct (IH _ _ _ Hv H H1) as [-> ->].
      now destruct (takeValue_frame _ _ _ _ Ha) as (_ & _ & -> & _).
Qed.

Lemma passParameter_awaits_frame p v st v1 st1 :
  expect_optarg v = false →
  passParameter p v st = Continue v1 st1 →
  expect_optarg v1 = true →
  option_mem st1 = option_mem st ∧ rest v1 = rest v.
Proof.
  intros Hv. unfold passParameter.
  destruct (takesArgument st p) as [[|]|]; [| |discriminate].
  - destruct (assertOption p) as [a|]; [|discriminate].
    now intros [= <- <-].
  - destruct (assertFlag p) as [a|]; [|discriminate].
    destruct (takeValue a true st); [|discriminate].
    intros [= <- <-]. congruence.
Qed.

Lemma step_awaits_frame arg tl v st v1 st1 :
  step arg tl v st = Continue v1 st1 →
  expect_optarg v1 = true →
  option_mem st1 = option_mem st ∧ rest v1 = rest v.
Proof.
  unfold step. destruct (expect_optarg v) eqn:Hv.
  { destruct (waiting_opt v) as [a|]; [|discriminate].
    destruct (addOptArg a arg st); [|discriminate].
    intros [= <- <-]. discriminate. }
  assert (Hrest : ∀ dash,
    (let '(r, st') := addRest (rest v) arg dash st in Continue (setRest v r) st')
    = Continue v1 st1 → expect_optarg v1 = true →
    option_mem st1 = option_mem st ∧ rest v1 = rest v).
  { intros dash. destruct (addRest (rest v) arg dash st) as [r st'].
    intros [= <- <-]. simpl. congruence. }
  destruct (len arg) as [|[|[|n]]].
  - intros [= <- <-]. congruence.
  - apply Hrest.
  - destruct (bool_decide (arg = "--")).
    { destruct (addRestAfterDashes (rest v) tl st). discriminate. }
    destruct (bool_decide (byteAt arg 0 = "-"%char)).
    { destruct (paramsByShort st !! byteAt arg 1) as [p|]; [|discriminate].
      now apply passParameter_awaits_frame. }
    destruct (bool_decide (byteAt arg 0 = "+"%char)); [|apply Hrest].
    destruct (paramsByShort st !! byteAt arg 1) as [p|]; [|discriminate].
    intros H. apply negateParameter_vars in H. congruence.
  - destruct (bool_decide (byteAt arg 0 = "-"%char)).
    { destruct (bool_decide (byteAt arg 1 = "-"%char)).
      - unfold longOption. destruct (IndexByte arg "=" <? 0).
        + destruct (paramsByLong st !! sliceFrom arg 2) as [p|]; [|discriminate].
          now apply passParameter_awaits_frame.
        + destruct (paramsByLong st !! _) as [p|]; [|discriminate].
          destruct (takesArgument st p) as [[|]|]; [| |discriminate].
          * destruct (assertOption p) as [a'|]; [|discriminate].
            destruct (addOptArg a' _ st); [|discriminate].
            intros [= <- <-]. congruence.
          * destruct (parseFlagOpt _ _) as [b [err|]]; [discriminate|].
            destruct (assertFlag p) as [a'|]; [|discriminate].
            destruct (takeValue a' b st); [|discriminate].
            intros [= <- <-]. congruence.
      - now apply clump_awaits_frame. }
    destruct (bool_decide (byteAt arg 0 = "+"%char)); [|apply Hrest].
    intros H. apply negateClump_vars in H. congruence.
Qed.

(** The rounds that go on do not depend on the tokens after them. *)
Lemma loopVarsAfter_loop pre tl v st v0 st0 :
  loopVarsAfter pre v st = Some (v0, st0) →
  loop (pre ++ tl) v st = loop tl v0 st0.
Proof.
  revert v st. induction pre as [|arg pre IH]; intros v st.
  - now intros [= <- <-].
  - change ((arg :: pre) ++ tl) with (arg :: (pre ++ tl)). cbn [loopVarsAfter loop].
    destruct (step arg pre v st) as [v' st'| |] eqn:Hstep; [|discriminate..].
    rewrite (step_continue_tl _ _ _ _ _ _ Hstep (pre ++ tl)). apply IH.
Qed.

(** C9.  When the input ends with a token [last] that leaves an option
    awaiting its value, after any tokens [pre], [ArgParse] returns with no
    error the [rest] made before [last], and the final state is the one [last]
    left: the awaited option is one of the registry and it has received
    nothing, its object ([OptArgs], [OptArg], [Passed]) is what it was before
    [last], as are all the options. *)
Theorem C9_input_ends_awaiting_value prog pre last st v0 st0 v1 st1 :
  loopVarsAfter pre initVars st = Some (v0, st0) →
  step last [] v0 st0 = Continue v1 st1 →
  expect_optarg v1 = true →
  ArgParse (prog :: pre ++ [last]) st = Return (rest v0) None st1
  ∧ option_mem st1 = option_mem st0
  ∧ ∃ a o, waiting_opt v1 = Some a
           ∧ option_mem st0 !! a = Some o
           ∧ option_mem st1 !! a = Some o.
Proof.
  intros Hpre Hlast Hv1.
  destruct (step_awaits_frame _ _ _ _ _ _ Hlast Hv1) as [Hmem Hrest].
  destruct (step_awaits _ _ _ _ _ _ Hlast Hv1) as (a & Hw & [o Ho]).
  split; [|split; [exact Hmem|]].
  - unfold ArgParse. change (drop 1 (prog :: pre ++ [last])) with (pre ++ [last]).
    rewrite (loopVarsAfter_loop pre [last] _ _ _ _ Hpre).
    cbn [loop]. rewrite Hlast. now rewrite Hrest.
  - exists a, o. rewrite <- Hmem. now repeat split.
Qed.

(** ** Positional arguments and the terminator *)

Lemma setWorld_world st : setWorld st (world st) = st.
Proof. now destruct st. Qed.

Lemma offerRest_None dash args w :
  offerRest None dash args w
  = (map (fun arg => {| Argument := arg; AfterDashes := dash |}) args, w).
Proof.
  induction args as [|arg args IH]; [reflexivity|].
  simpl. now rewrite IH.
Qed.

(** [addRest] is one offer to [OnRestArg]. *)
Lemma addRest_offerRest r arg dash st :
  addRest r arg dash st
  = (r ++ (offerRest (OnRestArg st) dash [arg] (world st)).1,
     setWorld st (offerRest (OnRestArg st) dash [arg] (world st)).2).
Proof.
  unfold addRest. simpl. destruct (OnRestArg st) as [cb|].
  - destruct (cb arg dash (world st)) as [[|] w1]; simpl; [reflexivity|].
    now rewrite app_nil_r.
  - simpl. now rewrite setWorld_world.
Qed.

Lemma offerRest_cons cb dash arg args w :
  offerRest cb dash (arg :: args) w
  = ((offerRest cb dash [arg] w).1
       ++ (offerRest cb dash args (offerRest cb dash [arg] w).2).1,
     (offerRest cb dash args (offerRest cb dash [arg] w).2).2).
Proof.
  simpl. destruct cb as [cb|].
  - destruct (cb arg dash w) as [[|] w1]; simpl;
      now destruct (offerRest (Some cb) dash args w1).
  - simpl. now destruct (offerRest None dash args w).
Qed.

Lemma addRestAfterDashes_offerRest r args st :
  addRestAfterDashes r args st
  = (r ++ (offerRest (OnRestArg st) true args (world st)).1,
     setWorld st (offerRest (OnRestArg st) true args (world st)).2).
Proof.
  revert r st. induction args as [|arg args IH]; intros r st.
  - simpl. now rewrite app_nil_r, setWorld_world.
  - simpl addRestAfterDashes. rewrite addRest_offerRest, IH.
    rewrite (offerRest_cons _ _ arg args). simpl fst. simpl snd.
    now rewrite <- app_assoc.
Qed.

(** The round for the terminator. *)
Lemma step_terminator tl v st :
  expect_optarg v = false →
  step "--" tl v st
  = Return (rest v ++ (offerRest (OnRestArg st) true tl (world st)).1) None
      (setWorld st (offerRest (OnRestArg st) true tl (world st)).2).
Proof.
  intros Hv. unfold step. rewrite Hv. simpl.
  now rewrite addRestAfterDashes_offerRest.
Qed.

(** C2, as the code has it.  At the token [--], met while no option awaits a
    value, every later token is offered to [addRest] with [AfterDashes =
    true], in the order of the input: with no [OnRestArg] each of them is
    appended to [rest], with an [OnRestArg] those it returns [true] for.
    [ArgParse] then returns with no error, and the registry (maps, flags and
    options) is as it was at the terminator: none of these tokens is looked
    up, whatever its shape. *)
Theorem C2_terminator_hands_the_rest_to_addRest tl v st :
  expect_optarg v = false →
  let kept := offerRest (OnRestArg st) true tl (world st) in
  loop ("--" :: tl) v st = Return (rest v ++ kept.1) None (setWorld st kept.2)
  ∧ offerRest None true tl (world st)
    = (map (fun arg => {| Argument := arg; AfterDashes := true |}) tl, world st)
  ∧ flag_mem (setWorld st kept.2) = flag_mem st
  ∧ option_mem (setWorld st kept.2) = option_mem st
  ∧ paramsByShort (setWorld st kept.2) = paramsByShort st
  ∧ paramsByLong (setWorld st kept.2) = paramsByLong st.
Proof.
  intros Hv kept. split.
  - unfold loop. now rewrite (step_terminator tl v st Hv).
  - split; [apply offerRest_None|]. now repeat split.
Qed.

Lemma positional_step arg tl v st :
  positional arg = true →
  expect_optarg v = false →
  step arg tl v st
  = Continue (setRest v (rest v ++ (offerRest (OnRestArg st) false [arg] (world st)).1))
      (setWorld st (offerRest (OnRestArg st) false [arg] (world st)).2).
Proof.
  intros Hp Hv. unfold step. rewrite Hv.
  destruct arg as [|c0 [|c1 [|c2 arg]]]; [discriminate|..].
  - simpl len. cbv iota. now rewrite addRest_offerRest.
  - simpl in Hp. apply andb_prop in Hp as [H1 H2].
    apply negb_true_iff in H1, H2.
    simpl len. cbv iota. simpl byteAt.
    rewrite (bool_decide_eq_false_2 (String c0 (String c1 "") = "--")).
    2:{ intros [= -> ->]. discriminate. }
    rewrite H1, H2. now rewrite addRest_offerRest.
  - simpl in Hp. apply andb_prop in Hp as [H1 H2].
    apply negb_true_iff in H1, H2.
    simpl len. cbv iota. simpl byteAt.
    rewrite H1, H2. now rewrite addRest_offerRest.
Qed.

Lemma loop_positionals pre tl v st :
  Forall (fun arg => positional arg = true) pre →
  expect_optarg v = false →
  loop (pre ++ tl) v st
  = loop tl
      (setRest v (rest v ++ (offerRest (OnRestArg st) false pre (world st)).1))
      (setWorld st (offerRest (OnRestArg st) false pre (world st)).2).
Proof.
  intros Hpre. revert v st. induction Hpre as [|arg pre Harg _ IH]; intros v st Hv.
  - simpl. rewrite app_nil_r, setWorld_world. now destruct v.
  - change ((arg :: pre) ++ tl) with (arg :: (pre ++ tl)).
    rewrite (offerRest_cons _ _ arg pre).
    cbn [loop]. rewrite (positional_step arg _ v st Harg Hv).
    rewrite IH by exact Hv. cbn [fst snd rest setRest world OnRestArg setWorld].
    now rewrite <- app_assoc.
Qed.

(** C10.  [addRest] appends the entry when [OnRestArg] is nil; otherwise it
    calls [OnRestArg] once, with the argument and its tag, and appends the
    entry only when the call returns [true].  In a parse whose tokens [pre]
    are positional arguments, followed or not by the terminator and the tokens
    [post], each token of [pre] is offered once with the tag [false] and each
    token of [post] once with the tag [true], in order; the [rest] returned
    holds the entries kept, which with no [OnRestArg] are all of them. *)
Theorem C10_rest_goes_through_OnRestArg pre post r arg dash v st :
  Forall (fun arg => positional arg = true) pre →
  expect_optarg v = false →
  let before := offerRest (OnRestArg st) false pre (world st) in
  let after := offerRest (OnRestArg st) true post before.2 in
  match OnRestArg st with
  | None =>
      addRest r arg dash st
      = (r ++ [{| Argument := arg; AfterDashes := dash |}], st)
      ∧ before.1 = map (fun arg => {| Argument := arg; AfterDashes := false |}) pre
      ∧ after.1 = map (fun arg => {| Argument := arg; AfterDashes := true |}) post
  | Some callback =>
      addRest r arg dash st
      = (if (callback arg dash (world st)).1
         then r ++ [{| Argument := arg; AfterDashes := dash |}] else r,
         setWorld st (callback arg dash (world st)).2)
  end
  ∧ loop pre v st = Return (rest v ++ before.1) None (setWorld st before.2)
  ∧ loop (pre ++ "--" :: post) v st
    = Return (rest v ++ before.1 ++ after.1) None (setWorld st after.2).
Proof.
  intros Hpre Hv before after. split; [|split].
  - subst after before. unfold addRest.
    destruct (OnRestArg st) as [cb|].
    + now destruct (cb arg dash (world st)) as [[|] w1].
    + rewrite !offerRest_None. now repeat split.
  - rewrite <- (app_nil_r pre) at 1.
    rewrite (loop_positionals pre [] v st Hpre Hv). reflexivity.
  - rewrite (loop_positionals pre _ v st Hpre Hv).
    unfold loop. rewrite step_terminator by exact Hv.
    simpl. now rewrite <- app_assoc.
Qed.

(** ** Negation *)

Lemma deliverShorts_append value pre cs st :
  allShortFlags st pre →
  deliverShorts value (pre +:+ cs) st
  = deliverShorts value cs (deliverShorts value pre st)
  ∧ (∀ c, shortIsFlag st c → shortIsFlag (deliverShorts value pre st) c)
  ∧ (∀ c, shortIsOption st c → shortIsOption (deliverShorts value pre st) c)
  ∧ (∀ c, paramsByShort st !! c = None →
          paramsByShort (deliverShorts value pre st) !! c = None).
Proof.
  revert st. induction pre as [|c pre IH]; intros st Hpre.
  - rewrite append_empty. now repeat split.
  - destruct Hpre as [(a & f & Hp & Hm & Ht) Hpre].
    rewrite append_cons. simpl. rewrite Hp.
    destruct (takeValue a value st) as [st'|] eqn:Ha.
    2:{ rewrite (takeValue_Some _ _ _ _ Hm) in Ha. discriminate. }
    destruct (IH st' (takeValue_allShortFlags _ _ _ _ _ Ha Hpre))
      as (H1 & H2 & H3 & H4).
    split; [exact H1|]. split; [|split].
    + intros c' Hc'. apply H2. eapply takeValue_shortIsFlag; eauto.
    + intros c' Hc'. apply H3. eapply takeValue_shortIsOption; eauto.
    + intros c' Hc'. apply H4. eapply takeValue_short_None; eauto.
Qed.

(** The negated loop over the short names of flags sets each of them false
    and goes on. *)
Lemma negateClump_flags cs arg j v st :
  sliceFrom arg j = cs →
  allShortFlags st cs →
  negateClump arg (len cs) j v st = Continue v (deliverShorts false cs st).
Proof.
  revert j st. induction cs as [|c cs IH]; intros j st Hs Hcs; [reflexivity|].
  destruct (sliceFrom_cons _ _ _ _ Hs) as [Hb Hs'].
  destruct Hcs as [(a & f & Hp & Hm & Ht) Hcs].
  change (len (String c cs)) with (S (len cs)).
  simpl. rewrite Hb, Hp. unfold negateParameter.
  rewrite (takesArgument_flag _ _ _ Hm), Ht. simpl assertFlag. cbv iota.
  destruct (takeValue a false st) as [st'|] eqn:Ha.
  2:{ rewrite (takeValue_Some _ _ _ _ Hm) in Ha. discriminate. }
  apply IH; [exact Hs'|]. eapply takeValue_allShortFlags; eauto.
Qed.

(** The negated loop stops at the first short name that is an option, or that
    is not registered, whatever follows it. *)
Lemma negateClump_stops arg j c suf n v st :
  sliceFrom arg j = String c suf →
  (shortIsOption st c →
   negateClump arg (S n) j v st
   = Return (rest v) (Some (Errorf_c errTriedToNegateOptArg c)) st)
  ∧ (paramsByShort st !! c = None →
     negateClump arg (S n) j v st
     = Return (rest v) (Some (Errorf_c errUnrecognizedShort c)) st).
Proof.
  intros Hs. destruct (sliceFrom_cons _ _ _ _ Hs) as [Hb _]. split.
  - intros (a & o & Hp & Hm & Ht). simpl. rewrite Hb, Hp.
    unfold negateParameter. now rewrite (takesArgument_option _ _ _ Hm), Ht.
  - intros Hp. simpl. now rewrite Hb, Hp.
Qed.

Lemma negateClump_append pre cs arg j v st :
  sliceFrom arg j = pre +:+ cs →
  allShortFlags st pre →
  negateClump arg (len pre + len cs) j v st
  = negateClump arg (len cs) (len pre + j) v (deliverShorts false pre st).
Proof.
  revert j st. induction pre as [|c pre IH]; intros j st Hs Hpre; [reflexivity|].
  rewrite append_cons in Hs.
  destruct (sliceFrom_cons _ _ _ _ Hs) as [Hb Hs'].
  destruct Hpre as [(a & f & Hp & Hm & Ht) Hpre].
  change (len (String c pre)) with (S (len pre)).
  simpl. rewrite Hb, Hp. unfold negateParameter.
  rewrite (takesArgument_flag _ _ _ Hm), Ht. simpl assertFlag. cbv iota.
  destruct (takeValue a false st) as [st'|] eqn:Ha.
  2:{ rewrite (takeValue_Some _ _ _ _ Hm) in Ha. discriminate. }
  rewrite (IH (S j) st' Hs' (takeValue_allShortFlags _ _ _ _ _ Ha Hpre)).
  f_equal. lia.
Qed.

(** A token [+cs], [cs] not empty, is scanned by the negated loop; for a
    token of two bytes the source has the one round written out. *)
Lemma step_negation c cs tl v st :
  expect_optarg v = false →
  step (String "+" (String c cs)) tl v st
  = negateClump (String "+" (String c cs)) (S (len cs)) 1 v st.
Proof.
  intros Hv. unfold step. rewrite Hv. destruct cs as [|c' cs].
  - simpl. destruct (paramsByShort st !! c) as [p|]; [|reflexivity].
    now destruct (negateParameter c p v st).
  - reflexivity.
Qed.

(** C8.  In a token [+cs], scanned from left to right while no option awaits
    a value, every byte that is the short name of a flag delivers [false] to
    it.  Let [pre] be short names of flags and [c] the byte after them: if
    [c] is the short name of an option the parse fails with
    [errTriedToNegateOptArg] naming [c], and if [c] is not registered it fails
    with [errUnrecognizedShort] naming [c]; in both cases the flags of [pre]
    have been set false, and neither the bytes [suf] after [c] nor the tokens
    [tl] after this one are looked at.  If [c] and all of [suf] are short
    names of flags too, all are set false and the parse goes on. *)
Theorem C8_negation pre c suf tl v st :
  expect_optarg v = false →
  allShortFlags st pre →
  let token := String "+" (pre +:+ String c suf) in
  (shortIsOption st c →
   loop (token :: tl) v st
   = Return (rest v) (Some (Errorf_c errTriedToNegateOptArg c))
       (deliverShorts false pre st))
  ∧ (paramsByShort st !! c = None →
     loop (token :: tl) v st
     = Return (rest v) (Some (Errorf_c errUnrecognizedShort c))
         (deliverShorts false pre st))
  ∧ (allShortFlags st (String c suf) →
     loop (token :: tl) v st
     = loop tl v (deliverShorts false (pre +:+ String c suf) st)).
Proof.
  intros Hv Hpre token.
  assert (Hstep : step token tl v st
                  = negateClump token (len pre + S (len suf)) 1 v st).
  { subst token. destruct pre as [|c0 pre].
    - rewrite append_empty. now rewrite step_negation.
    - rewrite append_cons, step_negation by exact Hv.
      f_equal. rewrite len_append. reflexivity. }
  assert (Hs : sliceFrom token 1 = pre +:+ String c suf) by reflexivity.
  pose proof (negateClump_append pre (String c suf) token 1 v st Hs Hpre) as Happ.
  change (len (String c suf)) with (S (len suf)) in Happ.
  destruct (deliverShorts_append false pre (String c suf) st Hpre)
    as (Hd & _ & Ho & Hn).
  assert (Hs' : sliceFrom token (len pre + 1) = String c suf).
  { subst token. replace (len pre + 1)%nat with (S (len pre)) by lia.
    simpl. apply sliceFrom_append. }
  destruct (negateClump_stops token (len pre + 1) c suf (len suf) v
              (deliverShorts false pre st) Hs') as [Hopt Hnone].
  split; [|split].
  - intros Hc. cbn [loop]. rewrite Hstep, Happ. now rewrite Hopt by auto.
  - intros Hc. cbn [loop]. rewrite Hstep, Happ. now rewrite Hnone by auto.
  - intros Hc. cbn [loop]. rewrite Hstep.
    assert (Hall : allShortFlags st (pre +:+ String c suf)).
    { clear -Hpre Hc. induction pre as [|c0 pre IH]; [exact Hc|].
      rewrite append_cons. destruct Hpre as [H0 Hpre]. split; auto. }
    replace (len pre + S (len suf))%nat with (len (pre +:+ String c suf))
      by (rewrite len_append; reflexivity).
    now rewrite (negateClump_flags _ token 1 v st Hs Hall).
Qed.

(** ** [strings.EqualFold]: the bounded loops

    [foldOrbit] and [runesFrom] count their rounds down; the bounds they are
    given are never what stops them. *)

(** Every orbit of [SimpleFold] closes within three steps. *)
Lemma SimpleFold_orbit (r : Z) :
  SimpleFold r = r
  ∨ SimpleFold (SimpleFold r) = r
  ∨ SimpleFold (SimpleFold (SimpleFold r)) = r.
Proof.
  destruct (Z.eq_dec r 0x4B) as [->|]; [right; right; reflexivity|].
  destruct (Z.eq_dec r 0x6B) as [->|]; [right; right; reflexivity|].
  destruct (Z.eq_dec r 0x212A) as [->|]; [right; right; reflexivity|].
  destruct (Z.eq_dec r 0x53) as [->|]; [right; right; reflexivity|].
  destruct (Z.eq_dec r 0x73) as [->|]; [right; right; reflexivity|].
  destruct (Z.eq_dec r 0x17F) as [->|]; [right; right; reflexivity|].
  assert (Hr : ∀ x, x ≠ 0x4B → x ≠ 0x6B → x ≠ 0x212A → x ≠ 0x53 → x ≠ 0x73 →
               x ≠ 0x17F →
               SimpleFold x = if inRange x 0x41 0x5A then x + 0x20
                              else if inRange x 0x61 0x7A then x - 0x20 else x).
  { intros x H1 H2 H3 H4 H5 H6. unfold SimpleFold.
    repeat match goal with
           | |- context [?a =? ?b] => destruct (Z.eqb_spec a b); [lia|]
           end. reflexivity. }
  assert (Hin : ∀ x lo hi, inRange x lo hi = true ↔ lo ≤ x ≤ hi).
  { intros x lo hi. unfold inRange. rewrite andb_true_iff, !Z.leb_le. tauto. }
  rewrite (Hr r) by assumption.
  destruct (inRange r 0x41 0x5A) eqn:E1.
  { apply Hin in E1. right. left. rewrite Hr by lia.
    replace (inRange (r + 0x20) 0x41 0x5A) with false
      by (symmetry; apply not_true_is_false; rewrite Hin; lia).
    replace (inRange (r + 0x20) 0x61 0x7A) with true
      by (symmetry; apply Hin; lia).
    lia. }
  destruct (inRange r 0x61 0x7A) eqn:E2; [|now left].
  apply Hin in E2. right. left. rewrite Hr by lia.
  replace (inRange (r - 0x20) 0x41 0x5A) with true by (symmetry; apply Hin; lia).
  lia.
Qed.

(** The search through the orbit has ended within [orbitFuel] rounds. *)
Lemma foldOrbit_exits (sr tr : Z) :
  let r := foldOrbit orbitFuel sr tr (SimpleFold sr) in
  r = sr ∨ tr ≤ r.
Proof.
  unfold orbitFuel. cbn [foldOrbit].
  destruct (SimpleFold_orbit sr) as [H|[H|H]].
  - rewrite H, Z.eqb_refl. now left.
  - destruct (Z.eqb_spec (SimpleFold sr) sr); [now left|]. cbn [negb andb].
    destruct (Z.ltb_spec (SimpleFold sr) tr); [|now right].
    rewrite H, Z.eqb_refl. now left.
  - destruct (Z.eqb_spec (SimpleFold sr) sr); [now left|]. cbn [negb andb].
    destruct (Z.ltb_spec (SimpleFold sr) tr); [|now right].
    destruct (Z.eqb_spec (SimpleFold (SimpleFold sr)) sr); [now left|].
    cbn [negb andb].
    destruct (Z.ltb_spec (SimpleFold (SimpleFold sr)) tr); [|now right].
    rewrite H, Z.eqb_refl. now left.
Qed.

Lemma DecodeRuneInString_size (c : ascii) (s : string) :
  let size := (DecodeRuneInString (String c s)).2 in
  (1 ≤ size ≤ len (String c s))%nat.
Proof.
  unfold DecodeRuneInString. change (len (String c s)) with (S (len s)).
  destruct (byteZ c <? RuneSelf); [simpl; lia|].
  destruct (inRange (byteZ c) 194 223).
  { destruct s as [|c1 s]; [simpl; lia|].
    destruct (inRange (byteZ c1) 128 191); simpl; unfold len; simpl; lia. }
  destruct (inRange (byteZ c) 224 239).
  { destruct s as [|c1 [|c2 s]]; try (simpl; lia).
    match goal with |- context [if ?b then _ else _] => destruct b end;
      simpl; unfold len; simpl; lia. }
  destruct (inRange (byteZ c) 240 244); [|simpl; lia].
  destruct s as [|c1 [|c2 [|c3 s]]]; try (simpl; lia).
  match goal with |- context [if ?b then _ else _] => destruct b end;
    simpl; unfold len; simpl; lia.
Qed.

Lemma len_sliceFrom (s : string) (n : nat) :
  (n ≤ len s)%nat → len (sliceFrom s n) = (len s - n)%nat.
Proof.
  revert s. induction n as [|n IH]; intros s H; [simpl; lia|].
  destruct s as [|c s]; [simpl in H; lia|].
  change (len (String c s)) with (S (len s)) in *. simpl. rewrite IH; lia.
Qed.

(** More rounds than [len s] decode no more runes: [runes] has enough. *)
Lemma runesFrom_enough (n : nat) (s : string) :
  (len s ≤ n)%nat → runesFrom n s = runes s.
Proof.
  unfold runes. remember (len s) as m eqn:Hm. revert n s Hm.
  induction m as [m IH] using lt_wf_ind. intros n s Hm Hn.
  destruct s as [|c s].
  { subst m. destruct n; reflexivity. }
  change (len (String c s)) with (S (len s)) in Hm. subst m.
  destruct n as [|n]; [lia|]. cbn [runesFrom].
  pose proof (DecodeRuneInString_size c s) as Hsize. cbn zeta in Hsize.
  destruct (DecodeRuneInString (String c s)) as [r size]. cbn [snd] in Hsize.
  change (len (String c s)) with (S (len s)) in Hsize.
  f_equal.
  assert (Hl : len (sliceFrom (String c s) size) = (S (len s) - size)%nat)
    by (apply len_sliceFrom; change (len (String c s)) with (S (len s)); lia).
  rewrite (IH (len (sliceFrom (String c s) size)) ltac:(lia) n _ eq_refl ltac:(lia)).
  rewrite (IH (len (sliceFrom (String c s) size)) ltac:(lia) (len s) _ eq_refl ltac:(lia)).
  reflexivity.
Qed.

(** ** [--name=value] *)

(** Comparing with a literal that starts with one of [f n t y]: the orbit of
    such a letter is the letter and its capital, so the first rune of the
    other side is one of the two. *)
Lemma foldOrbit_plainLetter (x r : Z) :
  plainLetter x → x < r → foldOrbit orbitFuel x r (SimpleFold x) = x.
Proof.
  intros Hx Hr. unfold orbitFuel.
  destruct Hx as [-> | [-> | [-> | ->]]];
    match goal with
    | |- context [SimpleFold ?n] =>
        let u := eval vm_compute in (SimpleFold n) in
        change (SimpleFold n) with u; cbn [foldOrbit];
        replace (u <? r) with true by (symmetry; apply Z.ltb_lt; lia);
        change (SimpleFold u) with n
    end; reflexivity.
Qed.

Lemma asciiCasePair_plainLetter (x r : Z) :
  plainLetter x →
  (asciiCasePair x r = false)
  ∧ (asciiCasePair r x = true → r = x - 32).
Proof.
  intros Hx. unfold asciiCasePair. split.
  - destruct Hx as [-> | [-> | [-> | ->]]]; reflexivity.
  - intros H. apply andb_prop in H as [_ H]. apply Z.eqb_eq in H. lia.
Qed.

Lemma EqualFold_first_rune (s t' : string) (tc : ascii) :
  plainLetter (byteZ tc) →
  EqualFold s (String tc t') = true →
  (DecodeRuneInString s).1 = byteZ tc ∨ (DecodeRuneInString s).1 = byteZ tc - 32.
Proof.
  intros Htc. destruct s as [|sc s']; [discriminate|].
  destruct (asciiCasePair_plainLetter (byteZ tc)) with (r := byteZ sc) as [_ Hpair];
    [exact Htc|].
  cbn [EqualFold].
  destruct (RuneSelf <=? (Z.lor (byteZ sc) (byteZ tc))).
  - unfold runes. change (len (String sc s')) with (S (len s')).
    cbn [runesFrom].
    destruct (DecodeRuneInString (String sc s')) as [r size]. cbn [fst].
    cbn [EqualFoldUnicode].
    assert (Hlt : (byteZ tc <? RuneSelf) = true)
      by (destruct Htc as [-> | [-> | [-> | ->]]]; reflexivity).
    rewrite Hlt.
    destruct (Z.eqb_spec (byteZ tc) r) as [->|Hne]; [now left|].
    destruct (Z.ltb_spec (byteZ tc) r) as [Hr|Hr].
    + destruct (r <? RuneSelf).
      * destruct (asciiCasePair_plainLetter (byteZ tc) r Htc) as [-> _].
        discriminate.
      * rewrite (foldOrbit_plainLetter _ _ Htc Hr).
        destruct (Z.eqb_spec (byteZ tc) r); [lia|discriminate].
    + rewrite Hlt.
      destruct (asciiCasePair_plainLetter (byteZ tc) r Htc) as [_ Hp].
      destruct (asciiCasePair r (byteZ tc)); [|discriminate].
      intros _. right. now apply Hp.
  - assert (Hdec : byteZ sc < RuneSelf →
                   (DecodeRuneInString (String sc s')).1 = byteZ sc).
    { intros H. unfold DecodeRuneInString.
      now replace (byteZ sc <? RuneSelf) with true by (symmetry; apply Z.ltb_lt; lia). }
    assert (Hx : byteZ tc < RuneSelf)
      by (destruct Htc as [-> | [-> | [-> | ->]]]; reflexivity).
    destruct (Z.eqb_spec (byteZ tc) (byteZ sc)) as [Heq|Hne].
    { intros _. left. rewrite Hdec; lia. }
    destruct (Z.ltb_spec (byteZ tc) (byteZ sc)) as [Hr|Hr].
    + destruct (asciiCasePair_plainLetter (byteZ tc) (byteZ sc) Htc) as [-> _].
      discriminate.
    + destruct (asciiCasePair (byteZ sc) (byteZ tc)); [|discriminate].
      intros _. right. rewrite Hdec; [now apply Hpair|lia].
Qed.

Lemma EqualFold_exclusive (s t1 t2 : string) (c1 c2 : ascii) :
  plainLetter (byteZ c1) → plainLetter (byteZ c2) → byteZ c1 ≠ byteZ c2 →
  EqualFold s (String c1 t1) = true → EqualFold s (String c2 t2) = false.
Proof.
  intros H1 H2 Hne Ht.
  destruct (EqualFold s (String c2 t2)) eqn:Hf; [|reflexivity].
  apply EqualFold_first_rune in Ht; [|exact H1].
  apply EqualFold_first_rune in Hf; [|exact H2].
  unfold plainLetter in H1, H2. lia.
Qed.

(** [parseFlagOpt] by the spelling of the value: the order of its tests does
    not matter, no value spells both. *)
Lemma parseFlagOpt_spellings (flag value : string) :
  (spellsTrue value = true → parseFlagOpt flag value = (true, None))
  ∧ (spellsFalse value = true → parseFlagOpt flag value = (false, None))
  ∧ (spellsTrue value = false → spellsFalse value = false →
     parseFlagOpt flag value = (false, Some (Errorf_s errPassedOptargToFlag flag))).
Proof.
  assert (Hex : ∀ c1 c2 t1 t2,
    plainLetter (byteZ c1) → plainLetter (byteZ c2) → byteZ c1 ≠ byteZ c2 →
    EqualFold value (String c1 t1) = true →
    EqualFold value (String c2 t2) = false)
    by (intros c1 c2 t1 t2 H1 H2 Hne H;
        exact (EqualFold_exclusive value t1 t2 c1 c2 H1 H2 Hne H)).
  assert (Hf : plainLetter (byteZ "f")) by (vm_compute; tauto).
  assert (Hn : plainLetter (byteZ "n")) by (vm_compute; tauto).
  assert (Ht : plainLetter (byteZ "t")) by (vm_compute; tauto).
  assert (Hy : plainLetter (byteZ "y")) by (vm_compute; tauto).
  unfold spellsTrue, spellsFalse, parseFlagOpt. split; [|split].
  - intros H. apply orb_prop in H as [H|H]; [apply orb_prop in H as [H|H];
      [apply orb_prop in H as [H|H]|]|].
    + rewrite (Hex "t"%char "f"%char "" "" Ht Hf ltac:(discriminate) H). now rewrite H.
    + rewrite (Hex "y"%char "f"%char "" "" Hy Hf ltac:(discriminate) H). rewrite H.
      now destruct (EqualFold value "t").
    + rewrite (Hex "y"%char "f"%char "es" "" Hy Hf ltac:(discriminate) H).
      rewrite (Hex "y"%char "n"%char "es" "" Hy Hn ltac:(discriminate) H).
      rewrite (Hex "y"%char "n"%char "es" "o" Hy Hn ltac:(discriminate) H).
      rewrite H. now destruct (EqualFold value "t"), (EqualFold value "y").
    + rewrite (Hex "t"%char "f"%char "rue" "" Ht Hf ltac:(discriminate) H).
      rewrite (Hex "t"%char "n"%char "rue" "" Ht Hn ltac:(discriminate) H).
      rewrite (Hex "t"%char "n"%char "rue" "o" Ht Hn ltac:(discriminate) H).
      rewrite H.
      now destruct (EqualFold value "t"), (EqualFold value "y"),
        (EqualFold value "yes").
  - intros H. apply orb_prop in H as [H|H]; [apply orb_prop in H as [H|H];
      [apply orb_prop in H as [H|H]|]|].
    + now rewrite H.
    + rewrite (Hex "n"%char "t"%char "" "" Hn Ht ltac:(discriminate) H).
      rewrite (Hex "n"%char "y"%char "" "" Hn Hy ltac:(discriminate) H).
      rewrite H. now destruct (EqualFold value "f").
    + rewrite (Hex "n"%char "t"%char "o" "" Hn Ht ltac:(discriminate) H).
      rewrite (Hex "n"%char "y"%char "o" "" Hn Hy ltac:(discriminate) H).
      rewrite H. now destruct (EqualFold value "f"), (EqualFold value "n").
    + rewrite (Hex "f"%char "t"%char "alse" "" Hf Ht ltac:(discriminate) H).
      rewrite (Hex "f"%char "y"%char "alse" "" Hf Hy ltac:(discriminate) H).
      rewrite (Hex "f"%char "y"%char "alse" "es" Hf Hy ltac:(discriminate) H).
      rewrite (Hex "f"%char "t"%char "alse" "rue" Hf Ht ltac:(discriminate) H).
      rewrite H.
      now destruct (EqualFold value "f"), (EqualFold value "n"),
        (EqualFold value "no").
  - intros H1 H2.
    apply orb_false_elim in H1 as [H1 H1d]. apply orb_false_elim in H1 as [H1 H1c].
    apply orb_false_elim in H1 as [H1a H1b].
    apply orb_false_elim in H2 as [H2 H2d]. apply orb_false_elim in H2 as [H2 H2c].
    apply orb_false_elim in H2 as [H2a H2b].
    now rewrite H1a, H1b, H1c, H1d, H2a, H2b, H2c, H2d.
Qed.

Lemma sliceFrom_append_cons (name value : string) (c : ascii) :
  sliceFrom (name +:+ String c value) (S (len name)) = value.
Proof.
  induction name as [|b name IH]; [reflexivity|].
  rewrite append_cons. exact IH.
Qed.

(** The token [--name=value], [name] holding no [=], is a long option whose
    first [=] is the one after [name]. *)
Lemma longOption_token (name value : string) :
  IndexByte name "=" < 0 →
  let token := String "-" (String "-" (name +:+ String "=" value)) in
  IndexByte token "=" = Z.of_nat (2 + len name)
  ∧ slice token 2 (2 + len name) = name
  ∧ sliceFrom token (3 + len name) = value
  ∧ ∃ n, len token = S (S (S n)).
Proof.
  intros Hname token. split; [|split; [|split]].
  - subst token. cbn [IndexByte].
    change (Ascii.eqb "-" "=") with false. cbv iota zeta.
    rewrite (IndexByte_append name value "=" Hname).
    destruct (Z.ltb_spec (Z.of_nat (len name)) 0) as [H|H]; [lia|].
    destruct (Z.ltb_spec (Z.of_nat (len name) + 1) 0); lia.
  - subst token. unfold slice.
    replace (2 + len name - 2)%nat with (len name) by lia.
    cbn [sliceFrom]. apply sliceTo_append.
  - subst token. change (3 + len name)%nat with (S (S (S (len name)))).
    cbn [sliceFrom]. apply sliceFrom_append_cons.
  - subst token. exists (len name + len value)%nat.
    change (len (String "-" (String "-" (name +:+ String "=" value))))
      with (S (S (len (name +:+ String "=" value)))).
    rewrite len_append. change (len (String "=" value)) with (S (len value)). lia.
Qed.

(** What the round for [--name=value] does with [name] and [value]. *)
Lemma step_long_with_value (name value : string) tl v st :
  IndexByte name "=" < 0 →
  expect_optarg v = false →
  step ("--" +:+ name +:+ "=" +:+ value) tl v st
  = match paramsByLong st !! name with
    | Some p =>
        match takesArgument st p with
        | None => Panic
        | Some true =>
            match assertOption p with
            | Some a =>
                match addOptArg a value st with
                | Some st' => Continue v st'
                | None => Panic
                end
            | None => Panic
            end
        | Some false =>
            match parseFlagOpt name value with
            | (_, Some err) => Return (rest v) (Some err) st
            | (b, None) =>
                match assertFlag p with
                | Some a =>
                    match takeValue a b st with
                    | Some st' => Continue v st'
                    | None => Panic
                    end
                | None => Panic
                end
            end
        end
    | None => Return (rest v) (Some (Errorf_s errUnrecognizedLong name)) st
    end.
Proof.
  intros Hname Hv.
  change ("--" +:+ name +:+ "=" +:+ value)
    with (String "-" (String "-" (name +:+ String "=" value))).
  destruct (longOption_token name value Hname) as (Hi & Hl & Ho & n & Hn).
  unfold step. rewrite Hv, Hn. cbn [byteAt].
  rewrite !bool_decide_eq_true_2 by reflexivity.
  unfold longOption. rewrite Hi.
  replace (Z.of_nat (2 + len name) <? 0) with false by (symmetry; apply Z.ltb_ge; lia).
  replace (Z.to_nat (Z.of_nat (2 + len name) + 1)) with (3 + len name)%nat by lia.
  rewrite Nat2Z.id, Hl, Ho. reflexivity.
Qed.

(** C7.  The token [--name=value] is split at its first [=]: [name] holds
    none, and [value], which may hold more, is taken whole.  An unknown
    [name] fails with [errUnrecognizedLong].  For the name of an option the
    value is delivered in this round, and the loop variables are unchanged: no
    option is left awaiting a value.  For the name of a flag, a value that
    spells true ([t], [y], [yes], [true], in any case) delivers [true], one
    that spells false ([f], [n], [no], [false]) delivers [false], and any
    other value fails with [errPassedOptargToFlag] naming the long option. *)
Theorem C7_long_option_with_value (name value : string) tl v st :
  IndexByte name "=" < 0 →
  expect_optarg v = false →
  let token := "--" +:+ name +:+ "=" +:+ value in
  (paramsByLong st !! name = None →
   step token tl v st
   = Return (rest v) (Some (Errorf_s errUnrecognizedLong name)) st)
  ∧ (∀ a o,
       paramsByLong st !! name = Some (OptionPtr a) →
       option_mem st !! a = Some o →
       takesArg (O_option o) = true →
       step token tl v st
       = Continue v
           (setOptionMem st
              (<[a := (Option_addOptArg value o (world st)).1]> (option_mem st))
              (Option_addOptArg value o (world st)).2))
  ∧ (∀ a f,
       paramsByLong st !! name = Some (FlagPtr a) →
       flag_mem st !! a = Some f →
       takesArg (F_option f) = false →
       (spellsTrue value = true →
        step token tl v st
        = Continue v
            (setFlagMem st
               (<[a := (Flag_takeValue true f (world st)).1]> (flag_mem st))
               (Flag_takeValue true f (world st)).2))
       ∧ (spellsFalse value = true →
          step token tl v st
          = Continue v
              (setFlagMem st
                 (<[a := (Flag_takeValue false f (world st)).1]> (flag_mem st))
                 (Flag_takeValue false f (world st)).2))
       ∧ (spellsTrue value = false → spellsFalse value = false →
          step token tl v st
          = Return (rest v) (Some (Errorf_s errPassedOptargToFlag name)) st)).
Proof.
  intros Hname Hv token. subst token.
  rewrite (step_long_with_value name value tl v st Hname Hv).
  split; [|split].
  - now intros ->.
  - intros a o -> Hm Ht.
    rewrite (takesArgument_option _ _ _ Hm), Ht. cbn [assertOption].
    now rewrite (addOptArg_Some _ _ _ _ Hm).
  - intros a f -> Hm Ht.
    rewrite (takesArgument_flag _ _ _ Hm), Ht. cbn [assertFlag].
    destruct (parseFlagOpt_spellings name value) as (Htrue & Hfalse & Hbad).
    split; [|split].
    + intros H. rewrite (Htrue H). now rewrite (takeValue_Some _ _ _ _ Hm).
    + intros H. rewrite (Hfalse H). now rewrite (takeValue_Some _ _ _ _ Hm).
    + intros H1 H2. now rewrite (Hbad H1 H2).
Qed.

(** ** Errors *)

(** An error comes with the [rest] the loop had, and does not depend on the
    loop variables. *)
Lemma clump_error arg n j v st r e st' :
  clump arg n j v st = Return r (Some e) st' →
  r = rest v ∧ ∀ v', clump arg n j v' st = Return (rest v') (Some e) st'.
Proof.
  revert j v st. induction n as [|n IH]; intros j v st; simpl; [discriminate|].
  destruct (paramsByShort st !! byteAt arg j) as [p|].
  2:{ intros [= <- <- <-]. now split. }
  destruct (takesArgument st p) as [[|]|]; [| |discriminate].
  - destruct (assertOption p) as [a|].
    2:{ destruct (j <? len arg - 1)%nat; discriminate. }
    destruct (j <? len arg - 1)%nat.
    + destruct (addOptArg a (sliceFrom arg j) st); discriminate.
    + intros H. apply IH in H as [-> H]. split; [reflexivity|].
      intros v'. apply (H {| rest := rest v'; expect_optarg := true;
                             waiting_opt := Some a |}).
  - destruct (assertFlag p) as [a|]; [|discriminate].
    destruct (takeValue a true st) as [st1|]; [|discriminate].
    apply IH.
Qed.

Lemma negateParameter_error c p v st r e st' :
  negateParameter c p v st = Return r (Some e) st' →
  r = rest v ∧ ∀ v', negateParameter c p v' st = Return (rest v') (Some e) st'.
Proof.
  unfold negateParameter.
  destruct (takesArgument st p) as [[|]|]; [| |discriminate].
  - intros [= <- <- <-]. now split.
  - destruct (assertFlag p) as [a|]; [|discriminate].
    destruct (takeValue a false st); discriminate.
Qed.

Lemma negateParameter_continue c p v st v1 st1 :
  negateParameter c p v st = Continue v1 st1 →
  ∀ v', negateParameter c p v' st = Continue v' st1.
Proof.
  unfold negateParameter.
  destruct (takesArgument st p) as [[|]|]; [discriminate| |discriminate].
  destruct (assertFlag p) as [a|]; [|discriminate].
  destruct (takeValue a false st); [|discriminate].
  now intros [= <- <-].
Qed.

Lemma negateClump_error arg n j v st r e st' :
  negateClump arg n j v st = Return r (Some e) st' →
  r = rest v ∧ ∀ v', negateClump arg n j v' st = Return (rest v') (Some e) st'.
Proof.
  revert j v st. induction n as [|n IH]; intros j v st; simpl; [discriminate|].
  destruct (paramsByShort st !! byteAt arg j) as [p|].
  2:{ intros [= <- <- <-]. now split. }
  destruct (negateParameter (byteAt arg j) p v st) as [v1 st1|r1 e1 st1|] eqn:Hn;
    [| |discriminate].
  - intros H. apply IH in H as [-> H].
    pose proof (negateParameter_vars _ _ _ _ _ _ Hn) as ->.
    split; [reflexivity|]. intros v'.
    rewrite (negateParameter_continue _ _ _ _ _ _ Hn v'). apply H.
  - intros [= -> -> ->]. apply negateParameter_error in Hn as [-> Hn].
    split; [reflexivity|]. intros v'. now rewrite Hn.
Qed.

Lemma passParameter_no_error p v st r e st' :
  passParameter p v st ≠ Return r e st'.
Proof.
  unfold passParameter.
  destruct (takesArgument st p) as [[|]|]; [| |discriminate].
  - destruct (assertOption p); discriminate.
  - destruct (assertFlag p) as [a|]; [|discriminate].
    destruct (takeValue a true st); discriminate.
Qed.

Lemma longOption_error arg v st r e st' :
  longOption arg v st = Return r (Some e) st' →
  r = rest v ∧ ∀ v', longOption arg v' st = Return (rest v') (Some e) st'.
Proof.
  unfold longOption. destruct (IndexByte arg "=" <? 0).
  - destruct (paramsByLong st !! sliceFrom arg 2) as [p|].
    + intros H. now apply passParameter_no_error in H.
    + intros [= <- <- <-]. now split.
  - destruct (paramsByLong st !! _) as [p|].
    2:{ intros [= <- <- <-]. now split. }
    destruct (takesArgument st p) as [[|]|]; [| |discriminate].
    + destruct (assertOption p) as [a|]; [|discriminate].
      destruct (addOptArg a _ st); discriminate.
    + destruct (parseFlagOpt _ _) as [b [err|]].
      * intros [= <- <- <-]. now split.
      * destruct (assertFlag p) as [a|]; [|discriminate].
        destruct (takeValue a b st); discriminate.
Qed.

Lemma step_error arg tl v st r e st' :
  step arg tl v st = Return r (Some e) st' →
  r = rest v
  ∧ expect_optarg v = false
  ∧ ∀ tl' v', expect_optarg v' = false →
              step arg tl' v' st = Return (rest v') (Some e) st'.
Proof.
  unfold step. destruct (expect_optarg v) eqn:Hv.
  { destruct (waiting_opt v) as [a|]; [|discriminate].
    destruct (addOptArg a arg st); discriminate. }
  assert (Hrest : ∀ dash,
    (let '(r0, st0) := addRest (rest v) arg dash st in Continue (setRest v r0) st0)
    ≠ Return r (Some e) st').
  { intros dash. now destruct (addRest (rest v) arg dash st). }
  destruct (len arg) as [|[|[|n]]].
  - discriminate.
  - intros H. now apply Hrest in H.
  - destruct (bool_decide (arg = "--")).
    { destruct (addRestAfterDashes (rest v) tl st). discriminate. }
    destruct (bool_decide (byteAt arg 0 = "-"%char)).
    { destruct (paramsByShort st !! byteAt arg 1) as [p|].
      - intros H. now apply passParameter_no_error in H.
      - intros [= <- <- <-]. repeat split. intros tl' v' ->. reflexivity. }
    destruct (bool_decide (byteAt arg 0 = "+"%char)).
    2:{ intros H. now apply Hrest in H. }
    destruct (paramsByShort st !! byteAt arg 1) as [p|].
    + intros H. apply negateParameter_error in H as [-> H].
      repeat split. intros tl' v' ->. apply H.
    + intros [= <- <- <-]. repeat split. intros tl' v' ->. reflexivity.
  - destruct (bool_decide (byteAt arg 0 = "-"%char)).
    { destruct (bool_decide (byteAt arg 1 = "-"%char)).
      - intros H. apply longOption_error in H as [-> H].
        repeat split. intros tl' v' ->. apply H.
      - intros H. apply clump_error in H as [-> H].
        repeat split. intros tl' v' ->. apply H. }
    destruct (bool_decide (byteAt arg 0 = "+"%char)).
    2:{ intros H. now apply Hrest in H. }
    intros H. apply negateClump_error in H as [-> H].
    repeat split. intros tl' v' ->. apply H.
Qed.

Lemma loop_error args v st r e st' :
  loop args v st = Return r (Some e) st' →
  ∃ pre tok post s1,
    args = pre ++ tok :: post
    ∧ loop pre v st = Return r None s1
    ∧ (∀ tl' v', expect_optarg v' = false →
                 step tok tl' v' s1 = Return (rest v') (Some e) st')
    ∧ ∀ post', loop (pre ++ tok :: post') v st = Return r (Some e) st'.
Proof.
  revert v st. induction args as [|arg tl IH]; intros v st; [discriminate|].
  cbn [loop]. destruct (step arg tl v st) as [v1 s1|r1 e1 s1|] eqn:Hstep;
    [| |discriminate].
  - intros H. apply IH in H as (pre & tok & post & s2 & -> & Hpre & Htok & Hpost).
    exists (arg :: pre), tok, post, s2. split; [reflexivity|].
    split; [|split; [exact Htok|]].
    + cbn [loop]. now rewrite (step_continue_tl _ _ _ _ _ _ Hstep pre).
    + intros post'. change ((arg :: pre) ++ tok :: post')
        with (arg :: (pre ++ tok :: post')).
      cbn [loop]. rewrite (step_continue_tl _ _ _ _ _ _ Hstep). apply Hpost.
  - intros [= -> -> ->]. apply step_error in Hstep as (-> & Hv & Hstep).
    exists [], arg, tl, st. split; [reflexivity|]. split; [reflexivity|].
    split; [exact Hstep|]. intros post'. cbn [app loop].
    now rewrite (Hstep post' v Hv).
Qed.

(** C4.  When [ArgParse] returns an error, the input splits at a failing
    token [tok]: the tokens [pre] before it parse without error and make
    exactly the [rest] that is returned with the error; the final state is what
    [tok] alone makes of the state [s1] they leave (its deliveries before
    the failure, as of the first bytes of a clump, stay applied); and no token
    after [tok] has any effect: with any other tokens [post'] in their place
    the result and the final state are the same. *)
Theorem C4_error_stops_the_parse argv st r e st' :
  ArgParse argv st = Return r (Some e) st' →
  ∃ prog pre tok post s1,
    argv = prog :: pre ++ tok :: post
    ∧ ArgParse (prog :: pre) st = Return r None s1
    ∧ ArgParse [prog; tok] s1 = Return [] (Some e) st'
    ∧ ∀ post', ArgParse (prog :: pre ++ tok :: post') st = Return r (Some e) st'.
Proof.
  unfold ArgParse. destruct argv as [|prog args]; [discriminate|].
  change (drop 1 (prog :: args)) with args. intros H.
  apply loop_error in H as (pre & tok & post & s1 & -> & Hpre & Htok & Hpost).
  exists prog, pre, tok, post, s1. split; [reflexivity|].
  split; [exact Hpre|]. split; [|exact Hpost].
  change (drop 1 [prog; tok]) with [tok].
  cbn [loop]. now rewrite (Htok [] initVars eq_refl).
Qed.

(** ** Clumps *)

Lemma deliverShorts_frame value cs st :
  option_mem (deliverShorts value cs st) = option_mem st
  ∧ paramsByShort (deliverShorts value cs st) = paramsByShort st.
Proof.
  revert st. induction cs as [|c cs IH]; intros st; [now split|].
  simpl. destruct (paramsByShort st !! c) as [[a|a]|]; try now split.
  destruct (takeValue a value st) as [st'|] eqn:Ha; [|now split].
  destruct (IH st') as [-> ->].
  now destruct (takeValue_frame _ _ _ _ Ha) as (-> & _ & -> & _).
Qed.

(** The clump loop over the short names of flags sets each of them true. *)
Lemma clump_flags pre cs arg n j v st :
  sliceFrom arg j = pre +:+ cs →
  allShortFlags st pre →
  clump arg (len pre + n) j v st
  = clump arg n (len pre + j) v (deliverShorts true pre st).
Proof.
  revert j st. induction pre as [|c pre IH]; intros j st Hs Hpre; [reflexivity|].
  rewrite append_cons in Hs.
  destruct (sliceFrom_cons _ _ _ _ Hs) as [Hb Hs'].
  destruct Hpre as [(a & f & Hp & Hm & Ht) Hpre].
  change (len (String c pre)) with (S (len pre)).
  simpl. rewrite Hb, Hp.
  rewrite (takesArgument_flag _ _ _ Hm), Ht. simpl assertFlag. cbv iota.
  destruct (takeValue a true st) as [st'|] eqn:Ha.
  2:{ rewrite (takeValue_Some _ _ _ _ Hm) in Ha. discriminate. }
  rewrite (IH (S j) st' Hs' (takeValue_allShortFlags _ _ _ _ _ Ha Hpre)).
  f_equal. lia.
Qed.

(** What the code does in a clump at the short name [c] of an option that is
    followed by [c' suf]: the value it delivers is [arg[j:]], which starts
    with [c] itself, and the scan stops there. *)
Lemma step_clump_inline_value pre c c' suf a o tl v st :
  expect_optarg v = false →
  byteAt (pre +:+ String c "") 0 ≠ "-"%char →
  allShortFlags st pre →
  paramsByShort st !! c = Some (OptionPtr a) →
  option_mem st !! a = Some o →
  takesArg (O_option o) = true →
  let st1 := deliverShorts true pre st in
  step (String "-" (pre +:+ String c (String c' suf))) tl v st
  = Continue v
      (setOptionMem st1
         (<[a := (Option_addOptArg (String c (String c' suf)) o (world st1)).1]>
            (option_mem st1))
         (Option_addOptArg (String c (String c' suf)) o (world st1)).2).
Proof.
  intros Hv Hdash Hpre Hp Hm Ht st1.
  set (token := String "-" (pre +:+ String c (String c' suf))).
  assert (Hlen : len token = S (S (S (len pre + len suf)))).
  { subst token. change (len (String "-" ?s)) with (S (len s)).
    rewrite len_append. change (len (String c (String c' suf))) with (S (S (len suf))).
    lia. }
  assert (Hb1 : byteAt token 1 ≠ "-"%char).
  { subst token. destruct pre; exact Hdash. }
  unfold step. rewrite Hv, Hlen.
  change (byteAt token 0) with "-"%char.
  rewrite bool_decide_eq_true_2 by reflexivity.
  rewrite bool_decide_eq_false_2 by exact Hb1.
  replace (S (S (S (len pre + len suf))) - 1)%nat
    with (len pre + S (S (len suf)))%nat by lia.
  assert (Hs : sliceFrom token 1 = pre +:+ String c (String c' suf)) by reflexivity.
  rewrite (clump_flags pre _ token _ 1 v st Hs Hpre). fold st1.
  assert (Hs' : sliceFrom token (len pre + 1) = String c (String c' suf)).
  { subst token. replace (len pre + 1)%nat with (S (len pre)) by lia.
    simpl. apply sliceFrom_append. }
  destruct (sliceFrom_cons _ _ _ _ Hs') as [Hbc _].
  destruct (deliverShorts_frame true pre st) as [Hom Hps]. fold st1 in Hom, Hps.
  assert (Hp1 : paramsByShort st1 !! c = Some (OptionPtr a)) by now rewrite Hps.
  assert (Hm1 : option_mem st1 !! a = Some o) by now rewrite Hom.
  cbn [clump]. rewrite Hbc, Hp1.
  rewrite (takesArgument_option _ _ _ Hm1), Ht.
  rewrite Hlen.
  replace (len pre + 1 <? S (S (S (len pre + len suf))) - 1)%nat with true
    by (symmetry; apply Nat.ltb_lt; lia).
  cbn [assertOption]. rewrite Hs'.
  now rewrite (addOptArg_Some _ _ _ _ Hm1).
Qed.

End Properties.

(** * The claims at the registries of the examples *)

Import Examples.

(** C1.  The documentation of the package has [-ffile.txt] pass [file.txt]
    to [-f], as [-f file.txt] does.  The code delivers [arg[j:]], which
    still holds the option byte: [ffile.txt]. *)
Theorem C1_clump_inline_value_starts_with_the_option_byte :
  ∃ st' o,
    ArgParse ["prog"; "-ffile.txt"] registry = Return [] None st'
    ∧ option_mem st' !! 0%nat = Some o
    ∧ OptArg o = "ffile.txt"
    ∧ OptArgs o = ["ffile.txt"]
    ∧ OptArg o ≠ "file.txt".
Proof.
  eexists _, _. split; [vm_compute; reflexivity|].
  split; [vm_compute; reflexivity|]. now repeat split.
Qed.

(** The same clump after a flag, and the two-token form for comparison. *)
Example clump_after_flag :
  ∃ st' o,
    ArgParse ["prog"; "-vffile.txt"] registry = Return [] None st'
    ∧ option_mem st' !! 0%nat = Some o
    ∧ OptArg o = "ffile.txt".
Proof.
  eexists _, _. split; [vm_compute; reflexivity|].
  split; [vm_compute; reflexivity|]. reflexivity.
Qed.

Example option_then_value :
  ∃ st' o,
    ArgParse ["prog"; "-f"; "file.txt"] registry = Return [] None st'
    ∧ option_mem st' !! 0%nat = Some o
    ∧ OptArg o = "file.txt".
Proof.
  eexists _, _. split; [vm_compute; reflexivity|].
  split; [vm_compute; reflexivity|]. reflexivity.
Qed.

(** C2 as stated fails: with an [OnRestArg] that returns [false], the tokens
    after the terminator are not appended to [rest]. *)
Lemma C2_counterexample_OnRestArg_drops_the_rest :
  ArgParse ["prog"; "--"; "-v"; "x"] registryDroppingRest
  = Return [] None registryDroppingRest
  ∧ ¬ ∃ st', ArgParse ["prog"; "--"; "-v"; "x"] registryDroppingRest
             = Return [{| Argument := "-v"; AfterDashes := true |};
                       {| Argument := "x"; AfterDashes := true |}] None st'.
Proof.
  split; [vm_compute; reflexivity|].
  intros [st' H]. vm_compute in H. discriminate H.
Qed.

Lemma C2_witness :
  expect_optarg (@initVars) = false
  ∧ loop ["--"; "-v"; "--verbose"; "x"] initVars registry
    = Return [{| Argument := "-v"; AfterDashes := true |};
              {| Argument := "--verbose"; AfterDashes := true |};
              {| Argument := "x"; AfterDashes := true |}] None registry.
Proof.
  split; [reflexivity|].
  exact (proj1 (C2_terminator_hands_the_rest_to_addRest
                  ["-v"; "--verbose"; "x"] initVars registry eq_refl)).
Defined.

Lemma C3_witness :
  let v1 := {| rest := []; expect_optarg := true; waiting_opt := Some 0%nat |} in
  step "-f" ["--"] initVars registry = Continue v1 registry
  ∧ expect_optarg v1 = true
  ∧ ∃ a o,
      waiting_opt v1 = Some a
      ∧ option_mem registry !! a = Some o
      ∧ ∀ arg tl,
          step arg tl v1 registry
          = Continue {| rest := rest v1; expect_optarg := false;
                        waiting_opt := Some a |}
              (setOptionMem registry
                 (<[a := (Option_addOptArg arg o (world registry)).1]>
                    (option_mem registry))
                 (Option_addOptArg arg o (world registry)).2).
Proof.
  intros v1.
  assert (H1 : step "-f" ["--"] initVars registry = Continue v1 registry)
    by (vm_compute; reflexivity).
  assert (H2 : expect_optarg v1 = true) by reflexivity.
  exact (conj H1 (conj H2
    (C3_awaited_value_is_the_next_token "-f" ["--"] initVars registry v1 registry
       H1 H2))).
Defined.

(** The awaited value can be the terminator itself. *)
Example awaited_value_is_the_terminator :
  ∃ st' o,
    ArgParse ["prog"; "-f"; "--"; "-v"] registry = Return [] None st'
    ∧ option_mem st' !! 0%nat = Some o ∧ OptArg o = "--"
    ∧ ∃ f, flag_mem st' !! 0%nat = Some f ∧ Count f = 1.
Proof.
  eexists _, _. split; [vm_compute; reflexivity|].
  split; [vm_compute; reflexivity|]. split; [reflexivity|].
  eexists. split; [vm_compute; reflexivity|]. reflexivity.
Qed.

Lemma C4_witness :
  let st' := deliverShorts true "v" registry in
  let e := Errorf_c errUnrecognizedShort "z" in
  let r := [{| Argument := "x"; AfterDashes := false |}] in
  ArgParse ["prog"; "x"; "-vz"; "-v"; "y"] registry = Return r (Some e) st'
  ∧ ∃ prog pre tok post s1,
      ["prog"; "x"; "-vz"; "-v"; "y"] = prog :: pre ++ tok :: post
      ∧ ArgParse (prog :: pre) registry = Return r None s1
      ∧ ArgParse [prog; tok] s1 = Return [] (Some e) st'
      ∧ ∀ post', ArgParse (prog :: pre ++ tok :: post') registry
                 = Return r (Some e) st'.
Proof.
  intros st' e r.
  assert (H : ArgParse ["prog"; "x"; "-vz"; "-v"; "y"] registry
              = Return r (Some e) st') by (vm_compute; reflexivity).
  exact (conj H (C4_error_stops_the_parse _ registry r e st' H)).
Defined.

(** C5 as stated fails twice: after 2^63 deliveries of [true] the count of a
    new flag has wrapped to -2^63; and for a flag whose short name is [-],
    the token [-X] is the terminator, which delivers nothing. *)
Lemma C5_counterexample_count_wraps_and_dash_flag :
  (let values := repeat true (Z.to_nat (2 ^ 63)) in
   Count (deliverValues values flagV tt).1
   ≠ deliveries true values - deliveries false values)
  ∧ (∃ st' f,
       ArgParse ["prog"; "--"] registryDashFlag = Return [] None st'
       ∧ flag_mem st' !! 0%nat = Some f
       ∧ ShortOpt (F_option f) = "-"%char
       ∧ Count f ≠ 1 ∧ Passed (F_option f) ≠ true).
Proof.
  split.
  - intros values. subst values.
    rewrite deliverValues_Count by (unfold intSize; cbn; lia).
    destruct (deliveries_repeat (Z.to_nat (2 ^ 63))) as [-> ->].
    rewrite Z2Nat.id by lia.
    change (Count flagV) with 0.
    replace (0 + (2 ^ 63 - 0)) with (2 ^ 63) by lia.
    assert (H : wrapInt (2 ^ 63) = - 2 ^ 63) by (vm_compute; reflexivity).
    rewrite H. lia.
  - eexists _, _. split; [vm_compute; reflexivity|].
    split; [vm_compute; reflexivity|]. now repeat split.
Qed.

Lemma C5_witness :
  let values := [true; true; false; true] in
  let f' := (deliverValues values flagV tt).1 in
  ("v" ≠ "-")%char
  ∧ paramsByShort registry !! "v"%char = Some (FlagPtr 0)
  ∧ flag_mem registry !! 0%nat = Some flagV
  ∧ takesArg (F_option flagV) = false
  ∧ expect_optarg (@initVars) = false
  ∧ - 2 ^ (intSize - 1) ≤ Count flagV < 2 ^ (intSize - 1)
  ∧ Count f' = wrapInt (0 + 2)
  ∧ Passed (F_option f') = true
  ∧ step "-v" [] initVars registry
    = Continue initVars
        (setFlagMem registry
           (<[0%nat := (Flag_takeValue true flagV tt).1]> (flag_mem registry)) tt)
  ∧ step "+v" [] initVars registry
    = Continue initVars
        (setFlagMem registry
           (<[0%nat := (Flag_takeValue false flagV tt).1]> (flag_mem registry)) tt).
Proof.
  intros values f'.
  assert (H1 : ("v" ≠ "-")%char) by discriminate.
  assert (H2 : paramsByShort registry !! "v"%char = Some (FlagPtr 0))
    by (vm_compute; reflexivity).
  assert (H3 : flag_mem registry !! 0%nat = Some flagV) by (vm_compute; reflexivity).
  assert (H4 : takesArg (F_option flagV) = false) by reflexivity.
  assert (H5 : expect_optarg (@initVars) = false) by reflexivity.
  assert (H6 : - 2 ^ (intSize - 1) ≤ Count flagV < 2 ^ (intSize - 1))
    by (unfold intSize; cbn; lia).
  destruct (C5_flag_count_and_state "v" 0 flagV [] initVars registry values
              H1 H2 H3 H4 H5 H6)
    as (Hc & _ & Hp & Hs & _ & _ & Hn & _).
  exact (conj H1 (conj H2 (conj H3 (conj H4 (conj H5 (conj H6
          (conj Hc (conj Hp (conj Hs Hn))))))))).
Defined.

(** The deliveries of [-f a -f b] in one parse. *)
Example option_history_in_a_parse :
  ∃ st' o,
    ArgParse ["prog"; "-f"; "a"; "-f"; "b"] registry = Return [] None st'
    ∧ option_mem st' !! 0%nat = Some o
    ∧ OptArg o = "b" ∧ OptArgs o = ["a"; "b"] ∧ Passed (O_option o) = true.
Proof.
  eexists _, _. split; [vm_compute; reflexivity|].
  split; [vm_compute; reflexivity|]. now repeat split.
Qed.

(** Spellings: case is folded by runes, so the long s (U+017F, the bytes
    197 191) spells an [s]; anything else is refused. *)
Example parseFlagOpt_yes_long_s :
  parseFlagOpt "v" (String "Y" (String "e" (String "197" (String "191" ""))))
  = (true, None).
Proof. vm_compute. reflexivity. Qed.

Example parseFlagOpt_maybe :
  parseFlagOpt "v" "maybe" = (false, Some (Errorf_s errPassedOptargToFlag "v")).
Proof. vm_compute. reflexivity. Qed.

Lemma C7_witness :
  IndexByte "verbose" "=" < 0
  ∧ expect_optarg (@initVars) = false
  ∧ step "--nope=1" [] initVars registry
    = Return [] (Some (Errorf_s errUnrecognizedLong "nope")) registry
  ∧ step "--file=a=b" [] initVars registry
    = Continue initVars
        (setOptionMem registry
           (<[0%nat := (Option_addOptArg "a=b" optionF tt).1]> (option_mem registry)) tt)
  ∧ step "--verbose=TRUE" [] initVars registry
    = Continue initVars
        (setFlagMem registry
           (<[0%nat := (Flag_takeValue true flagV tt).1]> (flag_mem registry)) tt)
  ∧ step "--verbose=No" [] initVars registry
    = Continue initVars
        (setFlagMem registry
           (<[0%nat := (Flag_takeValue false flagV tt).1]> (flag_mem registry)) tt)
  ∧ step "--verbose=maybe" [] initVars registry
    = Return [] (Some (Errorf_s errPassedOptargToFlag "verbose")) registry.
Proof.
  assert (H1 : IndexByte "verbose" "=" < 0) by reflexivity.
  assert (H2 : expect_optarg (@initVars) = false) by reflexivity.
  assert (Hf : paramsByLong registry !! "verbose" = Some (FlagPtr 0))
    by (vm_compute; reflexivity).
  assert (Hm : flag_mem registry !! 0%nat = Some flagV) by (vm_compute; reflexivity).
  split; [exact H1|]. split; [exact H2|].
  split.
  { apply (proj1 (C7_long_option_with_value "nope" "1" [] initVars registry
                    eq_refl H2)).
    vm_compute. reflexivity. }
  split.
  { apply (proj1 (proj2 (C7_long_option_with_value "file" "a=b" [] initVars registry
                           eq_refl H2)) 0%nat optionF);
      vm_compute; reflexivity. }
  split.
  { apply (proj1 (proj2 (proj2 (C7_long_option_with_value "verbose" "TRUE" []
                                  initVars registry H1 H2)) 0%nat flagV Hf Hm eq_refl)).
    vm_compute. reflexivity. }
  split.
  { apply (proj1 (proj2 (proj2 (proj2 (C7_long_option_with_value "verbose" "No" []
                                  initVars registry H1 H2)) 0%nat flagV Hf Hm eq_refl))).
    vm_compute. reflexivity. }
  apply (proj2 (proj2 (proj2 (proj2 (C7_long_option_with_value "verbose" "maybe" []
                                  initVars registry H1 H2)) 0%nat flagV Hf Hm eq_refl)));
    vm_compute; reflexivity.
Defined.

Lemma C8_witness :
  expect_optarg (@initVars) = false
  ∧ allShortFlags registry "v"
  ∧ loop ["+vfv"; "-v"] initVars registry
    = Return [] (Some (Errorf_c errTriedToNegateOptArg "f"))
        (deliverShorts false "v" registry)
  ∧ loop ["+vzv"; "-v"] initVars registry
    = Return [] (Some (Errorf_c errUnrecognizedShort "z"))
        (deliverShorts false "v" registry)
  ∧ loop ["+vvv"; "-v"] initVars registry
    = loop ["-v"] initVars (deliverShorts false "vvv" registry).
Proof.
  assert (H1 : expect_optarg (@initVars) = false) by reflexivity.
  assert (Hv : shortIsFlag registry "v").
  { exists 0%nat, flagV. repeat split; vm_compute; reflexivity. }
  assert (H2 : allShortFlags registry "v") by (split; [exact Hv|exact I]).
  split; [exact H1|]. split; [exact H2|]. split; [|split].
  - apply (proj1 (C8_negation "v" "f" "v" ["-v"] initVars registry H1 H2)).
    exists 0%nat, optionF. repeat split; vm_compute; reflexivity.
  - apply (proj1 (proj2 (C8_negation "v" "z" "v" ["-v"] initVars registry H1 H2))).
    vm_compute. reflexivity.
  - apply (proj2 (proj2 (C8_negation "v" "v" "v" ["-v"] initVars registry H1 H2))).
    split; [exact Hv|exact H2].
Defined.

Lemma C9_witness :
  let v1 := {| rest := [{| Argument := "x"; AfterDashes := false |}];
               expect_optarg := true; waiting_opt := Some 0%nat |} in
  let st0 := deliverShorts true "v" registry in
  loopVarsAfter ["x"; "-v"] initVars registry = Some (setRest initVars (rest v1), st0)
  ∧ step "-f" [] (setRest initVars (rest v1)) st0 = Continue v1 st0
  ∧ expect_optarg v1 = true
  ∧ ArgParse ["prog"; "x"; "-v"; "-f"] registry = Return (rest v1) None st0
  ∧ option_mem st0 !! 0%nat = Some optionF.
Proof.
  intros v1 st0.
  assert (H1 : loopVarsAfter ["x"; "-v"] initVars registry
               = Some (setRest initVars (rest v1), st0)) by (vm_compute; reflexivity).
  assert (H2 : step "-f" [] (setRest initVars (rest v1)) st0 = Continue v1 st0)
    by (vm_compute; reflexivity).
  assert (H3 : expect_optarg v1 = true) by reflexivity.
  split; [exact H1|]. split; [exact H2|]. split; [exact H3|].
  split.
  - exact (proj1 (C9_input_ends_awaiting_value "prog" ["x"; "-v"] "-f" registry
                    _ st0 v1 st0 H1 H2 H3)).
  - vm_compute. reflexivity.
Defined.

(** The example of the claim: [-f] alone. *)
Example input_ends_after_short_option :
  ArgParse ["prog"; "-f"] registry = Return [] None registry.
Proof. vm_compute. reflexivity. Qed.

Lemma C10_witness :
  Forall (fun arg => positional arg = true) ["a"; "-"; "b"]
  ∧ expect_optarg (@initVars) = false
  ∧ loop ["a"; "-"; "b"; "--"; "-v"; "c"] initVars registryLoggingRest
    = Return [{| Argument := "a"; AfterDashes := false |};
              {| Argument := "-"; AfterDashes := false |};
              {| Argument := "b"; AfterDashes := false |}] None
        (setWorld registryLoggingRest
           [("a", false); ("-", false); ("b", false); ("-v", true); ("c", true)])
  ∧ loop ["a"; "-"; "b"; "--"; "-v"; "c"] initVars registry
    = Return [{| Argument := "a"; AfterDashes := false |};
              {| Argument := "-"; AfterDashes := false |};
              {| Argument := "b"; AfterDashes := false |};
              {| Argument := "-v"; AfterDashes := true |};
              {| Argument := "c"; AfterDashes := true |}] None registry.
Proof.
  assert (H1 : Forall (fun arg => positional arg = true) ["a"; "-"; "b"])
    by (repeat constructor).
  assert (H2 : expect_optarg (@initVars) = false) by reflexivity.
  split; [exact H1|]. split; [exact H2|]. split.
  - exact (proj2 (proj2 (C10_rest_goes_through_OnRestArg ["a"; "-"; "b"] ["-v"; "c"]
                           [] "" false initVars registryLoggingRest H1 H2))).
  - exact (proj2 (proj2 (C10_rest_goes_through_OnRestArg ["a"; "-"; "b"] ["-v"; "c"]
                           [] "" false initVars registry H1 H2))).
Defined.

(** * The registry through a parse *)

Section ParseInvariants.

Context {World : Type}.

Implicit Types (st : @State World) (v : loopVars) (f : @Flag World)
  (o : @Option World) (w : World) (c : @control World).

(** ** What a parse leaves alone *)

Lemma sameRegistry_refl st : sameRegistry st st.
Proof. now repeat split. Qed.

Lemma sameRegistry_trans st1 st2 st3 :
  sameRegistry st1 st2 → sameRegistry st2 st3 → sameRegistry st1 st3.
Proof.
  intros (A1 & A2 & A3 & A4 & A5 & A6 & A7 & A8)
         (B1 & B2 & B3 & B4 & B5 & B6 & B7 & B8).
  repeat split; first [congruence | intros p; rewrite B8; apply A8].
Qed.

Lemma takeValue_sameRegistry a value st st' :
  takeValue a value st = Some st' → sameRegistry st st'.
Proof.
  unfold takeValue. destruct (flag_mem st !! a) as [f|] eqn:Hf; [|discriminate].
  pose proof (Flag_takeValue_takesArg value f (world st)) as Hk.
  destruct (Flag_takeValue value f (world st)) as [f' w]. cbn [fst] in Hk.
  intros [= <-]. repeat split; cbn; [apply length_insert|].
  intros [a'|a']; cbn; [|reflexivity].
  destruct (decide (a = a')) as [<-|Hne].
  - rewrite list_lookup_insert_eq by (now apply lookup_lt_Some in Hf).
    rewrite Hf. cbn. unfold option_takesArgument. now rewrite Hk.
  - now rewrite list_lookup_insert_ne.
Qed.

Lemma addOptArg_sameRegistry a arg st st' :
  addOptArg a arg st = Some st' → sameRegistry st st'.
Proof.
  unfold addOptArg. destruct (option_mem st !! a) as [o|] eqn:Ho; [|discriminate].
  destruct (Option_addOptArg_fields arg o (world st)) as (_ & _ & _ & Hk).
  destruct (Option_addOptArg arg o (world st)) as [o' w]. cbn [fst] in Hk.
  intros [= <-]. repeat split; cbn; [apply length_insert|].
  intros [a'|a']; cbn; [reflexivity|].
  destruct (decide (a = a')) as [<-|Hne].
  - rewrite list_lookup_insert_eq by (now apply lookup_lt_Some in Ho).
    rewrite Ho. cbn. unfold option_takesArgument. now rewrite Hk.
  - now rewrite list_lookup_insert_ne.
Qed.

Lemma addRest_sameRegistry r arg dash st :
  sameRegistry st (addRest r arg dash st).2.
Proof.
  unfold addRest. destruct (OnRestArg st) as [cb|] eqn:Hcb.
  - destruct (cb arg dash (world st)) as [[|] w]; repeat split; exact Hcb.
  - apply sameRegistry_refl.
Qed.

Lemma addRestAfterDashes_sameRegistry r args st :
  sameRegistry st (addRestAfterDashes r args st).2.
Proof.
  revert r st. induction args as [|arg args IH]; intros r st.
  - apply sameRegistry_refl.
  - cbn [addRestAfterDashes].
    pose proof (addRest_sameRegistry r arg true st) as H.
    destruct (addRest r arg true st) as [r' st']. cbn [snd] in H.
    eapply sameRegistry_trans; [exact H|apply IH].
Qed.

Lemma passParameter_same p v st : handsOn (passParameter p v st) (sameRegistry st).
Proof.
  unfold passParameter. destruct (takesArgument st p) as [[|]|]; [| |exact I].
  - destruct (assertOption p); [apply sameRegistry_refl|exact I].
  - destruct (assertFlag p) as [a|]; [|exact I].
    destruct (takeValue a true st) eqn:Ha; [|exact I].
    now apply takeValue_sameRegistry in Ha.
Qed.

Lemma negateParameter_same ch p v st :
  handsOn (negateParameter ch p v st) (sameRegistry st).
Proof.
  unfold negateParameter. destruct (takesArgument st p) as [[|]|]; [| |exact I].
  - apply sameRegistry_refl.
  - destruct (assertFlag p) as [a|]; [|exact I].
    destruct (takeValue a false st) eqn:Ha; [|exact I].
    now apply takeValue_sameRegistry in Ha.
Qed.

Lemma handsOn_trans c st st' :
  sameRegistry st st' → handsOn c (sameRegistry st') → handsOn c (sameRegistry st).
Proof.
  intros H. destruct c; cbn; [| |easy]; intros H'; eapply sameRegistry_trans; eauto.
Qed.

Lemma clump_same arg n j v st : handsOn (clump arg n j v st) (sameRegistry st).
Proof.
  revert j v st. induction n as [|n IH]; intros j v st; cbn [clump].
  { apply sameRegistry_refl. }
  destruct (paramsByShort st !! byteAt arg j) as [p|]; [|apply sameRegistry_refl].
  destruct (takesArgument st p) as [[|]|]; [| |exact I].
  - destruct (j <? len arg - 1)%nat.
    + destruct (assertOption p) as [a|]; [|exact I].
      destruct (addOptArg a (sliceFrom arg j) st) eqn:Ha; [|exact I].
      now apply addOptArg_sameRegistry in Ha.
    + destruct (assertOption p) as [a|]; [|exact I]. apply IH.
  - destruct (assertFlag p) as [a|]; [|exact I].
    destruct (takeValue a true st) as [st'|] eqn:Ha; [|exact I].
    apply takeValue_sameRegistry in Ha. eapply handsOn_trans; [exact Ha|apply IH].
Qed.

Lemma negateClump_same arg n j v st :
  handsOn (negateClump arg n j v st) (sameRegistry st).
Proof.
  revert j v st. induction n as [|n IH]; intros j v st; cbn [negateClump].
  { apply sameRegistry_refl. }
  destruct (paramsByShort st !! byteAt arg j) as [p|]; [|apply sameRegistry_refl].
  pose proof (negateParameter_same (byteAt arg j) p v st) as H.
  destruct (negateParameter (byteAt arg j) p v st) as [v' st'|r e st'|];
    [|exact H|exact I].
  eapply handsOn_trans; [exact H|apply IH].
Qed.

Lemma longOption_same arg v st : handsOn (longOption arg v st) (sameRegistry st).
Proof.
  unfold longOption. destruct (IndexByte arg "=" <? 0).
  - destruct (paramsByLong st !! sliceFrom arg 2) as [p|];
      [apply passParameter_same|apply sameRegistry_refl].
  - destruct (paramsByLong st !! _) as [p|]; [|apply sameRegistry_refl].
    destruct (takesArgument st p) as [[|]|]; [| |exact I].
    + destruct (assertOption p) as [a|]; [|exact I].
      destruct (addOptArg a _ st) eqn:Ha; [|exact I].
      now apply addOptArg_sameRegistry in Ha.
    + destruct (parseFlagOpt _ _) as [b [err|]]; [apply sameRegistry_refl|].
      destruct (assertFlag p) as [a|]; [|exact I].
      destruct (takeValue a b st) eqn:Ha; [|exact I].
      now apply takeValue_sameRegistry in Ha.
Qed.

Lemma step_same arg tl v st : handsOn (step arg tl v st) (sameRegistry st).
Proof.
  unfold step. destruct (expect_optarg v).
  { destruct (waiting_opt v) as [a|]; [|exact I].
    destruct (addOptArg a arg st) eqn:Ha; [|exact I].
    now apply addOptArg_sameRegistry in Ha. }
  assert (Hrest : ∀ dash,
    handsOn (let '(r, st') := addRest (rest v) arg dash st in
             Continue (setRest v r) st') (sameRegistry st)).
  { intros dash. pose proof (addRest_sameRegistry (rest v) arg dash st) as H.
    now destruct (addRest (rest v) arg dash st). }
  destruct (len arg) as [|[|[|n]]].
  - apply sameRegistry_refl.
  - apply Hrest.
  - destruct (bool_decide (arg = "--")).
    { pose proof (addRestAfterDashes_sameRegistry (rest v) tl st) as H.
      now destruct (addRestAfterDashes (rest v) tl st). }
    destruct (bool_decide (byteAt arg 0 = "-"%char)).
    { destruct (paramsByShort st !! byteAt arg 1) as [p|];
        [apply passParameter_same|apply sameRegistry_refl]. }
    destruct (bool_decide (byteAt arg 0 = "+"%char)); [|apply Hrest].
    destruct (paramsByShort st !! byteAt arg 1) as [p|];
      [apply negateParameter_same|apply sameRegistry_refl].
  - destruct (bool_decide (byteAt arg 0 = "-"%char)).
    { destruct (bool_decide (byteAt arg 1 = "-"%char));
        [apply longOption_same|apply clump_same]. }
    destruct (bool_decide (byteAt arg 0 = "+"%char)); [|apply Hrest].
    apply negateClump_same.
Qed.

Lemma loop_same args v st : handsOn (loop args v st) (sameRegistry st).
Proof.
  revert v st. induction args as [|arg tl IH]; intros v st; cbn [loop].
  { apply sameRegistry_refl. }
  pose proof (step_same arg tl v st) as H.
  destruct (step arg tl v st) as [v' st'|r e st'|]; [|exact H|exact I].
  eapply handsOn_trans; [exact H|apply IH].
Qed.

(** A parse changes no map and no package-level slice: whatever [ArgParse]
    returns, [paramsByShort], [paramsByLong] and [OnRestArg] are what they
    were, no object has appeared or gone, every pointer has kept its kind, and
    the slices [Flags] and [Options], which hold the copies made at
    declaration, are untouched: the deliveries of the parse are seen through
    the pointers only. *)
Theorem ArgParse_keeps_the_registry argv st r e st' :
  ArgParse argv st = Return r e st' →
  paramsByShort st' = paramsByShort st
  ∧ paramsByLong st' = paramsByLong st
  ∧ OnRestArg st' = OnRestArg st
  ∧ Flags st' = Flags st
  ∧ Options st' = Options st
  ∧ length (flag_mem st') = length (flag_mem st)
  ∧ length (option_mem st') = length (option_mem st)
  ∧ ∀ p, takesArgument st' p = takesArgument st p.
Proof.
  intros H. pose proof (loop_same (drop 1 argv) initVars st) as Hs.
  unfold ArgParse in H. rewrite H in Hs. exact Hs.
Qed.

(** ** No panic *)

Lemma wellFormed_same st st' : sameRegistry st st' → wellFormed st → wellFormed st'.
Proof.
  intros (H1 & H2 & _ & _ & _ & _ & _ & H8) [Hs Hl].
  split; [intros ch p|intros l p]; unfold wellTyped; rewrite H8.
  - rewrite H1. apply Hs.
  - rewrite H2. apply Hl.
Qed.

Lemma is_Some_option_mem st a :
  is_Some (option_mem st !! a) ↔ is_Some (takesArgument st (OptionPtr a)).
Proof. cbn. now rewrite fmap_is_Some. Qed.

Lemma awaitsAnOption_same v st st' :
  sameRegistry st st' → awaitsAnOption v st → awaitsAnOption v st'.
Proof.
  intros (_ & _ & _ & _ & _ & _ & _ & H8) Hv He.
  destruct (Hv He) as (a & Hw & Hs). exists a. split; [exact Hw|].
  apply is_Some_option_mem. rewrite H8. now apply is_Some_option_mem.
Qed.

(** A well-typed pointer passes its type assertion and has its object. *)
Lemma wellTyped_flag st p :
  wellTyped st p → takesArgument st p = Some false →
  ∃ a f, p = FlagPtr a ∧ flag_mem st !! a = Some f.
Proof.
  unfold wellTyped. intros H1 H2. rewrite H1 in H2. destruct p as [a|a]; [|discriminate].
  cbn in H1. destruct (flag_mem st !! a) as [f|] eqn:E; [|discriminate].
  exists a, f. now split.
Qed.

Lemma wellTyped_option st p :
  wellTyped st p → takesArgument st p = Some true →
  ∃ a o, p = OptionPtr a ∧ option_mem st !! a = Some o.
Proof.
  unfold wellTyped. intros H1 H2. rewrite H1 in H2. destruct p as [a|a]; [discriminate|].
  cbn in H1. destruct (option_mem st !! a) as [o|] eqn:E; [|discriminate].
  exists a, o. now split.
Qed.

Lemma passParameter_no_panic p v st :
  wellTyped st p → passParameter p v st ≠ Panic.
Proof.
  intros Hp. unfold passParameter.
  destruct (takesArgument st p) as [[|]|] eqn:Ht.
  - destruct (wellTyped_option _ _ Hp Ht) as (a & o & -> & _). discriminate.
  - destruct (wellTyped_flag _ _ Hp Ht) as (a & f & -> & Hf). cbn [assertFlag].
    now rewrite (takeValue_Some _ _ _ _ Hf).
  - unfold wellTyped in Hp. congruence.
Qed.

Lemma negateParameter_no_panic ch p v st :
  wellTyped st p → negateParameter ch p v st ≠ Panic.
Proof.
  intros Hp. unfold negateParameter.
  destruct (takesArgument st p) as [[|]|] eqn:Ht; [discriminate| |].
  - destruct (wellTyped_flag _ _ Hp Ht) as (a & f & -> & Hf). cbn [assertFlag].
    now rewrite (takeValue_Some _ _ _ _ Hf).
  - unfold wellTyped in Hp. congruence.
Qed.

Lemma clump_no_panic arg n j v st :
  wellFormed st → clump arg n j v st ≠ Panic.
Proof.
  revert j v st. induction n as [|n IH]; intros j v st Hwf; cbn [clump];
    [discriminate|].
  destruct (paramsByShort st !! byteAt arg j) as [p|] eqn:Hp; [|discriminate].
  pose proof (proj1 Hwf _ _ Hp) as Hty.
  destruct (takesArgument st p) as [[|]|] eqn:Ht.
  - destruct (wellTyped_option _ _ Hty Ht) as (a & o & -> & Ho). cbn [assertOption].
    destruct (j <? len arg - 1)%nat; [|now apply IH].
    now rewrite (addOptArg_Some _ _ _ _ Ho).
  - destruct (wellTyped_flag _ _ Hty Ht) as (a & f & -> & Hf). cbn [assertFlag].
    destruct (takeValue a true st) as [st'|] eqn:Ha.
    + apply IH. eapply wellFormed_same; [|exact Hwf].
      now apply takeValue_sameRegistry in Ha.
    + rewrite (takeValue_Some _ _ _ _ Hf) in Ha. discriminate.
  - unfold wellTyped in Hty. congruence.
Qed.

Lemma negateClump_no_panic arg n j v st :
  wellFormed st → negateClump arg n j v st ≠ Panic.
Proof.
  revert j v st. induction n as [|n IH]; intros j v st Hwf; cbn [negateClump];
    [discriminate|].
  destruct (paramsByShort st !! byteAt arg j) as [p|] eqn:Hp; [|discriminate].
  pose proof (negateParameter_no_panic (byteAt arg j) p v st (proj1 Hwf _ _ Hp)) as Hn.
  pose proof (negateParameter_same (byteAt arg j) p v st) as Hs.
  destruct (negateParameter (byteAt arg j) p v st) as [v' st'|r e st'|];
    [|discriminate|congruence].
  apply IH. eapply wellFormed_same; [exact Hs|exact Hwf].
Qed.

Lemma longOption_no_panic arg v st :
  wellFormed st → longOption arg v st ≠ Panic.
Proof.
  intros Hwf. unfold longOption. destruct (IndexByte arg "=" <? 0).
  - destruct (paramsByLong st !! sliceFrom arg 2) as [p|] eqn:Hp; [|discriminate].
    apply passParameter_no_panic. exact (proj2 Hwf _ _ Hp).
  - destruct (paramsByLong st !! _) as [p|] eqn:Hp; [|discriminate].
    pose proof (proj2 Hwf _ _ Hp) as Hty.
    destruct (takesArgument st p) as [[|]|] eqn:Ht.
    + destruct (wellTyped_option _ _ Hty Ht) as (a & o & -> & Ho). cbn [assertOption].
      now rewrite (addOptArg_Some _ _ _ _ Ho).
    + destruct (parseFlagOpt _ _) as [b [err|]]; [discriminate|].
      destruct (wellTyped_flag _ _ Hty Ht) as (a & f & -> & Hf). cbn [assertFlag].
      now rewrite (takeValue_Some _ _ _ _ Hf).
    + unfold wellTyped in Hty. congruence.
Qed.

Lemma step_no_panic arg tl v st :
  wellFormed st → awaitsAnOption v st → step arg tl v st ≠ Panic.
Proof.
  intros Hwf Hv. unfold step. destruct (expect_optarg v) eqn:He.
  { destruct (Hv He) as (a & -> & [o Ho]).
    now rewrite (addOptArg_Some _ _ _ _ Ho). }
  assert (Hrest : ∀ dash,
    (let '(r, st') := addRest (rest v) arg dash st in Continue (setRest v r) st')
    ≠ Panic).
  { intros dash. now destruct (addRest (rest v) arg dash st). }
  destruct (len arg) as [|[|[|n]]]; [discriminate|apply Hrest| |].
  - destruct (bool_decide (arg = "--")).
    { now destruct (addRestAfterDashes (rest v) tl st). }
    destruct (bool_decide (byteAt arg 0 = "-"%char)).
    { destruct (paramsByShort st !! byteAt arg 1) as [p|] eqn:Hp; [|discriminate].
      apply passParameter_no_panic. exact (proj1 Hwf _ _ Hp). }
    destruct (bool_decide (byteAt arg 0 = "+"%char)); [|apply Hrest].
    destruct (paramsByShort st !! byteAt arg 1) as [p|] eqn:Hp; [|discriminate].
    apply negateParameter_no_panic. exact (proj1 Hwf _ _ Hp).
  - destruct (bool_decide (byteAt arg 0 = "-"%char)).
    { destruct (bool_decide (byteAt arg 1 = "-"%char));
        [now apply longOption_no_panic|now apply clump_no_panic]. }
    destruct (bool_decide (byteAt arg 0 = "+"%char)); [|apply Hrest].
    now apply negateClump_no_panic.
Qed.

Lemma loop_no_panic args v st :
  wellFormed st → awaitsAnOption v st → loop args v st ≠ Panic.
Proof.
  revert v st. induction args as [|arg tl IH]; intros v st Hwf Hv; cbn [loop];
    [discriminate|].
  pose proof (step_no_panic arg tl v st Hwf Hv) as Hn.
  pose proof (step_same arg tl v st) as Hs.
  destruct (step arg tl v st) as [v' st'|r e st'|] eqn:Hstep;
    [|discriminate|congruence].
  apply IH; [eapply wellFormed_same; eauto|].
  intros He. exact (step_awaits _ _ _ _ _ _ Hstep He).
Qed.

(** On a registry whose pointers are well typed, as the constructors make
    them, [ArgParse] returns for every input: no type assertion fails and no
    nil [waiting_opt] is used; and the registry it leaves is again well
    formed. *)
Theorem ArgParse_never_panics argv st :
  wellFormed st →
  ∃ r e st', ArgParse argv st = Return r e st' ∧ wellFormed st'.
Proof.
  intros Hwf.
  pose proof (loop_no_panic (drop 1 argv) initVars st Hwf) as Hn.
  pose proof (loop_same (drop 1 argv) initVars st) as Hs.
  unfold ArgParse.
  destruct (loop (drop 1 argv) initVars st) as [v' st'|r e st'|] eqn:Hl.
  - exfalso. clear -Hl. revert Hl. generalize (@initVars). generalize st.
    induction (drop 1 argv) as [|arg tl IH]; intros st0 v0; cbn [loop]; [discriminate|].
    destruct (step arg tl v0 st0); [apply IH|discriminate..].
  - exists r, e, st'. split; [reflexivity|]. eapply wellFormed_same; eauto.
  - exfalso. apply Hn; [discriminate|reflexivity].
Qed.

End ParseInvariants.

(** * Declarations *)

Section Declarations.

Context {World : Type}.

Implicit Types (st : @State World) (v : loopVars) (f : @Flag World)
  (o : @Option World) (w : World).

Lemma checkShort_true s st : checkShort s st = true ↔ paramsByShort st !! s = None.
Proof. unfold checkShort. destruct (paramsByShort st !! s); split; congruence. Qed.

Lemma checkLong_true l st : checkLong l st = true ↔ paramsByLong st !! l = None.
Proof. unfold checkLong. destruct (paramsByLong st !! l); split; congruence. Qed.

(** The pointers of the old registry point where they pointed. *)
Lemma declareFlag_takesArgument flag short long st p :
  is_Some (takesArgument st p) →
  takesArgument (declareFlag flag short long st).2 p = takesArgument st p.
Proof.
  destruct p as [a|a]; cbn; [|reflexivity].
  rewrite fmap_is_Some. intros H. apply lookup_lt_is_Some in H.
  now rewrite lookup_app_l.
Qed.

Lemma declareOption_takesArgument opt short long st p :
  is_Some (takesArgument st p) →
  takesArgument (declareOption opt short long st).2 p = takesArgument st p.
Proof.
  destruct p as [a|a]; cbn; [reflexivity|].
  rewrite fmap_is_Some. intros H. apply lookup_lt_is_Some in H.
  now rewrite lookup_app_l.
Qed.

Lemma declareFlag_wellFormed flag short long st :
  takesArg (F_option flag) = false →
  wellFormed st → wellFormed (declareFlag flag short long st).2.
Proof.
  intros Hk [Hs Hl].
  assert (Hnew : wellTyped (declareFlag flag short long st).2
                   (FlagPtr (length (flag_mem st)))).
  { unfold wellTyped. cbn. rewrite lookup_app_r by lia.
    rewrite Nat.sub_diag. cbn. unfold option_takesArgument. now rewrite Hk. }
  assert (Hold : ∀ p, wellTyped st p → wellTyped (declareFlag flag short long st).2 p).
  { intros p Hp. unfold wellTyped in *.
    rewrite declareFlag_takesArgument; [exact Hp|]. rewrite Hp. eauto. }
  split.
  - intros c p. cbn. destruct short as [s|]; [|intros H; apply Hold, (Hs _ _ H)].
    destruct (decide (s = c)) as [->|Hne].
    + rewrite lookup_insert_eq. now intros [= <-].
    + rewrite lookup_insert_ne by exact Hne. intros H. apply Hold, (Hs _ _ H).
  - intros l p. cbn. destruct long as [l0|]; [|intros H; apply Hold, (Hl _ _ H)].
    destruct (decide (l0 = l)) as [->|Hne].
    + rewrite lookup_insert_eq. now intros [= <-].
    + rewrite lookup_insert_ne by exact Hne. intros H. apply Hold, (Hl _ _ H).
Qed.

Lemma declareOption_wellFormed opt short long st :
  takesArg (O_option opt) = true →
  wellFormed st → wellFormed (declareOption opt short long st).2.
Proof.
  intros Hk [Hs Hl].
  assert (Hnew : wellTyped (declareOption opt short long st).2
                   (OptionPtr (length (option_mem st)))).
  { unfold wellTyped. cbn. rewrite lookup_app_r by lia.
    rewrite Nat.sub_diag. cbn. unfold option_takesArgument. now rewrite Hk. }
  assert (Hold : ∀ p, wellTyped st p → wellTyped (declareOption opt short long st).2 p).
  { intros p Hp. unfold wellTyped in *.
    rewrite declareOption_takesArgument; [exact Hp|]. rewrite Hp. eauto. }
  split.
  - intros c p. cbn. destruct short as [s|]; [|intros H; apply Hold, (Hs _ _ H)].
    destruct (decide (s = c)) as [->|Hne].
    + rewrite lookup_insert_eq. now intros [= <-].
    + rewrite lookup_insert_ne by exact Hne. intros H. apply Hold, (Hs _ _ H).
  - intros l p. cbn. destruct long as [l0|]; [|intros H; apply Hold, (Hl _ _ H)].
    destruct (decide (l0 = l)) as [->|Hne].
    + rewrite lookup_insert_eq. now intros [= <-].
    + rewrite lookup_insert_ne by exact Hne. intros H. apply Hold, (Hl _ _ H).
Qed.

Lemma wellFormed_empty st :
  paramsByShort st = ∅ → paramsByLong st = ∅ → wellFormed st.
Proof.
  intros Hs Hl. split; intros k p; [rewrite Hs|rewrite Hl];
    rewrite lookup_empty; discriminate.
Qed.

Lemma Some_pair_snd {A B : Type} (x : A * B) (a : A) (b : B) :
  Some x = Some (a, b) → b = x.2.
Proof. now intros [= ->]. Qed.

(** The registry stays well formed through every declaration: each
    constructor that returns leaves all the pointers of the maps, the new one
    included, pointing at an object of their own kind. *)
Theorem constructors_keep_the_registry_well_formed s l h st a st' :
  wellFormed st →
  (NewFlag s l h st = Some (a, st') → wellFormed st')
  ∧ (NewFlagShort s h st = Some (a, st') → wellFormed st')
  ∧ (NewFlagLong l h st = Some (a, st') → wellFormed st')
  ∧ (NewOption s l h st = Some (a, st') → wellFormed st')
  ∧ (NewOptionShort s h st = Some (a, st') → wellFormed st')
  ∧ (NewOptionLong l h st = Some (a, st') → wellFormed st').
Proof.
  intros Hwf.
  unfold NewFlag, NewFlagShort, NewFlagLong, NewOption, NewOptionShort, NewOptionLong.
  repeat apply conj;
    match goal with
    | |- (if ?b then _ else _) = _ → _ => destruct b; [|discriminate]
    end;
    intros H; rewrite (Some_pair_snd _ _ _ H);
    first [ now apply declareFlag_wellFormed
          | now apply declareOption_wellFormed ].
Qed.

(** The registry before any declaration and after [resetParams] is well
    formed, whatever it was; after [resetParams] no name is taken, so every
    constructor returns, and [OnRestArg] is nil. *)
Theorem resetParams_forgets_every_name st w s l h :
  wellFormed (initState w)
  ∧ wellFormed (resetParams st)
  ∧ checkShort s (resetParams st) = true
  ∧ checkLong l (resetParams st) = true
  ∧ OnRestArg (resetParams st) = None
  ∧ is_Some (NewFlag s l h (resetParams st))
  ∧ is_Some (NewFlagShort s h (resetParams st))
  ∧ is_Some (NewFlagLong l h (resetParams st))
  ∧ is_Some (NewOption s l h (resetParams st))
  ∧ is_Some (NewOptionShort s h (resetParams st))
  ∧ is_Some (NewOptionLong l h (resetParams st)).
Proof.
  split; [now apply wellFormed_empty|].
  split; [now apply wellFormed_empty|].
  repeat apply conj; try reflexivity;
    unfold NewFlag, NewFlagShort, NewFlagLong, NewOption, NewOptionShort,
      NewOptionLong, checkShort, checkLong; cbn; rewrite ?lookup_empty; cbn; eauto.
Qed.

Lemma NewFlag_Some s l h st a st' :
  NewFlag s l h st = Some (a, st') →
  paramsByShort st !! s = None ∧ paramsByLong st !! l = None
  ∧ (a, st') = declareFlag (newFlagObject s l h) (Some s) (Some l) st.
Proof.
  unfold NewFlag. destruct (checkShort s st) eqn:Hs; [|discriminate].
  destruct (checkLong l st) eqn:Hl; [|discriminate].
  apply checkShort_true in Hs. apply checkLong_true in Hl.
  cbn [andb]. intros H. repeat split; try assumption. congruence.
Qed.

Lemma NewOption_Some s l h st a st' :
  NewOption s l h st = Some (a, st') →
  paramsByShort st !! s = None ∧ paramsByLong st !! l = None
  ∧ (a, st') = declareOption (newOptionObject s l h) (Some s) (Some l) st.
Proof.
  unfold NewOption. destruct (checkShort s st) eqn:Hs; [|discriminate].
  destruct (checkLong l st) eqn:Hl; [|discriminate].
  apply checkShort_true in Hs. apply checkLong_true in Hl.
  cbn [andb]. intros H. repeat split; try assumption. congruence.
Qed.

(** What [NewFlag] returns and leaves: a pointer to a new object, the one of
    the short and of the long name alike; the flag is not passed and its count
    is zero; both names were free; the objects and the other names are as
    they were, and [Flags] has one more element, a copy of the object. *)
Theorem NewFlag_registers_both_names s l h st a st' :
  NewFlag s l h st = Some (a, st') →
  a = length (flag_mem st)
  ∧ paramsByShort st' !! s = Some (FlagPtr a)
  ∧ paramsByLong st' !! l = Some (FlagPtr a)
  ∧ flag_mem st' !! a = Some (newFlagObject s l h)
  ∧ Count (newFlagObject (World := World) s l h) = 0
  ∧ Passed (F_option (newFlagObject (World := World) s l h)) = false
  ∧ Flags st' = Flags st ++ [newFlagObject s l h]
  ∧ paramsByShort st !! s = None
  ∧ paramsByLong st !! l = None
  ∧ (∀ s', s' ≠ s → paramsByShort st' !! s' = paramsByShort st !! s')
  ∧ (∀ l', l' ≠ l → paramsByLong st' !! l' = paramsByLong st !! l')
  ∧ (∀ a' f, flag_mem st !! a' = Some f → flag_mem st' !! a' = Some f)
  ∧ option_mem st' = option_mem st
  ∧ Options st' = Options st.
Proof.
  intros H. apply NewFlag_Some in H as (Hs & Hl & [= -> ->]).
  repeat apply conj; cbn; try reflexivity; try assumption.
  - apply lookup_insert_eq.
  - apply lookup_insert_eq.
  - rewrite lookup_app_r by lia. now rewrite Nat.sub_diag.
  - intros s' Hne. now rewrite lookup_insert_ne.
  - intros l' Hne. now rewrite lookup_insert_ne.
  - intros a' f Hf. rewrite lookup_app_l; [exact Hf|]. now apply lookup_lt_Some in Hf.
Qed.

(** The same for [NewOption]: one new object behind both names, with no
    value yet. *)
Theorem NewOption_registers_both_names s l h st a st' :
  NewOption s l h st = Some (a, st') →
  a = length (option_mem st)
  ∧ paramsByShort st' !! s = Some (OptionPtr a)
  ∧ paramsByLong st' !! l = Some (OptionPtr a)
  ∧ option_mem st' !! a = Some (newOptionObject s l h)
  ∧ OptArgs (newOptionObject (World := World) s l h) = []
  ∧ OptArg (newOptionObject (World := World) s l h) = ""
  ∧ Passed (O_option (newOptionObject (World := World) s l h)) = false
  ∧ Options st' = Options st ++ [newOptionObject s l h]
  ∧ paramsByShort st !! s = None
  ∧ paramsByLong st !! l = None
  ∧ (∀ s', s' ≠ s → paramsByShort st' !! s' = paramsByShort st !! s')
  ∧ (∀ l', l' ≠ l → paramsByLong st' !! l' = paramsByLong st !! l')
  ∧ (∀ a' o, option_mem st !! a' = Some o → option_mem st' !! a' = Some o)
  ∧ flag_mem st' = flag_mem st
  ∧ Flags st' = Flags st.
Proof.
  intros H. apply NewOption_Some in H as (Hs & Hl & [= -> ->]).
  repeat apply conj; cbn; try reflexivity; try assumption.
  - apply lookup_insert_eq.
  - apply lookup_insert_eq.
  - rewrite lookup_app_r by lia. now rewrite Nat.sub_diag.
  - intros s' Hne. now rewrite lookup_insert_ne.
  - intros l' Hne. now rewrite lookup_insert_ne.
  - intros a' o Ho. rewrite lookup_app_l; [exact Ho|]. now apply lookup_lt_Some in Ho.
Qed.

(** Once a flag or an option has its two names, no constructor returns when
    given one of them again; the other names are as free as they were. *)
Theorem declared_names_cannot_be_declared_again s l h st a st' s' l' h' :
  NewFlag s l h st = Some (a, st') ∨ NewOption s l h st = Some (a, st') →
  checkShort s' st' = checkShort s' st && negb (bool_decide (s' = s))
  ∧ checkLong l' st' = checkLong l' st && negb (bool_decide (l' = l))
  ∧ NewFlag s l' h' st' = None ∧ NewFlag s' l h' st' = None
  ∧ NewOption s l' h' st' = None ∧ NewOption s' l h' st' = None
  ∧ NewFlagShort s h' st' = None ∧ NewOptionShort s h' st' = None
  ∧ NewFlagLong l h' st' = None ∧ NewOptionLong l h' st' = None.
Proof.
  intros H.
  assert (Hmaps : (∃ p, paramsByShort st' = <[s := p]> (paramsByShort st)
                        ∧ paramsByLong st' = <[l := p]> (paramsByLong st))
                  ∧ paramsByShort st !! s = None ∧ paramsByLong st !! l = None).
  { destruct H as [H|H].
    - apply NewFlag_Some in H as (Hs & Hl & [= -> ->]). eauto.
    - apply NewOption_Some in H as (Hs & Hl & [= -> ->]). eauto. }
  destruct Hmaps as ((p & Hs' & Hl') & Hs & Hl).
  assert (Hcs : ∀ x, checkShort x st'
                     = checkShort x st && negb (bool_decide (x = s))).
  { intros x. unfold checkShort. rewrite Hs'. case_bool_decide as Hx.
    - subst x. rewrite lookup_insert_eq, Hs. reflexivity.
    - rewrite lookup_insert_ne by congruence. now rewrite andb_true_r. }
  assert (Hcl : ∀ x, checkLong x st'
                     = checkLong x st && negb (bool_decide (x = l))).
  { intros x. unfold checkLong. rewrite Hl'. case_bool_decide as Hx.
    - subst x. rewrite lookup_insert_eq, Hl. reflexivity.
    - rewrite lookup_insert_ne by congruence. now rewrite andb_true_r. }
  assert (Hs0 : checkShort s st' = false)
    by (rewrite Hcs, bool_decide_eq_true_2 by reflexivity; apply andb_false_r).
  assert (Hl0 : checkLong l st' = false)
    by (rewrite Hcl, bool_decide_eq_true_2 by reflexivity; apply andb_false_r).
  split; [apply Hcs|]. split; [apply Hcl|].
  unfold NewFlag, NewOption, NewFlagShort, NewOptionShort, NewFlagLong, NewOptionLong.
  rewrite Hs0, Hl0, !andb_false_r. now repeat split.
Qed.

(** A constructor with one name registers that name only: a short-only
    declaration takes no long name (not the empty one either) and a long-only
    declaration takes no short name (not the zero byte either), so neither
    ever stands in the way of another such declaration. *)
Theorem one_name_constructors_register_one_name s l h st a st' :
  (NewFlagShort s h st = Some (a, st') →
   paramsByShort st' !! s = Some (FlagPtr a)
   ∧ paramsByLong st' = paramsByLong st
   ∧ flag_mem st' !! a = Some (newFlagObject s "" h))
  ∧ (NewFlagLong l h st = Some (a, st') →
     paramsByLong st' !! l = Some (FlagPtr a)
     ∧ paramsByShort st' = paramsByShort st
     ∧ flag_mem st' !! a = Some (newFlagObject Ascii.zero l h))
  ∧ (NewOptionShort s h st = Some (a, st') →
     paramsByShort st' !! s = Some (OptionPtr a)
     ∧ paramsByLong st' = paramsByLong st
     ∧ option_mem st' !! a = Some (newOptionObject s "" h))
  ∧ (NewOptionLong l h st = Some (a, st') →
     paramsByLong st' !! l = Some (OptionPtr a)
     ∧ paramsByShort st' = paramsByShort st
     ∧ option_mem st' !! a = Some (newOptionObject Ascii.zero l h)).
Proof.
  unfold NewFlagShort, NewFlagLong, NewOptionShort, NewOptionLong.
  repeat apply conj;
    match goal with
    | |- (if ?b then _ else _) = _ → _ => destruct b; [|discriminate]
    end;
    intros [= <- <-]; cbn; repeat apply conj; try reflexivity;
    try apply lookup_insert_eq;
    rewrite lookup_app_r by lia; now rewrite Nat.sub_diag.
Qed.

End Declarations.

(** * The other tokens *)

Section Tokens.

Context {World : Type}.

Implicit Types (st : @State World) (v : loopVars) (f : @Flag World)
  (o : @Option World) (w : World).

(** ** [--name] *)

Lemma step_long_name (name : string) tl v st :
  IndexByte name "=" < 0 →
  name ≠ "" →
  expect_optarg v = false →
  step ("--" +:+ name) tl v st
  = match paramsByLong st !! name with
    | Some p => passParameter p v st
    | None => Return (rest v) (Some (Errorf_s errUnrecognizedLong name)) st
    end.
Proof.
  intros Hname Hne Hv.
  change ("--" +:+ name) with (String "-" (String "-" name)).
  destruct name as [|c name]; [congruence|].
  unfold step. rewrite Hv.
  change (len (String "-" (String "-" (String c name)))) with (S (S (S (len name)))).
  cbn [byteAt]. rewrite !bool_decide_eq_true_2 by reflexivity.
  assert (Hi : IndexByte (String "-" (String "-" (String c name))) "=" < 0).
  { cbn [IndexByte] in *. change (Ascii.eqb "-" "=") with false. cbv iota zeta.
    destruct (Ascii.eqb c "="); [lia|].
    destruct (Z.ltb_spec (IndexByte name "=") 0) as [H|H]; [|lia].
    cbn. reflexivity. }
  unfold longOption. apply Z.ltb_lt in Hi. rewrite Hi. reflexivity.
Qed.

(** The token [--name], for a [name] that is not empty and holds no [=],
    while no option awaits a value: an unknown name fails with
    [errUnrecognizedLong] naming it, the name of a flag delivers [true] to it,
    and the name of an option leaves that option awaiting the next token; in
    the last case nothing else changes. *)
Theorem long_name_alone (name : string) tl v st :
  IndexByte name "=" < 0 →
  name ≠ "" →
  expect_optarg v = false →
  let token := "--" +:+ name in
  (paramsByLong st !! name = None →
   step token tl v st
   = Return (rest v) (Some (Errorf_s errUnrecognizedLong name)) st)
  ∧ (∀ a f,
       paramsByLong st !! name = Some (FlagPtr a) →
       flag_mem st !! a = Some f →
       takesArg (F_option f) = false →
       step token tl v st
       = Continue v
           (setFlagMem st
              (<[a := (Flag_takeValue true f (world st)).1]> (flag_mem st))
              (Flag_takeValue true f (world st)).2))
  ∧ (∀ a o,
       paramsByLong st !! name = Some (OptionPtr a) →
       option_mem st !! a = Some o →
       takesArg (O_option o) = true →
       step token tl v st
       = Continue {| rest := rest v; expect_optarg := true;
                     waiting_opt := Some a |} st).
Proof.
  intros Hname Hne Hv token. subst token.
  rewrite (step_long_name name tl v st Hname Hne Hv).
  split; [|split].
  - now intros ->.
  - intros a f -> Hm Ht. unfold passParameter.
    rewrite (takesArgument_flag _ _ _ Hm), Ht. cbn [assertFlag].
    now rewrite (takeValue_Some _ _ _ _ Hm).
  - intros a o -> Hm Ht. unfold passParameter.
    now rewrite (takesArgument_option _ _ _ Hm), Ht.
Qed.

(** ** [-cs] *)

Lemma sliceFrom_len (s : string) (j : nat) (c : ascii) (s' : string) :
  sliceFrom s j = String c s' → len s = (j + S (len s'))%nat.
Proof.
  revert s. induction j as [|j IH]; intros s H.
  - simpl in H. now subst s.
  - destruct s as [|b s]; [discriminate|]. simpl in H. apply IH in H.
    change (len (String b s)) with (S (len s)). lia.
Qed.

(** A token [-cs], [c] not [-], is scanned by the clump loop; for a token of
    two bytes the source has the one round written out. *)
Lemma step_clump c cs tl v st :
  expect_optarg v = false →
  c ≠ "-"%char →
  step (String "-" (String c cs)) tl v st
  = clump (String "-" (String c cs)) (S (len cs)) 1 v st.
Proof.
  intros Hv Hc. unfold step. rewrite Hv. destruct cs as [|c' cs].
  - cbn [len String.length byteAt]. cbv iota.
    rewrite (bool_decide_eq_false_2 (String "-" (String c "") = "--"))
      by (intros [= ->]; congruence).
    rewrite bool_decide_eq_true_2 by reflexivity.
    cbn [clump byteAt]. destruct (paramsByShort st !! c) as [p|]; [|reflexivity].
    unfold passParameter. destruct (takesArgument st p) as [[|]|]; [| |reflexivity].
    + cbn. now destruct (assertOption p).
    + destruct (assertFlag p) as [a|]; [|reflexivity].
      now destruct (takeValue a true st).
  - change (len (String "-" (String c (String c' cs)))) with (S (S (S (len cs)))).
    cbv iota. cbn [byteAt].
    rewrite bool_decide_eq_true_2 by reflexivity.
    rewrite bool_decide_eq_false_2 by exact Hc.
    reflexivity.
Qed.

Lemma clump_all_flags cs arg j v st :
  sliceFrom arg j = cs →
  allShortFlags st cs →
  clump arg (len cs) j v st = Continue v (deliverShorts true cs st).
Proof.
  revert j st. induction cs as [|c cs IH]; intros j st Hs Hcs; [reflexivity|].
  destruct (sliceFrom_cons _ _ _ _ Hs) as [Hb Hs'].
  destruct Hcs as [(a & f & Hp & Hm & Ht) Hcs].
  change (len (String c cs)) with (S (len cs)).
  simpl. rewrite Hb, Hp.
  rewrite (takesArgument_flag _ _ _ Hm), Ht. simpl assertFlag. cbv iota.
  destruct (takeValue a true st) as [st'|] eqn:Ha.
  2:{ rewrite (takeValue_Some _ _ _ _ Hm) in Ha. discriminate. }
  apply IH; [exact Hs'|]. eapply takeValue_allShortFlags; eauto.
Qed.

Lemma clump_last_option arg j c v st a o :
  sliceFrom arg j = String c "" →
  paramsByShort st !! c = Some (OptionPtr a) →
  option_mem st !! a = Some o →
  takesArg (O_option o) = true →
  clump arg 1 j v st
  = Continue {| rest := rest v; expect_optarg := true; waiting_opt := Some a |} st.
Proof.
  intros Hs Hp Hm Ht. destruct (sliceFrom_cons _ _ _ _ Hs) as [Hb _].
  apply sliceFrom_len in Hs. cbn [clump]. rewrite Hb, Hp.
  rewrite (takesArgument_option _ _ _ Hm), Ht.
  replace (j <? len arg - 1)%nat with false
    by (symmetry; apply Nat.ltb_ge; change (len "") with 0%nat in Hs; lia).
  reflexivity.
Qed.

(** In a token [-cs], scanned from left to right while no option awaits a
    value, let [pre] be short names of flags and [c] the byte after them.
    The flags of [pre] are set true in all cases.  If [c] is not registered,
    the parse fails with [errUnrecognizedShort] naming [c], and what follows
    [c] is not read.  If [c] is the last byte and names an option, that
    option awaits the next token.  If [c] and the bytes after it are short
    names of flags too, all of them are set true. *)
Theorem clump_sets_flags pre c suf tl v st :
  expect_optarg v = false →
  byteAt (pre +:+ String c "") 0 ≠ "-"%char →
  allShortFlags st pre →
  let token := String "-" (pre +:+ String c suf) in
  (paramsByShort st !! c = None →
   loop (token :: tl) v st
   = Return (rest v) (Some (Errorf_c errUnrecognizedShort c))
       (deliverShorts true pre st))
  ∧ (∀ a o,
       suf = "" →
       paramsByShort st !! c = Some (OptionPtr a) →
       option_mem st !! a = Some o →
       takesArg (O_option o) = true →
       step token tl v st
       = Continue {| rest := rest v; expect_optarg := true;
                     waiting_opt := Some a |} (deliverShorts true pre st))
  ∧ (allShortFlags st (String c suf) →
     step token tl v st
     = Continue v (deliverShorts true (pre +:+ String c suf) st)).
Proof.
  intros Hv Hdash Hpre token.
  assert (Hstep : step token tl v st
                  = clump token (len pre + S (len suf)) 1 v st).
  { subst token. destruct pre as [|c0 pre].
    - rewrite append_empty. rewrite step_clump; [reflexivity|exact Hv|exact Hdash].
    - rewrite append_cons, step_clump; [|exact Hv|exact Hdash].
      f_equal. rewrite len_append. reflexivity. }
  assert (Hs : sliceFrom token 1 = pre +:+ String c suf) by reflexivity.
  pose proof (clump_flags pre (String c suf) token (S (len suf)) 1 v st Hs Hpre)
    as Happ.
  assert (Hs' : sliceFrom token (len pre + 1) = String c suf).
  { subst token. replace (len pre + 1)%nat with (S (len pre)) by lia.
    simpl. apply sliceFrom_append. }
  destruct (deliverShorts_frame true pre st) as [Hom Hps].
  split; [|split].
  - intros Hc. cbn [loop]. rewrite Hstep, Happ. cbn [clump].
    destruct (sliceFrom_cons _ _ _ _ Hs') as [-> _].
    now rewrite Hps, Hc.
  - intros a o -> Hp Hm Ht. rewrite Hstep, Happ.
    apply (clump_last_option token _ c v _ a o Hs').
    + now rewrite Hps.
    + now rewrite Hom.
    + exact Ht.
  - intros Hc. rewrite Hstep.
    assert (Hall : allShortFlags st (pre +:+ String c suf)).
    { clear -Hpre Hc. induction pre as [|c0 pre IH]; [exact Hc|].
      rewrite append_cons. destruct Hpre as [H0 Hpre]. split; auto. }
    replace (len pre + S (len suf))%nat with (len (pre +:+ String c suf))
      by (rewrite len_append; reflexivity).
    now rewrite (clump_all_flags _ token 1 v st Hs Hall).
Qed.

End Tokens.

(** * Declaring, then parsing *)

Section DeclareAndParse.

Context {World : Type}.

Implicit Types (st : @State World) (v : loopVars) (f : @Flag World)
  (o : @Option World) (w : World).

Lemma loop_continue arg tl v st v1 st1 :
  step arg tl v st = Continue v1 st1 →
  loop (arg :: tl) v st = loop tl v1 st1.
Proof. intros H. cbn [loop]. now rewrite H. Qed.

Lemma step_awaited_value arg tl v st a o :
  expect_optarg v = true →
  waiting_opt v = Some a →
  option_mem st !! a = Some o →
  step arg tl v st
  = Continue {| rest := rest v; expect_optarg := false; waiting_opt := Some a |}
      (setOptionMem st
         (<[a := (Option_addOptArg arg o (world st)).1]> (option_mem st))
         (Option_addOptArg arg o (world st)).2).
Proof.
  intros Hv Hw Ho. unfold step. rewrite Hv, Hw.
  now rewrite (addOptArg_Some _ _ _ _ Ho).
Qed.

(** A flag declared by [NewFlag] with a short name other than [-] and a long
    name that is not empty and holds no [=] is set through both names, which
    reach the same object: [-s], [--l] and [--l=true] deliver [true] to it,
    [+s] and [--l=false] deliver [false].  After [-s] and then [--l=false]
    the flag is not passed and its count is back at zero. *)
Theorem declared_flag_is_set_through_both_names s l h st a st' prog tl v :
  NewFlag s l h st = Some (a, st') →
  s ≠ "-"%char →
  l ≠ "" →
  IndexByte l "=" < 0 →
  expect_optarg v = false →
  let flag := newFlagObject s l h in
  let deliver value :=
    Continue v
      (setFlagMem st'
         (<[a := (Flag_takeValue value flag (world st')).1]> (flag_mem st'))
         (Flag_takeValue value flag (world st')).2) in
  step (String "-" (String s "")) tl v st' = deliver true
  ∧ step ("--" +:+ l) tl v st' = deliver true
  ∧ step ("--" +:+ l +:+ "=" +:+ "true") tl v st' = deliver true
  ∧ step (String "+" (String s "")) tl v st' = deliver false
  ∧ step ("--" +:+ l +:+ "=" +:+ "false") tl v st' = deliver false
  ∧ ∃ st'' f,
      ArgParse [prog; String "-" (String s ""); "--" +:+ l +:+ "=" +:+ "false"] st'
      = Return [] None st''
      ∧ flag_mem st'' !! a = Some f
      ∧ Count f = 0
      ∧ Passed (F_option f) = false.
Proof.
  intros Hnew Hs Hl Hi Hv flag deliver.
  destruct (NewFlag_registers_both_names _ _ _ _ _ _ Hnew)
    as (_ & Hps & Hpl & Hm & _).
  assert (Hlong : ∀ (value : string) b st0 v0 f0,
    expect_optarg v0 = false →
    paramsByLong st0 !! l = Some (FlagPtr a) →
    flag_mem st0 !! a = Some f0 →
    takesArg (F_option f0) = false →
    parseFlagOpt l value = (b, None) →
    step ("--" +:+ l +:+ "=" +:+ value) tl v0 st0
    = Continue v0
        (setFlagMem st0
           (<[a := (Flag_takeValue b f0 (world st0)).1]> (flag_mem st0))
           (Flag_takeValue b f0 (world st0)).2)).
  { intros value b st0 v0 f0 Hv0 Hp0 Hm0 Ht0 Hparse.
    rewrite (step_long_with_value l value tl v0 st0 Hi Hv0), Hp0.
    rewrite (takesArgument_flag _ _ _ Hm0), Ht0, Hparse. cbn [assertFlag].
    now rewrite (takeValue_Some _ _ _ _ Hm0). }
  assert (Htrue : parseFlagOpt l "true" = (true, None))
    by (apply (parseFlagOpt_spellings l "true"); vm_compute; reflexivity).
  assert (Hfalse : parseFlagOpt l "false" = (false, None))
    by (apply (parseFlagOpt_spellings l "false"); vm_compute; reflexivity).
  split; [exact (step_short_flag s a flag tl v st' Hs Hps Hm eq_refl Hv)|].
  split.
  { exact (proj1 (proj2 (long_name_alone l tl v st' Hi Hl Hv)) a flag Hpl Hm eq_refl). }
  split; [exact (Hlong "true" true st' v flag Hv Hpl Hm eq_refl Htrue)|].
  split; [exact (step_negated_flag s a flag tl v st' Hps Hm eq_refl Hv)|].
  split; [exact (Hlong "false" false st' v flag Hv Hpl Hm eq_refl Hfalse)|].
  unfold ArgParse. cbn [drop].
  change (drop 0 ?x) with x.
  rewrite (loop_continue _ _ _ _ _ _
             (step_short_flag s a flag _ initVars st' Hs Hps Hm eq_refl eq_refl)).
  set (st1 := setFlagMem st' _ _).
  set (f1 := (Flag_takeValue true flag (world st')).1).
  assert (Hm1 : flag_mem st1 !! a = Some f1).
  { subst st1. cbn. apply list_lookup_insert_eq. now apply lookup_lt_Some in Hm. }
  erewrite loop_continue.
  2:{ assert (Hlong1 : ∀ tl', step ("--" +:+ l +:+ "=" +:+ "false") tl' initVars st1
        = Continue initVars
            (setFlagMem st1
               (<[a := (Flag_takeValue false f1 (world st1)).1]> (flag_mem st1))
               (Flag_takeValue false f1 (world st1)).2)).
      { intros tl'.
        rewrite (step_long_with_value l "false" tl' initVars st1 Hi eq_refl).
        change (paramsByLong st1) with (paramsByLong st'). rewrite Hpl.
        rewrite (takesArgument_flag _ _ _ Hm1). change (takesArg (F_option f1)) with false.
        rewrite Hfalse. cbn [assertFlag].
        now rewrite (takeValue_Some _ _ _ _ Hm1). }
      apply Hlong1. }
  cbn [loop]. eexists _, _. split; [reflexivity|].
  split.
  { cbn [flag_mem setFlagMem]. apply list_lookup_insert_eq.
    now apply lookup_lt_Some in Hm1. }
  split; reflexivity.
Qed.

Lemma setOptionMem_lookup st a o' w o :
  option_mem st !! a = Some o →
  option_mem (setOptionMem st (<[a := o']> (option_mem st)) w) !! a = Some o'.
Proof.
  intros H. cbn. apply list_lookup_insert_eq. now apply lookup_lt_Some in H.
Qed.

(** An option declared by [NewOption] with a short name other than [-] and a
    long name that is not empty and holds no [=] receives its values through
    both names and in the three ways: after [-s x], [--l y] and [--l=z] its
    history is [x], [y], [z] in this order, its most recent value is [z], it
    was passed, and the parse has returned no positional argument and has
    touched no flag. *)
Theorem declared_option_collects_its_values s l h st a st' prog (x y z : string) :
  NewOption s l h st = Some (a, st') →
  s ≠ "-"%char →
  l ≠ "" →
  IndexByte l "=" < 0 →
  ∃ st'' o,
    ArgParse [prog; String "-" (String s ""); x; "--" +:+ l; y;
              "--" +:+ l +:+ "=" +:+ z] st'
    = Return [] None st''
    ∧ option_mem st'' !! a = Some o
    ∧ OptArgs o = [x; y; z]
    ∧ OptArg o = z
    ∧ Passed (O_option o) = true
    ∧ flag_mem st'' = flag_mem st'.
Proof.
  intros Hnew Hs Hl Hi.
  destruct (NewOption_registers_both_names _ _ _ _ _ _ Hnew)
    as (_ & Hps & Hpl & Hm & _).
  set (o0 := newOptionObject (World := World) s l h) in *.
  unfold ArgParse. change (drop 1 (prog :: ?t)) with t.
  (* -s *)
  destruct (step_short_option s [x; "--" +:+ l; y; "--" +:+ l +:+ "=" +:+ z]
              initVars st' Hs) as (a1 & Ha1 & Hstep1); [|reflexivity|].
  { exists a, o0. now repeat split. }
  rewrite Hps in Ha1. injection Ha1 as <-.
  rewrite (loop_continue _ _ _ _ _ _ Hstep1).
  (* x *)
  erewrite loop_continue by (now apply (step_awaited_value x _ _ st' a o0)).
  set (o1 := (Option_addOptArg x o0 (world st')).1).
  set (st1 := setOptionMem st' _ _).
  assert (Hm1 : option_mem st1 !! a = Some o1)
    by (now apply (setOptionMem_lookup st' a o1 _ o0)).
  (* --l *)
  pose proof (fun tl v st Hv => proj2 (proj2 (long_name_alone l tl v st Hi Hl Hv)))
    as Hlong.
  erewrite loop_continue
    by (apply (Hlong _ _ st1) with (o := o1);
        [reflexivity|exact Hpl|exact Hm1|reflexivity]).
  (* y *)
  erewrite loop_continue by (now apply (step_awaited_value y _ _ st1 a o1)).
  set (o2 := (Option_addOptArg y o1 (world st1)).1).
  set (st2 := setOptionMem st1 _ _).
  assert (Hm2 : option_mem st2 !! a = Some o2)
    by (now apply (setOptionMem_lookup st1 a o2 _ o1)).
  (* --l=z *)
  erewrite loop_continue.
  2:{ rewrite (step_long_with_value l z [] _ st2 Hi) by reflexivity.
      change (paramsByLong st2) with (paramsByLong st'). rewrite Hpl.
      rewrite (takesArgument_option _ _ _ Hm2).
      change (takesArg (O_option o2)) with true. cbn [assertOption].
      rewrite (addOptArg_Some _ _ _ _ Hm2). reflexivity. }
  cbn [loop]. eexists _, _. split; [reflexivity|].
  split; [now apply (setOptionMem_lookup st2 a _ _ o2)|].
  now repeat split.
Qed.

End DeclareAndParse.

(** * What a parse returns *)

Section Results.

Context {World : Type}.

Implicit Types (st : @State World) (v : loopVars) (f : @Flag World)
  (o : @Option World) (w : World).

(** ** Errors are the right ones *)

Lemma justified_same st st' e :
  sameRegistry st st' → justified st' e → justified st e.
Proof.
  intros (H1 & H2 & _ & _ & _ & _ & _ & H8). unfold justified.
  destruct e as [format c|format name]; rewrite ?H1, ?H2;
    intros [H|(Hf & p & Hp & Ht)]; [now left| |now left|];
    right; (split; [exact Hf|]); exists p; (split; [exact Hp|]); now rewrite <- H8.
Qed.

Lemma negateParameter_justified ch p v st r e st' :
  paramsByShort st !! ch = Some p →
  negateParameter ch p v st = Return r (Some e) st' → justified st e.
Proof.
  intros Hp. unfold negateParameter.
  destruct (takesArgument st p) as [[|]|] eqn:Ht; [| |discriminate].
  - intros [= <- <- <-]. right. split; [reflexivity|]. now exists p.
  - destruct (assertFlag p) as [a|]; [|discriminate].
    destruct (takeValue a false st); discriminate.
Qed.

Lemma clump_justified arg n j v st r e st' :
  clump arg n j v st = Return r (Some e) st' → justified st e.
Proof.
  revert j v st. induction n as [|n IH]; intros j v st; cbn [clump]; [discriminate|].
  destruct (paramsByShort st !! byteAt arg j) as [p|] eqn:Hp.
  2:{ intros [= <- <- <-]. now left. }
  destruct (takesArgument st p) as [[|]|]; [| |discriminate].
  - destruct (assertOption p) as [a|].
    2:{ destruct (j <? len arg - 1)%nat; discriminate. }
    destruct (j <? len arg - 1)%nat; [|apply IH].
    destruct (addOptArg a (sliceFrom arg j) st); discriminate.
  - destruct (assertFlag p) as [a|]; [|discriminate].
    destruct (takeValue a true st) as [st1|] eqn:Ha; [|discriminate].
    intros H. apply IH in H. eapply justified_same; [|exact H].
    now apply takeValue_sameRegistry in Ha.
Qed.

Lemma negateClump_justified arg n j v st r e st' :
  negateClump arg n j v st = Return r (Some e) st' → justified st e.
Proof.
  revert j v st. induction n as [|n IH]; intros j v st; cbn [negateClump];
    [discriminate|].
  destruct (paramsByShort st !! byteAt arg j) as [p|] eqn:Hp.
  2:{ intros [= <- <- <-]. now left. }
  pose proof (negateParameter_same (byteAt arg j) p v st) as Hs.
  destruct (negateParameter (byteAt arg j) p v st) as [v1 st1|r1 e1 st1|] eqn:Hn;
    [| |discriminate].
  - intros H. apply IH in H. eapply justified_same; eauto.
  - intros [= -> -> ->]. eapply negateParameter_justified; eauto.
Qed.

Lemma parseFlagOpt_error flag value b err :
  parseFlagOpt flag value = (b, Some err) →
  err = Errorf_s errPassedOptargToFlag flag.
Proof.
  unfold parseFlagOpt.
  repeat match goal with
         | |- (if ?c then _ else _) = _ → _ => destruct c; [discriminate|]
         end.
  now intros [= _ <-].
Qed.

Lemma longOption_justified arg v st r e st' :
  longOption arg v st = Return r (Some e) st' → justified st e.
Proof.
  unfold longOption. destruct (IndexByte arg "=" <? 0).
  - destruct (paramsByLong st !! sliceFrom arg 2) as [p|] eqn:Hp.
    + intros H. now apply passParameter_no_error in H.
    + intros [= <- <- <-]. now left.
  - destruct (paramsByLong st !! _) as [p|] eqn:Hp.
    2:{ intros [= <- <- <-]. now left. }
    destruct (takesArgument st p) as [[|]|] eqn:Ht; [| |discriminate].
    + destruct (assertOption p) as [a|]; [|discriminate].
      destruct (addOptArg a _ st); discriminate.
    + destruct (parseFlagOpt _ _) as [b [err|]] eqn:Hparse.
      * intros [= <- <- <-]. apply parseFlagOpt_error in Hparse as ->.
        right. split; [reflexivity|]. now exists p.
      * destruct (assertFlag p) as [a|]; [|discriminate].
        destruct (takeValue a b st); discriminate.
Qed.

Lemma step_justified arg tl v st r e st' :
  step arg tl v st = Return r (Some e) st' → justified st e.
Proof.
  unfold step. destruct (expect_optarg v).
  { destruct (waiting_opt v) as [a|]; [|discriminate].
    destruct (addOptArg a arg st); discriminate. }
  assert (Hrest : ∀ dash,
    (let '(r0, st0) := addRest (rest v) arg dash st in Continue (setRest v r0) st0)
    ≠ Return r (Some e) st').
  { intros dash. now destruct (addRest (rest v) arg dash st). }
  destruct (len arg) as [|[|[|n]]].
  - discriminate.
  - intros H. now apply Hrest in H.
  - destruct (bool_decide (arg = "--")).
    { destruct (addRestAfterDashes (rest v) tl st). discriminate. }
    destruct (bool_decide (byteAt arg 0 = "-"%char)).
    { destruct (paramsByShort st !! byteAt arg 1) as [p|] eqn:Hp.
      - intros H. now apply passParameter_no_error in H.
      - intros [= <- <- <-]. now left. }
    destruct (bool_decide (byteAt arg 0 = "+"%char)).
    2:{ intros H. now apply Hrest in H. }
    destruct (paramsByShort st !! byteAt arg 1) as [p|] eqn:Hp.
    + now apply negateParameter_justified.
    + intros [= <- <- <-]. now left.
  - destruct (bool_decide (byteAt arg 0 = "-"%char)).
    { destruct (bool_decide (byteAt arg 1 = "-"%char));
        [apply longOption_justified|apply clump_justified]. }
    destruct (bool_decide (byteAt arg 0 = "+"%char)).
    2:{ intros H. now apply Hrest in H. }
    apply negateClump_justified.
Qed.

Lemma loop_justified args v st r e st' :
  loop args v st = Return r (Some e) st' → justified st e.
Proof.
  revert v st. induction args as [|arg tl IH]; intros v st; cbn [loop];
    [discriminate|].
  pose proof (step_same arg tl v st) as Hs.
  destruct (step arg tl v st) as [v1 st1|r1 e1 st1|] eqn:Hstep; [| |discriminate].
  - intros H. apply IH in H. eapply justified_same; eauto.
  - intros [= -> -> ->]. eapply step_justified; eauto.
Qed.

(** Every error of [ArgParse] is borne out by the registry it was given:
    [errUnrecognizedShort] names a byte that is no short name,
    [errUnrecognizedLong] a string that is no long name,
    [errTriedToNegateOptArg] the short name of a parameter that takes an
    argument, and [errPassedOptargToFlag] the long name of one that takes
    none; no other error is returned. *)
Theorem ArgParse_errors_are_justified argv st r e st' :
  ArgParse argv st = Return r (Some e) st' →
  match e with
  | Errorf_c format c =>
      (format = errUnrecognizedShort ∧ paramsByShort st !! c = None)
      ∨ (format = errTriedToNegateOptArg
         ∧ ∃ p, paramsByShort st !! c = Some p ∧ takesArgument st p = Some true)
  | Errorf_s format name =>
      (format = errUnrecognizedLong ∧ paramsByLong st !! name = None)
      ∨ (format = errPassedOptargToFlag
         ∧ ∃ p, paramsByLong st !! name = Some p
                ∧ takesArgument st p = Some false)
  end.
Proof. intros H. exact (loop_justified _ _ _ _ _ _ H). Qed.

(** ** The positional arguments returned *)

Lemma addRest_shape r arg dash st :
  (addRest r arg dash st).1 = r
  ∨ (addRest r arg dash st).1 = r ++ [{| Argument := arg; AfterDashes := dash |}].
Proof.
  unfold addRest. destruct (OnRestArg st) as [cb|]; [|now right].
  destruct (cb arg dash (world st)) as [[|] w1]; [now right|now left].
Qed.

Lemma addRestAfterDashes_shape r args st :
  ∃ k, (addRestAfterDashes r args st).1 = r ++ k
       ∧ allTagged true k
       ∧ map Argument k `sublist_of` args.
Proof.
  revert r st. induction args as [|arg args IH]; intros r st.
  - exists []. cbn. rewrite app_nil_r. repeat split; constructor.
  - cbn [addRestAfterDashes].
    pose proof (addRest_shape r arg true st) as H.
    destruct (addRest r arg true st) as [r1 st1]. cbn [fst] in H.
    destruct (IH r1 st1) as (k & Hk1 & Hk & Hsub). rewrite Hk1.
    destruct H as [-> | ->].
    + exists k. repeat split; [exact Hk|]. now apply sublist_cons.
    + exists ({| Argument := arg; AfterDashes := true |} :: k).
      rewrite <- app_assoc. repeat split.
      * constructor; [reflexivity|exact Hk].
      * cbn. now apply sublist_skip.
Qed.

Lemma clump_rest arg n j v st v1 st1 :
  clump arg n j v st = Continue v1 st1 → rest v1 = rest v.
Proof.
  revert j v st. induction n as [|n IH]; intros j v st; cbn [clump].
  { now intros [= <- <-]. }
  destruct (paramsByShort st !! byteAt arg j) as [p|]; [|discriminate].
  destruct (takesArgument st p) as [[|]|]; [| |discriminate].
  - destruct (assertOption p) as [a|].
    2:{ destruct (j <? len arg - 1)%nat; discriminate. }
    destruct (j <? len arg - 1)%nat.
    + destruct (addOptArg a (sliceFrom arg j) st); [|discriminate].
      now intros [= <- <-].
    + intros H. now apply IH in H.
  - destruct (assertFlag p) as [a|]; [|discriminate].
    destruct (takeValue a true st); [|discriminate]. apply IH.
Qed.

Lemma passParameter_rest p v st v1 st1 :
  passParameter p v st = Continue v1 st1 → rest v1 = rest v.
Proof.
  unfold passParameter. destruct (takesArgument st p) as [[|]|]; [| |discriminate].
  - destruct (assertOption p); [|discriminate]. now intros [= <- <-].
  - destruct (assertFlag p) as [a|]; [|discriminate].
    destruct (takeValue a true st); [|discriminate]. now intros [= <- <-].
Qed.

Lemma longOption_rest arg v st v1 st1 :
  longOption arg v st = Continue v1 st1 → rest v1 = rest v.
Proof.
  unfold longOption. destruct (IndexByte arg "=" <? 0).
  - destruct (paramsByLong st !! sliceFrom arg 2) as [p|]; [|discriminate].
    apply passParameter_rest.
  - destruct (paramsByLong st !! _) as [p|]; [|discriminate].
    destruct (takesArgument st p) as [[|]|]; [| |discriminate].
    + destruct (assertOption p) as [a|]; [|discriminate].
      destruct (addOptArg a _ st); [|discriminate]. now intros [= <- <-].
    + destruct (parseFlagOpt _ _) as [b [err|]]; [discriminate|].
      destruct (assertFlag p) as [a|]; [|discriminate].
      destruct (takeValue a b st); [|discriminate]. now intros [= <- <-].
Qed.

(** A round that goes on has appended at most its own token, tagged
    [false]. *)
Lemma step_continue_rest arg tl v st v1 st1 :
  step arg tl v st = Continue v1 st1 →
  rest v1 = rest v
  ∨ rest v1 = rest v ++ [{| Argument := arg; AfterDashes := false |}].
Proof.
  unfold step. destruct (expect_optarg v).
  { destruct (waiting_opt v) as [a|]; [|discriminate].
    destruct (addOptArg a arg st); [|discriminate]. intros [= <- <-]. now left. }
  assert (Hrest :
    (let '(r, st') := addRest (rest v) arg false st in Continue (setRest v r) st')
    = Continue v1 st1 →
    rest v1 = rest v
    ∨ rest v1 = rest v ++ [{| Argument := arg; AfterDashes := false |}]).
  { pose proof (addRest_shape (rest v) arg false st) as H.
    destruct (addRest (rest v) arg false st) as [r st']. intros [= <- <-]. exact H. }
  destruct (len arg) as [|[|[|n]]].
  - intros [= <- <-]. now left.
  - exact Hrest.
  - destruct (bool_decide (arg = "--")).
    { destruct (addRestAfterDashes (rest v) tl st). discriminate. }
    destruct (bool_decide (byteAt arg 0 = "-"%char)).
    { destruct (paramsByShort st !! byteAt arg 1) as [p|]; [|discriminate].
      intros H. left. now apply passParameter_rest in H. }
    destruct (bool_decide (byteAt arg 0 = "+"%char)); [|exact Hrest].
    destruct (paramsByShort st !! byteAt arg 1) as [p|]; [|discriminate].
    intros H. left. now apply negateParameter_vars in H as ->.
  - destruct (bool_decide (byteAt arg 0 = "-"%char)).
    { destruct (bool_decide (byteAt arg 1 = "-"%char)).
      - intros H. left. now apply longOption_rest in H.
      - intros H. left. now apply clump_rest in H. }
    destruct (bool_decide (byteAt arg 0 = "+"%char)); [|exact Hrest].
    intros H. left. now apply negateClump_vars in H as ->.
Qed.

Lemma clump_returns_error arg n j v st r st' :
  clump arg n j v st ≠ Return r None st'.
Proof.
  revert j v st. induction n as [|n IH]; intros j v st; cbn [clump]; [discriminate|].
  destruct (paramsByShort st !! byteAt arg j) as [p|]; [|discriminate].
  destruct (takesArgument st p) as [[|]|]; [| |discriminate].
  - destruct (assertOption p) as [a|].
    2:{ destruct (j <? len arg - 1)%nat; discriminate. }
    destruct (j <? len arg - 1)%nat; [|apply IH].
    destruct (addOptArg a (sliceFrom arg j) st); discriminate.
  - destruct (assertFlag p) as [a|]; [|discriminate].
    destruct (takeValue a true st); [apply IH|discriminate].
Qed.

Lemma negateClump_returns_error arg n j v st r st' :
  negateClump arg n j v st ≠ Return r None st'.
Proof.
  revert j v st. induction n as [|n IH]; intros j v st; cbn [negateClump];
    [discriminate|].
  destruct (paramsByShort st !! byteAt arg j) as [p|]; [|discriminate].
  unfold negateParameter.
  destruct (takesArgument st p) as [[|]|]; [discriminate| |discriminate].
  destruct (assertFlag p) as [a|]; [|discriminate].
  destruct (takeValue a false st); [apply IH|discriminate].
Qed.

(** A round returns without error only at the terminator. *)
Lemma step_return_None arg tl v st r st' :
  step arg tl v st = Return r None st' →
  r = (addRestAfterDashes (rest v) tl st).1.
Proof.
  unfold step. destruct (expect_optarg v).
  { destruct (waiting_opt v) as [a|]; [|discriminate].
    destruct (addOptArg a arg st); discriminate. }
  assert (Hrest : ∀ dash,
    (let '(r0, st0) := addRest (rest v) arg dash st in Continue (setRest v r0) st0)
    ≠ Return r None st').
  { intros dash. now destruct (addRest (rest v) arg dash st). }
  assert (Hneg : ∀ ch p, negateParameter ch p v st ≠ Return r None st').
  { intros ch p. unfold negateParameter.
    destruct (takesArgument st p) as [[|]|]; [discriminate| |discriminate].
    destruct (assertFlag p) as [a|]; [|discriminate].
    destruct (takeValue a false st); discriminate. }
  destruct (len arg) as [|[|[|n]]].
  - discriminate.
  - intros H. now apply Hrest in H.
  - destruct (bool_decide (arg = "--")).
    { destruct (addRestAfterDashes (rest v) tl st). now intros [= <- <-]. }
    destruct (bool_decide (byteAt arg 0 = "-"%char)).
    { destruct (paramsByShort st !! byteAt arg 1) as [p|]; [|discriminate].
      intros H. now apply passParameter_no_error in H. }
    destruct (bool_decide (byteAt arg 0 = "+"%char)).
    2:{ intros H. now apply Hrest in H. }
    destruct (paramsByShort st !! byteAt arg 1) as [p|]; [|discriminate].
    intros H. now apply Hneg in H.
  - destruct (bool_decide (byteAt arg 0 = "-"%char)).
    { destruct (bool_decide (byteAt arg 1 = "-"%char)).
      - unfold longOption. destruct (IndexByte arg "=" <? 0).
        + destruct (paramsByLong st !! sliceFrom arg 2) as [p|]; [|discriminate].
          intros H. now apply passParameter_no_error in H.
        + destruct (paramsByLong st !! _) as [p|]; [|discriminate].
          destruct (takesArgument st p) as [[|]|]; [| |discriminate].
          * destruct (assertOption p) as [a|]; [|discriminate].
            destruct (addOptArg a _ st); discriminate.
          * destruct (parseFlagOpt _ _) as [b [err|]]; [discriminate|].
            destruct (assertFlag p) as [a|]; [|discriminate].
            destruct (takeValue a b st); discriminate.
      - intros H. now apply clump_returns_error in H. }
    destruct (bool_decide (byteAt arg 0 = "+"%char)).
    2:{ intros H. now apply Hrest in H. }
    intros H. now apply negateClump_returns_error in H.
Qed.

Lemma loop_rest args v st r e st' :
  loop args v st = Return r e st' →
  ∃ before after,
    r = rest v ++ before ++ after
    ∧ allTagged false before
    ∧ allTagged true after
    ∧ map Argument (before ++ after) `sublist_of` args
    ∧ (is_Some e → after = []).
Proof.
  revert v st. induction args as [|arg tl IH]; intros v st; cbn [loop].
  { intros [= <- <- <-]. exists [], []. rewrite app_nil_r.
    split; [reflexivity|]. split; [constructor|].
    split; [constructor|]. split; [constructor|reflexivity]. }
  destruct (step arg tl v st) as [v1 st1|r1 e1 st1|] eqn:Hstep; [| |discriminate].
  - intros H. apply IH in H as (before & after & -> & Hb & Ha & Hsub & He).
    destruct (step_continue_rest _ _ _ _ _ _ Hstep) as [->| ->].
    + exists before, after. repeat split; try assumption. now apply sublist_cons.
    + exists ({| Argument := arg; AfterDashes := false |} :: before), after.
      rewrite <- !app_assoc. repeat split; try assumption.
      * constructor; [reflexivity|exact Hb].
      * cbn. now apply sublist_skip.
  - intros [= -> -> ->]. destruct e as [e|].
    + apply step_error in Hstep as (-> & _). exists [], [].
      rewrite app_nil_r. split; [reflexivity|]. split; [constructor|].
      split; [constructor|]. split; [apply sublist_nil_l|reflexivity].
    + apply step_return_None in Hstep as ->.
      destruct (addRestAfterDashes_shape (rest v) tl st) as (k & -> & Hk & Hsub).
      exists [], k. split; [reflexivity|]. split; [constructor|].
      split; [exact Hk|]. split; [now apply sublist_cons|].
      intros [x Hx]. discriminate.
Qed.

(** The positional arguments that [ArgParse] returns, with or without an
    error, are tokens of the input after the program name, in the order of the
    input and none of them twice; those tagged [false] all come before those
    tagged [true]; and a result with an error holds no entry tagged
    [true]. *)
Theorem ArgParse_rest_is_drawn_from_the_input argv st r e st' :
  ArgParse argv st = Return r e st' →
  ∃ before after,
    r = before ++ after
    ∧ allTagged false before
    ∧ allTagged true after
    ∧ map Argument r `sublist_of` drop 1 argv
    ∧ (is_Some e → after = []).
Proof.
  intros H. apply loop_rest in H as (before & after & -> & H).
  exists before, after. now split.
Qed.

End Results.

(** * [parseFlagOpt] on ASCII values *)

Lemma byteZ_range (c : ascii) : 0 ≤ byteZ c < 256.
Proof.
  unfold byteZ. pose proof (N_ascii_bounded c). lia.
Qed.

Lemma byteZ_inj (c d : ascii) : byteZ c = byteZ d → c = d.
Proof.
  unfold byteZ. intros H. apply N2Z.inj in H.
  rewrite <- (ascii_N_embedding c), <- (ascii_N_embedding d). now rewrite H.
Qed.

Lemma byteZ_ascii_of (z : Z) :
  0 ≤ z < 256 → byteZ (ascii_of_N (Z.to_N z)) = z.
Proof.
  intros H. unfold byteZ. rewrite N_ascii_embedding by lia. lia.
Qed.

(** The bitwise or of two bytes reaches [RuneSelf] only if one of them
    does. *)
Lemma lor_ascii (a b : Z) :
  0 ≤ a < RuneSelf → 0 ≤ b < RuneSelf → (RuneSelf <=? Z.lor a b) = false.
Proof.
  unfold RuneSelf. intros Ha Hb. apply Z.leb_gt.
  destruct (Z.eq_dec a 0) as [->|Ha0]; [rewrite Z.lor_0_l; lia|].
  destruct (Z.eq_dec b 0) as [->|Hb0]; [rewrite Z.lor_0_r; lia|].
  change 128 with (2 ^ 7).
  assert (H0 : 0 < Z.lor a b).
  { assert (0 ≤ Z.lor a b) by (apply Z.lor_nonneg; lia).
    assert (Z.lor a b ≠ 0) by (rewrite Z.lor_eq_0_iff; lia). lia. }
  apply Z.log2_lt_pow2; [exact H0|].
  rewrite Z.log2_lor by lia.
  apply Z.max_lub_lt; apply Z.log2_lt_pow2; lia.
Qed.

Lemma lowerByte_spec (c : ascii) :
  byteZ (lowerByte c)
  = if inRange (byteZ c) 0x41 0x5A then byteZ c + 0x20 else byteZ c.
Proof.
  unfold lowerByte. destruct (inRange (byteZ c) 65 90) eqn:E; [|reflexivity].
  unfold inRange in E. apply andb_prop in E as [E1 E2].
  apply Z.leb_le in E1, E2. apply byteZ_ascii_of. lia.
Qed.

(** On an ASCII string, [EqualFold] with a word of small letters is equality
    of the lower case. *)
Lemma EqualFold_ascii (s t : string) :
  isASCII s → lowerLetters t →
  EqualFold s t = true ↔ asciiLower s = t.
Proof.
  revert t. induction s as [|sc s IH]; intros t Hs Ht.
  - destruct t; cbn; split; congruence.
  - destruct t as [|tc t].
    + cbn. split; discriminate.
    + unfold isASCII, lowerLetters in Hs, Ht. cbn in Hs, Ht.
      apply Forall_cons in Hs as [Hsc Hs]. apply Forall_cons in Ht as [Htc Ht].
      unfold inRange in Htc. apply andb_prop in Htc as [Ht1 Ht2].
      apply Z.leb_le in Ht1, Ht2.
      pose proof (byteZ_range sc) as Hr.
      cbn [EqualFold asciiLower].
      rewrite lor_ascii by (unfold RuneSelf in *; lia).
      pose proof (lowerByte_spec sc) as Hl. unfold inRange in Hl.
      specialize (IH t Hs Ht).
      assert (Hcons : ∀ a b (x y : string),
        String a x = String b y ↔ byteZ a = byteZ b ∧ x = y).
      { intros a b x y. split.
        - now intros [= -> ->].
        - intros [H ->]. now rewrite (byteZ_inj _ _ H). }
      rewrite Hcons, Hl.
      destruct (Z.eqb_spec (byteZ tc) (byteZ sc)) as [Heq|Hne].
      { rewrite IH.
        replace ((65 <=? byteZ sc) && (byteZ sc <=? 90)) with false
          by (symmetry; apply andb_false_iff; right; apply Z.leb_gt; lia).
        split; [intros ->; now split|tauto]. }
      destruct (Z.ltb_spec (byteZ tc) (byteZ sc)) as [Hlt|Hge].
      * unfold asciiCasePair.
        replace (byteZ tc <=? 90) with false by (symmetry; apply Z.leb_gt; lia).
        rewrite andb_false_r. cbn [andb].
        split; [discriminate|]. intros [H _].
        destruct ((65 <=? byteZ sc) && (byteZ sc <=? 90)); lia.
      * unfold asciiCasePair.
        destruct ((65 <=? byteZ sc) && (byteZ sc <=? 90)) eqn:E; cbn [andb].
        -- destruct (Z.eqb_spec (byteZ tc) (byteZ sc + 97 - 65)) as [E2|E2].
           ++ rewrite IH. split; [intros ->; split; [lia|reflexivity]|tauto].
           ++ split; [discriminate|]. intros [H _]. lia.
        -- split; [discriminate|]. intros [H _]. lia.
Qed.

Lemma spelling_in (value : string) (words : list string) :
  isASCII value →
  Forall lowerLetters words →
  existsb (EqualFold value) words = true ↔ asciiLower value ∈ words.
Proof.
  intros Hv Hw. induction Hw as [|word words Hword _ IH]; cbn.
  - split; [discriminate|]. intros H. now apply elem_of_nil in H.
  - rewrite orb_true_iff, elem_of_cons, IH, (EqualFold_ascii _ _ Hv Hword).
    reflexivity.
Qed.

(** Among ASCII values, [parseFlagOpt] accepts the eight words in any mix
    of capitals and small letters and nothing else: the value is [true] when
    its lower case is one of [t], [y], [yes], [true], it is [false] when its
    lower case is one of [f], [n], [no], [false], and every other value is
    refused with [errPassedOptargToFlag] naming the flag. *)
Theorem parseFlagOpt_on_ASCII (flag value : string) :
  isASCII value →
  (asciiLower value ∈ ["t"; "y"; "yes"; "true"] →
   parseFlagOpt flag value = (true, None))
  ∧ (asciiLower value ∈ ["f"; "n"; "no"; "false"] →
     parseFlagOpt flag value = (false, None))
  ∧ (asciiLower value ∉ ["t"; "y"; "yes"; "true"; "f"; "n"; "no"; "false"] →
     parseFlagOpt flag value
     = (false, Some (Errorf_s errPassedOptargToFlag flag))).
Proof.
  intros Hv.
  assert (Hletters : Forall lowerLetters
                       ["t"; "y"; "yes"; "true"; "f"; "n"; "no"; "false"]).
  { repeat constructor. }
  assert (Htrue : spellsTrue value = true ↔ asciiLower value ∈ ["t"; "y"; "yes"; "true"]).
  { rewrite <- (spelling_in value _ Hv).
    - unfold spellsTrue. cbn [existsb]. rewrite orb_false_r.
      now rewrite !orb_assoc.
    - repeat constructor. }
  assert (Hfalse : spellsFalse value = true
                   ↔ asciiLower value ∈ ["f"; "n"; "no"; "false"]).
  { rewrite <- (spelling_in value _ Hv).
    - unfold spellsFalse. cbn [existsb]. rewrite orb_false_r.
      now rewrite !orb_assoc.
    - repeat constructor. }
  destruct (parseFlagOpt_spellings flag value) as (H1 & H2 & H3).
  split; [|split].
  - intros H. apply H1, Htrue, H.
  - intros H. apply H2, Hfalse, H.
  - intros H. apply H3.
    + apply not_true_is_false. rewrite Htrue. intros Hin. apply H.
      rewrite !elem_of_cons in *. tauto.
    + apply not_true_is_false. rewrite Hfalse. intros Hin. apply H.
      rewrite !elem_of_cons in *. tauto.
Qed.

(** * The objects through a parse *)

Section Objects.

Context {World : Type}.

Implicit Types (st : @State World) (v : loopVars) (f : @Flag World)
  (o : @Option World) (w : World).

Lemma sameObjects_refl st : sameObjects st st.
Proof.
  split; intros a x Hx; exists x; (split; [exact Hx|]); now repeat split.
Qed.

Lemma sameObjects_trans st1 st2 st3 :
  sameObjects st1 st2 → sameObjects st2 st3 → sameObjects st1 st3.
Proof.
  intros [A1 A2] [B1 B2]. split.
  - intros a f Hf. destruct (A1 _ _ Hf) as (f2 & Hf2 & H2).
    destruct (B1 _ _ Hf2) as (f3 & Hf3 & H3). exists f3. split; [exact Hf3|].
    unfold sameFlag in *. intuition congruence.
  - intros a o Ho. destruct (A2 _ _ Ho) as (o2 & Ho2 & H2).
    destruct (B2 _ _ Ho2) as (o3 & Ho3 & H3). exists o3. split; [exact Ho3|].
    destruct H2 as (? & ? & ? & ? & Hp2 & ?), H3 as (? & ? & ? & ? & Hp3 & ?).
    repeat split; try congruence; [|tauto].
    now transitivity (OptArgs o2).
Qed.

Lemma takeValue_sameObjects a value st st' :
  takeValue a value st = Some st' → sameObjects st st'.
Proof.
  unfold takeValue. destruct (flag_mem st !! a) as [f|] eqn:Hf; [|discriminate].
  assert (Hs : sameFlag f (Flag_takeValue value f (world st)).1).
  { unfold Flag_takeValue, sameFlag.
    destruct value, (OnTrue f) eqn:E1, (OnFalse f) eqn:E2; cbn; rewrite ?E1, ?E2;
      now repeat split. }
  destruct (Flag_takeValue value f (world st)) as [f' w]. cbn [fst] in Hs.
  intros [= <-]. split; cbn.
  - intros a' f0 Hf0. destruct (decide (a = a')) as [<-|Hne].
    + exists f'. rewrite list_lookup_insert_eq by (now apply lookup_lt_Some in Hf).
      split; [reflexivity|]. congruence.
    + exists f0. rewrite list_lookup_insert_ne by exact Hne.
      split; [exact Hf0|]. now repeat split.
  - intros a' o Ho. exists o. split; [exact Ho|]. now repeat split.
Qed.

Lemma addOptArg_sameObjects a arg st st' :
  addOptArg a arg st = Some st' → sameObjects st st'.
Proof.
  unfold addOptArg. destruct (option_mem st !! a) as [o|] eqn:Ho; [|discriminate].
  assert (Hs : sameOption o (Option_addOptArg arg o (world st)).1).
  { unfold Option_addOptArg, sameOption.
    destruct (Action o) eqn:E; cbn; rewrite ?E; repeat split;
      now apply prefix_app_r. }
  destruct (Option_addOptArg arg o (world st)) as [o' w]. cbn [fst] in Hs.
  intros [= <-]. split; cbn.
  - intros a' f Hf. exists f. split; [exact Hf|]. now repeat split.
  - intros a' o0 Ho0. destruct (decide (a = a')) as [<-|Hne].
    + exists o'. rewrite list_lookup_insert_eq by (now apply lookup_lt_Some in Ho).
      split; [reflexivity|]. congruence.
    + exists o0. rewrite list_lookup_insert_ne by exact Hne.
      split; [exact Ho0|]. now repeat split.
Qed.

Lemma addRest_sameObjects r arg dash st :
  sameObjects st (addRest r arg dash st).2.
Proof.
  unfold addRest. destruct (OnRestArg st) as [cb|]; [|apply sameObjects_refl].
  destruct (cb arg dash (world st)) as [[|] w]; cbn [snd];
    (split; intros a x Hx; exists x; (split; [exact Hx|]); now repeat split).
Qed.

Lemma addRestAfterDashes_sameObjects r args st :
  sameObjects st (addRestAfterDashes r args st).2.
Proof.
  revert r st. induction args as [|arg args IH]; intros r st.
  - apply sameObjects_refl.
  - cbn [addRestAfterDashes].
    pose proof (addRest_sameObjects r arg true st) as H.
    destruct (addRest r arg true st) as [r' st']. cbn [snd] in H.
    eapply sameObjects_trans; [exact H|apply IH].
Qed.

Lemma handsOn_objects_trans (c : @control World) st st' :
  sameObjects st st' → handsOn c (sameObjects st') → handsOn c (sameObjects st).
Proof.
  intros H. destruct c; cbn; [| |easy]; intros H'; eapply sameObjects_trans; eauto.
Qed.

Lemma passParameter_objects p v st : handsOn (passParameter p v st) (sameObjects st).
Proof.
  unfold passParameter. destruct (takesArgument st p) as [[|]|]; [| |exact I].
  - destruct (assertOption p); [apply sameObjects_refl|exact I].
  - destruct (assertFlag p) as [a|]; [|exact I].
    destruct (takeValue a true st) eqn:Ha; [|exact I].
    now apply takeValue_sameObjects in Ha.
Qed.

Lemma negateParameter_objects ch p v st :
  handsOn (negateParameter ch p v st) (sameObjects st).
Proof.
  unfold negateParameter. destruct (takesArgument st p) as [[|]|]; [| |exact I].
  - apply sameObjects_refl.
  - destruct (assertFlag p) as [a|]; [|exact I].
    destruct (takeValue a false st) eqn:Ha; [|exact I].
    now apply takeValue_sameObjects in Ha.
Qed.

Lemma clump_objects arg n j v st : handsOn (clump arg n j v st) (sameObjects st).
Proof.
  revert j v st. induction n as [|n IH]; intros j v st; cbn [clump].
  { apply sameObjects_refl. }
  destruct (paramsByShort st !! byteAt arg j) as [p|]; [|apply sameObjects_refl].
  destruct (takesArgument st p) as [[|]|]; [| |exact I].
  - destruct (j <? len arg - 1)%nat.
    + destruct (assertOption p) as [a|]; [|exact I].
      destruct (addOptArg a (sliceFrom arg j) st) eqn:Ha; [|exact I].
      now apply addOptArg_sameObjects in Ha.
    + destruct (assertOption p) as [a|]; [|exact I]. apply IH.
  - destruct (assertFlag p) as [a|]; [|exact I].
    destruct (takeValue a true st) as [st'|] eqn:Ha; [|exact I].
    apply takeValue_sameObjects in Ha.
    eapply handsOn_objects_trans; [exact Ha|apply IH].
Qed.

Lemma negateClump_objects arg n j v st :
  handsOn (negateClump arg n j v st) (sameObjects st).
Proof.
  revert j v st. induction n as [|n IH]; intros j v st; cbn [negateClump].
  { apply sameObjects_refl. }
  destruct (paramsByShort st !! byteAt arg j) as [p|]; [|apply sameObjects_refl].
  pose proof (negateParameter_objects (byteAt arg j) p v st) as H.
  destruct (negateParameter (byteAt arg j) p v st) as [v' st'|r e st'|];
    [|exact H|exact I].
  eapply handsOn_objects_trans; [exact H|apply IH].
Qed.

Lemma longOption_objects arg v st : handsOn (longOption arg v st) (sameObjects st).
Proof.
  unfold longOption. destruct (IndexByte arg "=" <? 0).
  - destruct (paramsByLong st !! sliceFrom arg 2) as [p|];
      [apply passParameter_objects|apply sameObjects_refl].
  - destruct (paramsByLong st !! _) as [p|]; [|apply sameObjects_refl].
    destruct (takesArgument st p) as [[|]|]; [| |exact I].
    + destruct (assertOption p) as [a|]; [|exact I].
      destruct (addOptArg a _ st) eqn:Ha; [|exact I].
      now apply addOptArg_sameObjects in Ha.
    + destruct (parseFlagOpt _ _) as [b [err|]]; [apply sameObjects_refl|].
      destruct (assertFlag p) as [a|]; [|exact I].
      destruct (takeValue a b st) eqn:Ha; [|exact I].
      now apply takeValue_sameObjects in Ha.
Qed.

Lemma step_objects arg tl v st : handsOn (step arg tl v st) (sameObjects st).
Proof.
  unfold step. destruct (expect_optarg v).
  { destruct (waiting_opt v) as [a|]; [|exact I].
    destruct (addOptArg a arg st) eqn:Ha; [|exact I].
    now apply addOptArg_sameObjects in Ha. }
  assert (Hrest : ∀ dash,
    handsOn (let '(r, st') := addRest (rest v) arg dash st in
             Continue (setRest v r) st') (sameObjects st)).
  { intros dash. pose proof (addRest_sameObjects (rest v) arg dash st) as H.
    now destruct (addRest (rest v) arg dash st). }
  destruct (len arg) as [|[|[|n]]].
  - apply sameObjects_refl.
  - apply Hrest.
  - destruct (bool_decide (arg = "--")).
    { pose proof (addRestAfterDashes_sameObjects (rest v) tl st) as H.
      now destruct (addRestAfterDashes (rest v) tl st). }
    destruct (bool_decide (byteAt arg 0 = "-"%char)).
    { destruct (paramsByShort st !! byteAt arg 1) as [p|];
        [apply passParameter_objects|apply sameObjects_refl]. }
    destruct (bool_decide (byteAt arg 0 = "+"%char)); [|apply Hrest].
    destruct (paramsByShort st !! byteAt arg 1) as [p|];
      [apply negateParameter_objects|apply sameObjects_refl].
  - destruct (bool_decide (byteAt arg 0 = "-"%char)).
    { destruct (bool_decide (byteAt arg 1 = "-"%char));
        [apply longOption_objects|apply clump_objects]. }
    destruct (bool_decide (byteAt arg 0 = "+"%char)); [|apply Hrest].
    apply negateClump_objects.
Qed.

Lemma loop_objects args v st : handsOn (loop args v st) (sameObjects st).
Proof.
  revert v st. induction args as [|arg tl IH]; intros v st; cbn [loop].
  { apply sameObjects_refl. }
  pose proof (step_objects arg tl v st) as H.
  destruct (step arg tl v st) as [v' st'|r e st'|]; [|exact H|exact I].
  eapply handsOn_objects_trans; [exact H|apply IH].
Qed.

(** Whatever it returns, a parse has kept every object at its address with
    its names, its help and its callbacks (it writes [Passed] and [Count] of
    a flag, [Passed], [OptArg] and [OptArgs] of an option, and nothing
    else), and it has only added to the history of an option: the values it
    had come first in the values it has, and an option that was passed still
    is. *)
Theorem ArgParse_keeps_names_and_history argv st r e st' :
  ArgParse argv st = Return r e st' →
  (∀ a f, flag_mem st !! a = Some f →
     ∃ f', flag_mem st' !! a = Some f'
           ∧ ShortOpt (F_option f') = ShortOpt (F_option f)
           ∧ LongOpt (F_option f') = LongOpt (F_option f)
           ∧ Help (F_option f') = Help (F_option f)
           ∧ OnTrue f' = OnTrue f
           ∧ OnFalse f' = OnFalse f)
  ∧ (∀ a o, option_mem st !! a = Some o →
       ∃ o', option_mem st' !! a = Some o'
             ∧ ShortOpt (O_option o') = ShortOpt (O_option o)
             ∧ LongOpt (O_option o') = LongOpt (O_option o)
             ∧ Help (O_option o') = Help (O_option o)
             ∧ Action o' = Action o
             ∧ OptArgs o `prefix_of` OptArgs o'
             ∧ (Passed (O_option o) = true → Passed (O_option o') = true)).
Proof.
  intros H. pose proof (loop_objects (drop 1 argv) initVars st) as Hs.
  unfold ArgParse in H. rewrite H in Hs. exact Hs.
Qed.

End Objects.

(** * The further properties at the registries of the examples *)

Lemma registry_declared :
  registry
  = (declareOption optionF (Some "f"%char) (Some "file")
       (declareFlag flagV (Some "v"%char) (Some "verbose") (initState tt)).2).2.
Proof. vm_compute. reflexivity. Qed.

Lemma registry_wellFormed : wellFormed registry.
Proof.
  rewrite registry_declared.
  apply declareOption_wellFormed; [reflexivity|].
  apply declareFlag_wellFormed; [reflexivity|].
  now apply wellFormed_empty.
Qed.

Lemma ArgParse_keeps_the_registry_witness :
  ∃ r e st',
    ArgParse ["prog"; "x"; "-v"; "-f"; "a"; "+f"] registry = Return r e st'
    ∧ paramsByShort st' = paramsByShort registry
    ∧ paramsByLong st' = paramsByLong registry
    ∧ Flags st' = Flags registry
    ∧ Flags st' = [flagV]
    ∧ flag_mem st' ≠ [flagV].
Proof.
  assert (H : ∃ r e st',
    ArgParse ["prog"; "x"; "-v"; "-f"; "a"; "+f"] registry = Return r e st'
    ∧ Flags st' = [flagV] ∧ flag_mem st' ≠ [flagV]).
  { eexists _, _, _. split; [vm_compute; reflexivity|].
    split; [reflexivity|]. intros H. inversion H. }
  destruct H as (r & e & st' & H & Hf & Hm). exists r, e, st'.
  destruct (ArgParse_keeps_the_registry _ _ _ _ _ H) as (H1 & H2 & _ & H4 & _).
  now repeat split.
Defined.

Lemma ArgParse_never_panics_witness :
  wellFormed registry
  ∧ ∃ r e st',
      ArgParse ["prog"; "-vf"; "--"; "--file=x"; "+vz"] registry = Return r e st'
      ∧ wellFormed st'.
Proof.
  split; [exact registry_wellFormed|].
  exact (ArgParse_never_panics _ registry registry_wellFormed).
Defined.

Lemma constructors_keep_the_registry_well_formed_witness :
  wellFormed (initState tt)
  ∧ ∃ st1 st2,
      NewFlag "v" "verbose" "" (initState tt) = Some (0%nat, st1)
      ∧ wellFormed st1
      ∧ NewOptionLong "file" "" st1 = Some (0%nat, st2)
      ∧ wellFormed st2.
Proof.
  assert (H0 : wellFormed (initState tt)) by (now apply wellFormed_empty).
  split; [exact H0|].
  eexists _, _.
  assert (H1 : NewFlag "v" "verbose" "" (initState tt)
               = Some (0%nat, (declareFlag (newFlagObject "v" "verbose" "")
                                 (Some "v"%char) (Some "verbose") (initState tt)).2))
    by reflexivity.
  pose proof (proj1 (constructors_keep_the_registry_well_formed
                       "v" "verbose" "" (initState tt) 0%nat _ H0) H1) as Hw1.
  split; [exact H1|]. split; [exact Hw1|].
  assert (H2 : NewOptionLong "file" ""
                 (declareFlag (newFlagObject "v" "verbose" "")
                    (Some "v"%char) (Some "verbose") (initState tt)).2
               = Some (0%nat, (declareOption (newOptionObject Ascii.zero "file" "")
                                 None (Some "file")
                                 (declareFlag (newFlagObject "v" "verbose" "")
                                    (Some "v"%char) (Some "verbose")
                                    (initState tt)).2).2))
    by reflexivity.
  split; [exact H2|].
  exact (proj2 (proj2 (proj2 (proj2 (proj2
           (constructors_keep_the_registry_well_formed
              "v" "file" "" _ 0%nat _ Hw1))))) H2).
Defined.

Lemma NewFlag_registers_both_names_witness :
  ∃ st1,
    NewFlag "v" "verbose" "Increase verbosity" (initState tt) = Some (0%nat, st1)
    ∧ paramsByShort st1 !! "v"%char = Some (FlagPtr 0)
    ∧ paramsByLong st1 !! "verbose" = Some (FlagPtr 0)
    ∧ flag_mem st1 !! 0%nat = Some flagV.
Proof.
  eexists.
  assert (H : NewFlag "v" "verbose" "Increase verbosity" (initState tt)
              = Some (0%nat, (declareFlag flagV (Some "v"%char) (Some "verbose")
                                (initState tt)).2)) by reflexivity.
  split; [exact H|].
  destruct (NewFlag_registers_both_names _ _ _ _ _ _ H) as (_ & H1 & H2 & H3 & _).
  exact (conj H1 (conj H2 H3)).
Defined.

Lemma NewOption_registers_both_names_witness :
  ∃ st1,
    NewOption "f" "file" "Input file" (initState tt) = Some (0%nat, st1)
    ∧ paramsByShort st1 !! "f"%char = Some (OptionPtr 0)
    ∧ paramsByLong st1 !! "file" = Some (OptionPtr 0)
    ∧ option_mem st1 !! 0%nat = Some optionF.
Proof.
  eexists.
  assert (H : NewOption "f" "file" "Input file" (initState tt)
              = Some (0%nat, (declareOption optionF (Some "f"%char) (Some "file")
                                (initState tt)).2)) by reflexivity.
  split; [exact H|].
  destruct (NewOption_registers_both_names _ _ _ _ _ _ H) as (_ & H1 & H2 & H3 & _).
  exact (conj H1 (conj H2 H3)).
Defined.

Lemma declared_names_cannot_be_declared_again_witness :
  ∃ st1,
    NewFlag "v" "verbose" "" (initState tt) = Some (0%nat, st1)
    ∧ NewOption "v" "version" "" st1 = None
    ∧ NewFlagLong "verbose" "" st1 = None
    ∧ checkShort "x" st1 = true.
Proof.
  eexists.
  assert (H : NewFlag "v" "verbose" "" (initState tt)
              = Some (0%nat, (declareFlag (newFlagObject "v" "verbose" "")
                                (Some "v"%char) (Some "verbose") (initState tt)).2))
    by reflexivity.
  split; [exact H|].
  destruct (declared_names_cannot_be_declared_again
              "v" "verbose" "" (initState tt) 0%nat _ "x" "version" ""
              (or_introl H))
    as (Hc & _ & _ & _ & Ho & _ & _ & _ & Hl & _).
  split; [exact Ho|]. split; [exact Hl|]. rewrite Hc. reflexivity.
Defined.

Lemma one_name_constructors_register_one_name_witness :
  ∃ st1 st2,
    NewFlagShort "v" "" (initState tt) = Some (0%nat, st1)
    ∧ paramsByLong st1 = paramsByLong (initState tt)
    ∧ NewFlagShort "x" "" st1 = Some (1%nat, st2)
    ∧ paramsByShort st2 !! "x"%char = Some (FlagPtr 1)
    ∧ paramsByLong st2 = ∅.
Proof.
  eexists _, _.
  assert (H1 : NewFlagShort "v" "" (initState tt)
               = Some (0%nat, (declareFlag (newFlagObject "v" "" "")
                                 (Some "v"%char) None (initState tt)).2))
    by reflexivity.
  split; [exact H1|].
  destruct (proj1 (one_name_constructors_register_one_name
                     "v" "" "" (initState tt) 0%nat _) H1) as (_ & Hl1 & _).
  split; [exact Hl1|].
  assert (H2 : NewFlagShort "x" ""
                 (declareFlag (newFlagObject "v" "" "")
                    (Some "v"%char) None (initState tt)).2
               = Some (1%nat, (declareFlag (newFlagObject "x" "" "")
                                 (Some "x"%char) None
                                 (declareFlag (newFlagObject "v" "" "")
                                    (Some "v"%char) None (initState tt)).2).2))
    by reflexivity.
  split; [exact H2|].
  destruct (proj1 (one_name_constructors_register_one_name
                     "x" "" "" _ 1%nat _) H2) as (Hs2 & Hl2 & _).
  split; [exact Hs2|]. rewrite Hl2. reflexivity.
Defined.

Lemma long_name_alone_witness :
  IndexByte "verbose" "=" < 0
  ∧ "verbose" ≠ ""
  ∧ expect_optarg (@initVars) = false
  ∧ step "--nope" [] initVars registry
    = Return [] (Some (Errorf_s errUnrecognizedLong "nope")) registry
  ∧ step "--verbose" [] initVars registry
    = Continue initVars
        (setFlagMem registry
           (<[0%nat := (Flag_takeValue true flagV tt).1]> (flag_mem registry)) tt)
  ∧ step "--file" [] initVars registry
    = Continue {| rest := []; expect_optarg := true; waiting_opt := Some 0%nat |}
        registry.
Proof.
  assert (H1 : IndexByte "verbose" "=" < 0) by reflexivity.
  assert (H2 : "verbose" ≠ "") by discriminate.
  assert (H3 : expect_optarg (@initVars) = false) by reflexivity.
  split; [exact H1|]. split; [exact H2|]. split; [exact H3|].
  split.
  { apply (proj1 (long_name_alone "nope" [] initVars registry eq_refl
                    ltac:(discriminate) H3)).
    vm_compute. reflexivity. }
  split.
  { apply (proj1 (proj2 (long_name_alone "verbose" [] initVars registry H1 H2 H3))
             0%nat flagV); vm_compute; reflexivity. }
  apply (proj2 (proj2 (long_name_alone "file" [] initVars registry eq_refl
                         ltac:(discriminate) H3)) 0%nat optionF);
    vm_compute; reflexivity.
Defined.

Lemma clump_sets_flags_witness :
  expect_optarg (@initVars) = false
  ∧ allShortFlags registry "v"
  ∧ loop ["-vzv"; "-v"] initVars registry
    = Return [] (Some (Errorf_c errUnrecognizedShort "z"))
        (deliverShorts true "v" registry)
  ∧ step "-vf" [] initVars registry
    = Continue {| rest := []; expect_optarg := true; waiting_opt := Some 0%nat |}
        (deliverShorts true "v" registry)
  ∧ step "-vvv" [] initVars registry
    = Continue initVars (deliverShorts true "vvv" registry).
Proof.
  assert (H1 : expect_optarg (@initVars) = false) by reflexivity.
  assert (Hv : shortIsFlag registry "v").
  { exists 0%nat, flagV. repeat split; vm_compute; reflexivity. }
  assert (H2 : allShortFlags registry "v") by (split; [exact Hv|exact I]).
  split; [exact H1|]. split; [exact H2|]. split; [|split].
  - apply (proj1 (clump_sets_flags "v" "z" "v" ["-v"] initVars registry H1
                    ltac:(discriminate) H2)).
    vm_compute. reflexivity.
  - apply (proj1 (proj2 (clump_sets_flags "v" "f" "" [] initVars registry H1
                           ltac:(discriminate) H2)) 0%nat optionF);
      vm_compute; reflexivity.
  - apply (proj2 (proj2 (clump_sets_flags "v" "v" "v" [] initVars registry H1
                           ltac:(discriminate) H2))).
    split; [exact Hv|exact H2].
Defined.

Lemma step_clump_inline_value_witness :
  expect_optarg (@initVars) = false
  ∧ allShortFlags registry "v"
  ∧ step "-vffile.txt" [] initVars registry
    = Continue initVars
        (setOptionMem (deliverShorts true "v" registry)
           (<[0%nat := (Option_addOptArg "ffile.txt" optionF tt).1]>
              (option_mem registry)) tt).
Proof.
  assert (H1 : expect_optarg (@initVars) = false) by reflexivity.
  assert (H2 : allShortFlags registry "v").
  { split; [|exact I]. exists 0%nat, flagV. repeat split; vm_compute; reflexivity. }
  split; [exact H1|]. split; [exact H2|].
  apply (step_clump_inline_value "v" "f" "f" "ile.txt" 0%nat optionF [] initVars
           registry H1 ltac:(discriminate) H2); vm_compute; reflexivity.
Defined.

Lemma declared_flag_is_set_through_both_names_witness :
  ∃ st1 st2 f,
    NewFlag "v" "verbose" "" (initState tt) = Some (0%nat, st1)
    ∧ ArgParse ["prog"; "-v"; "--verbose=false"] st1 = Return [] None st2
    ∧ flag_mem st2 !! 0%nat = Some f
    ∧ Count f = 0
    ∧ Passed (F_option f) = false.
Proof.
  assert (H : NewFlag "v" "verbose" "" (initState tt)
              = Some (0%nat, (declareFlag (newFlagObject "v" "verbose" "")
                                (Some "v"%char) (Some "verbose") (initState tt)).2))
    by reflexivity.
  destruct (declared_flag_is_set_through_both_names
              "v" "verbose" "" (initState tt) 0%nat _ "prog" [] initVars H
              ltac:(discriminate) ltac:(discriminate) eq_refl eq_refl)
    as (_ & _ & _ & _ & _ & st2 & f & H2 & H3 & H4 & H5).
  eexists. exists st2, f.
  exact (conj H (conj H2 (conj H3 (conj H4 H5)))).
Defined.

Lemma declared_option_collects_its_values_witness :
  ∃ st1 st2 o,
    NewOption "f" "file" "" (initState tt) = Some (0%nat, st1)
    ∧ ArgParse ["prog"; "-f"; "a"; "--file"; "b"; "--file=c=d"] st1
      = Return [] None st2
    ∧ option_mem st2 !! 0%nat = Some o
    ∧ OptArgs o = ["a"; "b"; "c=d"]
    ∧ OptArg o = "c=d".
Proof.
  assert (H : NewOption "f" "file" "" (initState tt)
              = Some (0%nat, (declareOption (newOptionObject "f" "file" "")
                                (Some "f"%char) (Some "file") (initState tt)).2))
    by reflexivity.
  destruct (declared_option_collects_its_values
              "f" "file" "" (initState tt) 0%nat _ "prog" "a" "b" "c=d" H
              ltac:(discriminate) ltac:(discriminate) eq_refl)
    as (st2 & o & H2 & H3 & H4 & H5 & _).
  eexists. exists st2, o.
  exact (conj H (conj H2 (conj H3 (conj H4 H5)))).
Defined.

Lemma ArgParse_errors_are_justified_witness :
  ArgParse ["prog"; "-v"; "+vf"; "-z"] registry
  = Return [] (Some (Errorf_c errTriedToNegateOptArg "f"))
      (deliverShorts false "v" (deliverShorts true "v" registry))
  ∧ ∃ p, paramsByShort registry !! "f"%char = Some p
         ∧ takesArgument registry p = Some true.
Proof.
  assert (H : ArgParse ["prog"; "-v"; "+vf"; "-z"] registry
              = Return [] (Some (Errorf_c errTriedToNegateOptArg "f"))
                  (deliverShorts false "v" (deliverShorts true "v" registry)))
    by (vm_compute; reflexivity).
  split; [exact H|].
  destruct (ArgParse_errors_are_justified _ _ _ _ _ H) as [[Hf _]|[_ Hp]].
  - discriminate Hf.
  - exact Hp.
Defined.

Lemma ArgParse_rest_is_drawn_from_the_input_witness :
  ∃ r st',
    ArgParse ["prog"; "a"; "-v"; "b"; "--"; "-v"; "c"] registry = Return r None st'
    ∧ ∃ before after,
        r = before ++ after
        ∧ allTagged false before
        ∧ allTagged true after
        ∧ map Argument r `sublist_of` ["a"; "-v"; "b"; "--"; "-v"; "c"].
Proof.
  assert (H : ∃ r st',
    ArgParse ["prog"; "a"; "-v"; "b"; "--"; "-v"; "c"] registry = Return r None st')
    by (eexists _, _; vm_compute; reflexivity).
  destruct H as (r & st' & H). exists r, st'. split; [exact H|].
  destruct (ArgParse_rest_is_drawn_from_the_input _ _ _ _ _ H)
    as (before & after & H1 & H2 & H3 & H4 & _).
  exists before, after. now repeat split.
Defined.

Lemma parseFlagOpt_on_ASCII_witness :
  isASCII "TrUe"
  ∧ parseFlagOpt "verbose" "TrUe" = (true, None)
  ∧ parseFlagOpt "verbose" "NO" = (false, None)
  ∧ parseFlagOpt "verbose" "on"
    = (false, Some (Errorf_s errPassedOptargToFlag "verbose")).
Proof.
  assert (H1 : isASCII "TrUe") by (repeat constructor).
  split; [exact H1|]. split; [|split].
  - apply (proj1 (parseFlagOpt_on_ASCII "verbose" "TrUe" H1)).
    rewrite !elem_of_cons. right. right. right. left. reflexivity.
  - apply (proj1 (proj2 (parseFlagOpt_on_ASCII "verbose" "NO"
                           ltac:(repeat constructor)))).
    rewrite !elem_of_cons. right. right. left. reflexivity.
  - apply (proj2 (proj2 (parseFlagOpt_on_ASCII "verbose" "on"
                           ltac:(repeat constructor)))).
    rewrite !elem_of_cons, elem_of_nil. intros H.
    repeat (destruct H as [H|H]; [vm_compute in H; discriminate H|]). exact H.
Defined.

Lemma ArgParse_keeps_names_and_history_witness :
  ∃ st1 st2 o1 o2,
    ArgParse ["prog"; "-f"; "a"] registry = Return [] None st1
    ∧ option_mem st1 !! 0%nat = Some o1
    ∧ ArgParse ["prog"; "--file=b"; "-v"] st1 = Return [] None st2
    ∧ option_mem st2 !! 0%nat = Some o2
    ∧ OptArgs o1 = ["a"]
    ∧ OptArgs o1 `prefix_of` OptArgs o2
    ∧ LongOpt (O_option o2) = "file".
Proof.
  assert (H : ∃ st1 st2 o1,
    ArgParse ["prog"; "-f"; "a"] registry = Return [] None st1
    ∧ option_mem st1 !! 0%nat = Some o1
    ∧ ArgParse ["prog"; "--file=b"; "-v"] st1 = Return [] None st2
    ∧ OptArgs o1 = ["a"] ∧ LongOpt (O_option o1) = "file").
  { eexists _, _, _. split; [vm_compute; reflexivity|].
    split; [vm_compute; reflexivity|]. split; [vm_compute; reflexivity|].
    split; reflexivity. }
  destruct H as (st1 & st2 & o1 & H1 & Ho1 & H2 & Ha & Hl).
  destruct (proj2 (ArgParse_keeps_names_and_history _ _ _ _ _ H2) _ _ Ho1)
    as (o2 & Ho2 & _ & Hl2 & _ & _ & Hp & _).
  exists st1, st2, o1, o2. repeat split; try assumption. congruence.
Defined.

(** * The tests of the package *)

Example TestParseCase01 : passedAfter ["test"; "-v"] testRegistry 0 = Some true.
Proof. vm_compute. reflexivity. Qed.

Example TestParseCase02 : passedAfter ["test"; "--"; "-v"] testRegistry 0 = Some false.
Proof. vm_compute. reflexivity. Qed.

Example TestParseCase03 : passedAfter ["test"; "--verbose"] testRegistry 0 = Some true.
Proof. vm_compute. reflexivity. Qed.

Example TestParseCase04 :
  passedAfter ["test"; "--"; "--verbose"] testRegistry 0 = Some false.
Proof. vm_compute. reflexivity. Qed.

Example TestParseCase05 :
  passedAfter ["test"; "--verbose=true"] testRegistry 0 = Some true.
Proof. vm_compute. reflexivity. Qed.

Example TestParseCase06 : passedAfter ["test"; "-v"; "+v"] testRegistry 0 = Some false.
Proof. vm_compute. reflexivity. Qed.

Example TestParseCase07 :
  passedAfter ["test"; "-av"] testRegistryAll 0 = Some true
  ∧ passedAfter ["test"; "-av"] testRegistryAll 1 = Some true.
Proof. split; vm_compute; reflexivity. Qed.

Example TestParseCase08 :
  passedAfter ["test"; "-v"; "--verbose=false"] testRegistry 0 = Some false.
Proof. vm_compute. reflexivity. Qed.

Example TestParseCase09 :
  ∃ st',
    ArgParse ["test"; "hello"; "-"; "-v"; "--"; "-"] testRegistry
    = Return [{| Argument := "hello"; AfterDashes := false |};
              {| Argument := "-"; AfterDashes := false |};
              {| Argument := "-"; AfterDashes := true |}] None st'
    ∧ passedAfter ["test"; "hello"; "-"; "-v"; "--"; "-"] testRegistry 0 = Some true.
Proof. eexists. split; vm_compute; reflexivity. Qed.
